(** * Wall packing: core/wall_builder.py and main.py

    A shallow embedding of the block-packing pipeline of the wall-build
    repository and the properties its specification states about it.

    The repository holds two copies of the packer:
    - [main.py] (module [Main] below): order trials, starting-offset trials
      and the tail backtrack, a strict "area equal" test for a standard
      block, a buffered keep-out and no aperture filter;
    - [core/wall_builder.py] (module [WallBuilder] below): one greedy pass,
      the "area ratio >= 0.95" test, the aperture filter and the adaptive
      last course.

    Conventions of the embedding:
    - a Python float is an exact rational ([Q]); on the integer and dyadic
      inputs used in the examples double arithmetic is exact as well;
    - [snap] is only ever called with the default grid [SNAP_MM = 1.0], so a
      snapped value is an integer-valued float and is represented by the
      integer ([Z]);
    - the geometry library (Shapely) is a parameter: a record [Shapely] of
      the operations the code calls.  [Rect] is an executable instance for
      rectilinear regions with which the code is run on concrete walls;
    - [while] loops take fuel; an exception is an [outcome] of its own, so a
      call either returns, raises, or runs out of fuel;
    - infinities and NaN have no counterpart: the bounds of an empty
      geometry are whatever the instance of [Shapely] gives. *)

From Stdlib Require Import ZArith QArith Qround Qabs Qminmax List Bool Ascii Lia Lqa.
From Stdlib Require Import Permutation Sorted.
From Stdlib Require String.
Import String.StringSyntax.
Delimit Scope string_scope with string.
Import ListNotations.

Set Implicit Arguments.

Open Scope Q_scope.

(** ** Python numbers *)

Definition Qltb (a b : Q) : bool := negb (Qle_bool b a).

(** [round(v)]: nearest integer, halves to the even neighbour. *)
Definition py_round (v : Q) : Z :=
  let f := Qfloor v in
  match Qcompare (v - inject_Z f) (1 # 2) with
  | Lt => f
  | Gt => (f + 1)%Z
  | Eq => if Z.even f then f else (f + 1)%Z
  end.

(** [int(v)]: truncation towards zero. *)
Definition py_int (v : Q) : Z := Z.quot (Qnum v) (Zpos (Qden v)).

(** ** Outcomes of a call *)

Inductive exn : Type :=
| InvalidGeometry      (* ValueError("Polygon invalido: ...") of sanitize_polygon *)
| ZeroDivisionError    (* a float division by 0.0 *)
| EmptySequence.       (* ValueError of min() / max() on an empty list *)

Inductive outcome (A : Type) : Type :=
| Ret (a : A)
| Raise (e : exn)
| OutOfFuel.

Arguments Ret {A} a.
Arguments Raise {A} e.
Arguments OutOfFuel {A}.

Definition bind {A B : Type} (m : outcome A) (k : A -> outcome B) : outcome B :=
  match m with
  | Ret a => k a
  | Raise e => Raise e
  | OutOfFuel => OutOfFuel
  end.

Notation "x <- m ;; k" := (bind m (fun x => k))
  (at level 61, m at next level, right associativity).
Notation "' p <- m ;; k" := (bind m (fun p => k))
  (at level 61, p pattern, m at next level, right associativity).

(** [a / b] on floats. *)
Definition py_div (a b : Q) : outcome Q :=
  if Qeq_bool b 0 then Raise ZeroDivisionError else Ret (a / b).

(** [min(l)] and [max(l)] on a list of ints. *)
Definition py_min (l : list Z) : outcome Z :=
  match l with
  | [] => Raise EmptySequence
  | a :: r => Ret (fold_left Z.min r a)
  end.

Definition py_max (l : list Z) : outcome Z :=
  match l with
  | [] => Raise EmptySequence
  | a :: r => Ret (fold_left Z.max r a)
  end.

(** [for x in l: acc = body(acc, x)], stopping at the first exception. *)
Fixpoint for_each {A S : Type} (body : S -> A -> outcome S) (l : list A) (s : S)
  : outcome S :=
  match l with
  | [] => Ret s
  | a :: r => s' <- body s a ;; for_each body r s'
  end.

(** [while ...: ...].  The body answers [inl s'] to go round again and
    [inr r] to leave the loop (the test failed, or a [break]). *)
Fixpoint while_loop {S R : Type} (fuel : nat) (body : S -> outcome (S + R)) (s : S)
  : outcome R :=
  match fuel with
  | O => OutOfFuel
  | S n =>
      match body s with
      | Ret (inl s') => while_loop n body s'
      | Ret (inr r) => Ret r
      | Raise e => Raise e
      | OutOfFuel => OutOfFuel
      end
  end.

(** [sorted(l, reverse=True)] *)
Fixpoint insert_desc (a : Z) (l : list Z) : list Z :=
  match l with
  | [] => [a]
  | b :: r => if (b <? a)%Z then a :: l else b :: insert_desc a r
  end.

Definition sorted_reverse (l : list Z) : list Z := fold_right insert_desc [] l.

(** ** The geometry library *)

Inductive geom_kind : Type := Polygon | MultiPolygon | OtherGeometry.

Class Shapely : Type := {
  geom : Type;
  ring : Type;
  is_valid : geom -> bool;
  is_empty : geom -> bool;
  area : geom -> Q;
  bounds : geom -> Q * Q * Q * Q;            (* (minx, miny, maxx, maxy) *)
  box : Q -> Q -> Q -> Q -> geom;
  intersection : geom -> geom -> geom;
  difference : geom -> geom -> geom;
  unary_union : list geom -> geom;
  buffer : geom -> Q -> geom;
  contains : geom -> geom -> bool;
  kind : geom -> geom_kind;                  (* what isinstance tells *)
  geoms : geom -> list geom;                 (* the parts of a multi-geometry *)
  interiors : geom -> list ring;
  ring_coords : ring -> nat;                 (* len(ring.coords) *)
  Polygon_of_ring : ring -> geom
}.

(** ** Configuration constants

    The values of main.py.  core/wall_builder.py imports the same names from
    utils/config.py, which is not part of the sources at hand; the
    specification's configuration table gives them the same values. *)

Definition SCARTO_CUSTOM_MM : Z := 5.
Definition AREA_EPS : Q := 1 # 1000.
Definition COORD_EPS : Q := 1 # 1000000.
Definition MICRO_REST_MM : Q := 15.
Definition KEEP_OUT_MM : Q := 2.
Definition SPLIT_MAX_WIDTH_MM : Z := 413.
Definition BLOCK_HEIGHT : Z := 495.
Definition BLOCK_WIDTHS : list Z := [1239; 826; 413]%Z.
Definition BLOCK_ORDERS : list (list Z) := [[1239; 826; 413]; [826; 1239; 413]]%Z.

(** [snap(v)] with the default grid [SNAP_MM = 1.0]. *)
Definition snap (v : Q) : Z := py_round v.

(** ** Placements *)

Inductive block_type : Type :=
| std_type (w h : Z)          (* "std_{w}x{h}" *)
| adaptive_block_type (w : Z) (* "adaptive_block_{w}" *)
| custom_type.                (* "custom" *)

Record Placed : Type := mkPlaced {
  p_type : block_type;
  p_width : Z;
  p_height : Z;
  p_x : Z;
  p_y : Z
}.

Inductive ctype_tag : Type := ctype_1 | ctype_2 | out_of_spec.

Definition _mk_std (x y : Q) (w h : Z) : Placed :=
  mkPlaced (std_type w h) w h (snap x) (snap y).

(** ** Geometry helpers (main.py; core/wall_builder.py imports the same names
       from utils/geometry_utils.py) and the custom-piece record *)

Section Helpers.
Context {K : Shapely}.

Definition sanitize_polygon (p : geom) : outcome geom :=
  if is_valid p then Ret p
  else
    let fixed := buffer p 0 in
    if is_valid fixed then Ret fixed else Raise InvalidGeometry.

Definition polygon_holes (p : geom) : list geom :=
  map Polygon_of_ring (filter (fun r => (4 <=? ring_coords r)%nat) (interiors p)).

Definition ensure_multipolygon (g : geom) : list geom :=
  match kind g with
  | Polygon => [g]
  | MultiPolygon => filter (fun x => negb (is_empty x)) (geoms g)
  | OtherGeometry => []
  end.

(** A custom piece: the dict of [_mk_custom].  The keys "source_block_width"
    and "waste" exist only in core/wall_builder.py, and "ctype" only after
    [validate_and_tag_customs].  The "geometry" key holds [mapping(geom)],
    the coordinates of the polygon, and is read back with [shape]; the
    polygon itself stands for it. *)
Record Custom : Type := mkCustom {
  c_width : Z;
  c_height : Z;
  c_x : Z;
  c_y : Z;
  c_geometry : geom;
  c_source_block_width : option Z;
  c_waste : option Z;
  c_ctype : option ctype_tag
}.

Definition set_ctype (c : Custom) (t : ctype_tag) : Custom :=
  mkCustom (c_width c) (c_height c) (c_x c) (c_y c) (c_geometry c)
           (c_source_block_width c) (c_waste c) (Some t).

(** [int(round(v))] of a stored width or height. *)
Definition int_round (v : Z) : Z := py_round (inject_Z v).

(** *** Row-aware merge and out-of-spec split

    The two files hold the same text for these two functions; each calls
    its own [_mk_custom] with one argument, which is the parameter here. *)

Section PostProcessing.
Variable _mk_custom : geom -> outcome Custom.

(** [rows[row_id].append(poly)] on a dict that keeps insertion order. *)
Fixpoint rows_append (rows : list (Z * list geom)) (row_id : Z) (poly : geom)
  : list (Z * list geom) :=
  match rows with
  | [] => [(row_id, [poly])]
  | (rid, polys) :: rest =>
      if (rid =? row_id)%Z then (rid, polys ++ [poly]) :: rest
      else (rid, polys) :: rows_append rest row_id poly
  end.

Definition merge_customs_row_aware (customs : list Custom) (tol : Z) (row_height : Z)
  : outcome (list Custom) :=
  match customs with
  | [] => Ret []
  | _ =>
      rows <- for_each (fun rows c =>
                let y0 := snap (inject_Z (c_y c)) in
                q <- py_div (inject_Z y0) (inject_Z row_height) ;;
                let row_id := py_round q in
                let poly := buffer (c_geometry c) 0 in
                Ret (rows_append rows row_id poly)) customs [] ;;
      for_each (fun out (row : Z * list geom) =>
        match snd row with
        | [] => Ret out
        | polys =>
            let merged := unary_union polys in
            let gs := match kind merged with
                      | Polygon => [merged]
                      | _ => geoms merged
                      end in
            for_each (fun out g =>
              if Qltb AREA_EPS (area g)
              then c <- _mk_custom g ;; Ret (out ++ [c])
              else Ret out) gs out
        end) rows []
  end.

(** The [while x0 < maxx - COORD_EPS] loop of [split_out_of_spec]; the state
    is [(x0, out)]. *)
Definition split_body (poly : geom) (max_w : Z) (miny maxx maxy : Q)
  (st : Q * list Custom) : outcome (Q * list Custom + list Custom) :=
  let '(x0, out) := st in
  if Qltb x0 (maxx - COORD_EPS) then
    let x1 := Qmin (x0 + inject_Z max_w) maxx in
    let strip := box x0 miny x1 maxy in
    let piece := buffer (intersection poly strip) 0 in
    if negb (is_empty piece) && Qltb AREA_EPS (area piece)
    then c <- _mk_custom piece ;; Ret (inl (x1, out ++ [c]))
    else Ret (inl (x1, out))
  else Ret (inr out).

Definition split_out_of_spec (fuel : nat) (customs : list Custom) (max_w max_h : Z)
  : outcome (list Custom) :=
  for_each (fun out c =>
    let w := int_round (c_width c) in
    let h := int_round (c_height c) in
    if ((w <=? max_w + SCARTO_CUSTOM_MM) && (h <=? max_h + SCARTO_CUSTOM_MM))%Z
    then Ret (out ++ [c])
    else
      let poly := buffer (c_geometry c) 0 in
      if is_empty poly || Qle_bool (area poly) AREA_EPS then Ret out
      else
        let '(minx, miny, maxx, maxy) := bounds poly in
        while_loop fuel (split_body poly max_w miny maxx maxy) (minx, out))
    customs [].

End PostProcessing.
End Helpers.

(** ** Scores: the tuples [(#custom, total custom area)] *)

Inductive efloat : Type := Fin (q : Q) | Inf.   (* a float, or float("inf") *)

Definition efloat_ltb (a b : efloat) : bool :=
  match a, b with
  | Fin x, Fin y => Qltb x y
  | Fin _, Inf => true
  | Inf, _ => false
  end.

Definition score : Type := (Z * efloat)%type.

(** [s1 < s2] on tuples: the first components decide unless they are equal. *)
Definition score_ltb (s1 s2 : score) : bool :=
  if (fst s1 =? fst s2)%Z then efloat_ltb (snd s1) (snd s2)
  else (fst s1 <? fst s2)%Z.

(** [math.isclose(a, b, rel_tol=1e-9)] *)
Definition isclose (a b : Q) : bool :=
  Qle_bool (Qabs (a - b)) ((1 # 1000000000) * Qmax (Qabs a) (Qabs b)).

(** ** main.py *)

Module Main.
Section WithShapely.
Context {K : Shapely}.

Definition _mk_custom (g : geom) : outcome Custom :=
  g <- sanitize_polygon g ;;
  let '(minx, miny, maxx, maxy) := bounds g in
  Ret (mkCustom (snap (maxx - minx)) (snap (maxy - miny)) (snap minx) (snap miny)
                g None None None).

Definition _score_solution (placed : list Placed) (custom : list Custom) : score :=
  (Z.of_nat (length custom),
   Fin (fold_left (fun total c => total + area (c_geometry c)) custom 0)).

(** The [for bw in widths] block, the same text in [_try_fill] and in
    [_pack_segment_with_order]: [None] when [placed_one] stays false, else
    the cursor and the lists after the piece that was emitted. *)
Fixpoint first_fit (comp : geom) (y stripe_top : Z) (seg_maxx : Q) (cursor : Z)
  (placed : list Placed) (custom : list Custom) (widths : list Z)
  : outcome (option (Z * list Placed * list Custom)) :=
  match widths with
  | [] => Ret None
  | bw :: rest =>
      if Qle_bool (inject_Z cursor + inject_Z bw) (seg_maxx + COORD_EPS) then
        let candidate := box (inject_Z cursor) (inject_Z y)
                             (inject_Z cursor + inject_Z bw) (inject_Z stripe_top) in
        let intersec := intersection candidate comp in
        if is_empty intersec || Qltb (area intersec) AREA_EPS
        then first_fit comp y stripe_top seg_maxx cursor placed custom rest
        else if isclose (area intersec) (area candidate)
        then Ret (Some (snap (inject_Z cursor + inject_Z bw),
                        placed ++ [_mk_std (inject_Z cursor) (inject_Z y) bw BLOCK_HEIGHT],
                        custom))
        else
          c <- _mk_custom intersec ;;
          Ret (Some (snap (inject_Z cursor + inject_Z bw), placed, custom ++ [c]))
      else first_fit comp y stripe_top seg_maxx cursor placed custom rest
  end.

(** The residual at the end of a segment, appended when it is not negligible. *)
Definition append_remaining (remaining : geom) (custom : list Custom)
  : outcome (list Custom) :=
  if negb (is_empty remaining) && Qltb AREA_EPS (area remaining)
  then c <- _mk_custom remaining ;; Ret (custom ++ [c])
  else Ret custom.

Definition try_fill_body (comp : geom) (y stripe_top : Z) (seg_maxx : Q)
  (widths : list Z) (st : Z * list Placed * list Custom)
  : outcome (Z * list Placed * list Custom + list Placed * list Custom) :=
  let '(cursor, placed, custom) := st in
  if Qltb (inject_Z cursor) (seg_maxx - COORD_EPS) then
    r <- first_fit comp y stripe_top seg_maxx cursor placed custom widths ;;
    match r with
    | Some st' => Ret (inl st')
    | None =>
        let remaining := intersection comp
                           (box (inject_Z cursor) (inject_Z y) seg_maxx (inject_Z stripe_top)) in
        custom <- append_remaining remaining custom ;;
        Ret (inr (placed, custom))
    end
  else Ret (inr (placed, custom)).

Definition _try_fill (fuel : nat) (comp : geom) (y stripe_top : Q) (widths : list Z)
  (start_x : Q) : outcome (list Placed * list Custom) :=
  let '(_, _, seg_maxx, _) := bounds comp in
  let cursor := snap start_x in
  let y := snap y in
  let stripe_top := snap stripe_top in
  while_loop fuel (try_fill_body comp y stripe_top seg_maxx widths) (cursor, [], []).

(** The state of the main loop of [_pack_segment_with_order]. *)
Record seg_state : Type := mkSeg {
  cursor : Z;
  placed : list Placed;
  custom : list Custom;
  history : list (Z * nat * nat)   (* (cursor_before, len(placed), len(custom)) *)
}.

Definition alt_order : list Z := [413; 826; 1239]%Z.

(** What happens when no width fits at the cursor. *)
Definition tail (fuel : nat) (comp : geom) (y stripe_top seg_maxx : Z) (st : seg_state)
  : outcome (seg_state + list Placed * list Custom) :=
  let remaining := intersection comp
                     (box (inject_Z (cursor st)) (inject_Z y)
                          (inject_Z seg_maxx) (inject_Z stripe_top)) in
  let rem_width := inject_Z seg_maxx - inject_Z (cursor st) in
  match rev (history st) with
  | (cursor_prev, p_len, c_len) :: _ =>
      if Qltb rem_width MICRO_REST_MM then
        (* one step back, then the alternative order to the end *)
        let placed := firstn p_len (placed st) in
        let custom := firstn c_len (custom st) in
        let cursor := cursor_prev in
        '(p2, c2) <- _try_fill fuel comp (inject_Z y) (inject_Z stripe_top) alt_order
                               (inject_Z cursor) ;;
        let baseline_custom_area :=
          if negb (is_empty remaining) && Qltb AREA_EPS (area remaining)
          then area remaining else 0 in
        let score_backtrack := _score_solution (placed ++ p2) (custom ++ c2) in
        let score_baseline : score :=
          ((Z.of_nat (length custom) + (if Qltb 0 baseline_custom_area then 1 else 0))%Z,
           Fin baseline_custom_area) in
        if score_ltb score_backtrack score_baseline then
          let placed := placed ++ p2 in
          let custom := custom ++ c2 in
          match rev p2, c2 with
          | last :: _, _ =>
              Ret (inl (mkSeg (snap (inject_Z (p_x last) + inject_Z (p_width last)))
                              placed custom (history st)))
          | [], _ :: _ => Ret (inr (placed, custom))
          | [], [] => Ret (inl (mkSeg cursor placed custom (history st)))
          end
        else
          if Qltb AREA_EPS baseline_custom_area
          then c <- _mk_custom remaining ;; Ret (inr (placed, custom ++ [c]))
          else Ret (inr (placed, custom))
      else
        custom <- append_remaining remaining (custom st) ;;
        Ret (inr (placed st, custom))
  | [] =>
      custom <- append_remaining remaining (custom st) ;;
      Ret (inr (placed st, custom))
  end.

Definition pack_body (fuel : nat) (comp : geom) (y stripe_top seg_maxx : Z)
  (widths_order : list Z) (st : seg_state)
  : outcome (seg_state + list Placed * list Custom) :=
  if Qltb (inject_Z (cursor st)) (inject_Z seg_maxx - COORD_EPS) then
    let st := mkSeg (cursor st) (placed st) (custom st)
                    (history st ++ [(cursor st, length (placed st), length (custom st))]) in
    r <- first_fit comp y stripe_top (inject_Z seg_maxx) (cursor st)
                   (placed st) (custom st) widths_order ;;
    match r with
    | Some (cursor', placed', custom') =>
        Ret (inl (mkSeg cursor' placed' custom' (history st)))
    | None => tail fuel comp y stripe_top seg_maxx st
    end
  else Ret (inr (placed st, custom st)).

(** The offset slot before the main loop: the cursor and the lists after it. *)
Definition offset_slot (comp : geom) (y stripe_top seg_maxx cursor offset : Z)
  : outcome (Z * list Placed * list Custom) :=
  if negb (offset =? 0)%Z
     && Qle_bool (inject_Z cursor + inject_Z offset) (inject_Z seg_maxx + COORD_EPS)
  then
    let candidate := box (inject_Z cursor) (inject_Z y)
                         (inject_Z cursor + inject_Z offset) (inject_Z stripe_top) in
    let intersec := intersection candidate comp in
    if negb (is_empty intersec) && Qle_bool AREA_EPS (area intersec) then
      if isclose (area intersec) (area candidate)
      then Ret (snap (inject_Z cursor + inject_Z offset),
                [_mk_std (inject_Z cursor) (inject_Z y) offset BLOCK_HEIGHT], [])
      else c <- _mk_custom intersec ;;
           Ret (snap (inject_Z cursor + inject_Z offset), [], [c])
    else Ret (cursor, [], [])
  else Ret (cursor, [], []).

Definition _pack_segment_with_order (fuel : nat) (comp : geom) (y stripe_top : Q)
  (widths_order : list Z) (offset : Z) : outcome (list Placed * list Custom) :=
  let '(seg_minx, _, seg_maxx, _) := bounds comp in
  let seg_minx := snap seg_minx in
  let seg_maxx := snap seg_maxx in
  let y := snap y in
  let stripe_top := snap stripe_top in
  '(cursor, placed, custom) <- offset_slot comp y stripe_top seg_maxx seg_minx offset ;;
  while_loop fuel (pack_body fuel comp y stripe_top seg_maxx widths_order)
             (mkSeg cursor placed custom []).

(** The running best of a trial loop: [(best_placed, best_custom, best_score)],
    kept when the new score is not strictly smaller. *)
Definition best_state : Type := (list Placed * list Custom * score)%type.

Definition best_init : best_state := ([], [], ((10 ^ 9)%Z, Inf)).

Definition keep_best (best : best_state) (try : list Placed * list Custom) : best_state :=
  let '(p_try, c_try) := try in
  let s := _score_solution p_try c_try in
  if score_ltb s (snd best) then (p_try, c_try, s) else best.

Definition _pack_segment (fuel : nat) (comp : geom) (y stripe_top : Q)
  (widths : list Z) (offset : Z) : outcome (list Placed * list Custom) :=
  best <- for_each (fun best order =>
            try <- _pack_segment_with_order fuel comp y stripe_top order offset ;;
            Ret (keep_best best try)) BLOCK_ORDERS best_init ;;
  Ret (fst best).

Definition offset_candidates (row : Z) (row_offset : option Z) : list Z :=
  (if (row mod 2 =? 0)%Z then [0%Z] else [])
  ++ (if (row mod 2 =? 1)%Z
      then (match row_offset with Some o => [o] | None => [] end) ++ [413%Z]
      else []).

(** One component of a course: every offset candidate is tried. *)
Definition pack_component (fuel : nat) (comp : geom) (y stripe_top : Q) (row : Z)
  (row_offset : option Z) : outcome (list Placed * list Custom) :=
  best <- for_each (fun best off =>
            try <- _pack_segment fuel comp y stripe_top BLOCK_WIDTHS off ;;
            Ret (keep_best best try)) (offset_candidates row row_offset) best_init ;;
  Ret (fst best).

(** [if keepout: inter = inter.difference(keepout)] *)
Definition subtract_keepout (inter : geom) (keepout : option geom) : geom :=
  match keepout with
  | Some k => if negb (is_empty k) then difference inter k else inter
  | None => inter
  end.

(** The state of the course loop of [pack_wall]. *)
Record wall_state : Type := mkWall {
  w_y : Q;
  w_row : Z;
  placed_all : list Placed;
  custom_all : list Custom
}.

Definition course_body (fuel : nat) (polygon : geom) (keepout : option geom)
  (minx maxx maxy : Q) (block_height : Z) (row_offset : option Z) (st : wall_state)
  : outcome (wall_state + list Placed * list Custom) :=
  let y := w_y st in
  if Qltb y (maxy - COORD_EPS) then
    let stripe_top := Qmin (y + inject_Z block_height) maxy in
    let stripe := box minx y maxx stripe_top in
    let inter := subtract_keepout (intersection polygon stripe) keepout in
    let comps := ensure_multipolygon inter in
    '(placed_all, custom_all) <-
      for_each (fun (acc : list Placed * list Custom) comp =>
        if is_empty comp || Qltb (area comp) AREA_EPS then Ret acc
        else
          '(best_placed, best_custom) <- pack_component fuel comp y stripe_top
                                           (w_row st) row_offset ;;
          Ret (fst acc ++ best_placed, snd acc ++ best_custom))
        comps (placed_all st, custom_all st) ;;
    Ret (inl (mkWall (inject_Z (snap (y + inject_Z block_height))) (w_row st + 1)
                     placed_all custom_all))
  else Ret (inr (placed_all st, custom_all st)).

Definition validate_and_tag_customs (custom : list Custom) : list Custom :=
  map (fun c =>
    let w := int_round (c_width c) in
    let h := int_round (c_height c) in
    if ((413 + SCARTO_CUSTOM_MM <=? w) || (495 + SCARTO_CUSTOM_MM <? h))%Z
    then set_ctype c out_of_spec
    else if ((Z.abs (h - 495) <=? SCARTO_CUSTOM_MM) && (w <? 413 + SCARTO_CUSTOM_MM))%Z
    then set_ctype c ctype_1
    else set_ctype c ctype_2) custom.

(** [block_widths] is a parameter of the Python function that its body never
    reads: the trials run on the module constants. *)
Definition pack_wall (fuel : nat) (polygon : geom) (block_widths : list Z)
  (block_height : Z) (row_offset : option Z) (apertures : list geom)
  : outcome (list Placed * list Custom) :=
  polygon <- sanitize_polygon polygon ;;
  let hole_polys := polygon_holes polygon in
  let ap_list := apertures in
  let keepout :=
    match hole_polys ++ ap_list with
    | [] => None
    | l => let u := unary_union l in
           if negb (is_empty u) then Some (buffer u KEEP_OUT_MM) else None
    end in
  let '(minx, miny, maxx, maxy) := bounds polygon in
  '(placed_all, custom_all) <-
    while_loop fuel (course_body fuel polygon keepout minx maxx maxy block_height row_offset)
               (mkWall miny 0 [] []) ;;
  custom_all <- merge_customs_row_aware _mk_custom custom_all SCARTO_CUSTOM_MM BLOCK_HEIGHT ;;
  custom_all <- split_out_of_spec _mk_custom fuel custom_all SPLIT_MAX_WIDTH_MM 495 ;;
  Ret (placed_all, validate_and_tag_customs custom_all).

(** *** Labels

    A label "B3" is the pair of its letter and ordinal, a label "CU2(1)" the
    pair of its code and ordinal; the dicts keyed by list index are the lists
    of labels in index order. *)

Definition SIZE_TO_LETTER : list (Z * ascii) :=
  [(1239%Z, "A"%char); (826%Z, "B"%char); (413%Z, "C"%char)].

(** [sorted(candidates, key=lambda t: t[0])[0][1]]: the first letter at the
    least distance. *)
Fixpoint nearest_letter (w : Z) (items : list (Z * ascii)) (best : Z * ascii) : ascii :=
  match items with
  | [] => snd best
  | (k, v) :: rest =>
      if (Z.abs (w - k) <? fst best)%Z then nearest_letter w rest (Z.abs (w - k), v)
      else nearest_letter w rest best
  end.

Definition letter_of (w : Z) : ascii :=
  match find (fun kv => (fst kv =? w)%Z) SIZE_TO_LETTER with
  | Some (_, v) => v
  | None =>
      match SIZE_TO_LETTER with
      | (k, v) :: rest => nearest_letter w rest (Z.abs (w - k), v)
      | [] => "X"%char
      end
  end.

Inductive code : Type := code_1 | code_2 | code_X.

Definition code_eqb (a b : code) : bool :=
  match a, b with
  | code_1, code_1 | code_2, code_2 | code_X, code_X => true
  | _, _ => false
  end.

(** [ctype = c.get("ctype", 2)], then 1 and 2 stay and the rest is "X". *)
Definition code_of (c : Custom) : code :=
  match c_ctype c with
  | Some ctype_1 => code_1
  | Some ctype_2 | None => code_2
  | Some out_of_spec => code_X
  end.

(** A dict of counters, bumped by one at a key. *)
Definition bump {X : Type} (eqb : X -> X -> bool) (counters : X -> Z) (k : X) : X -> Z :=
  fun k' => if eqb k k' then (counters k' + 1)%Z else counters k'.

Fixpoint std_labels (counters : ascii -> Z) (placed : list Placed) : list (ascii * Z) :=
  match placed with
  | [] => []
  | blk :: rest =>
      let letter := letter_of (p_width blk) in
      let counters := bump Ascii.eqb counters letter in
      (letter, counters letter) :: std_labels counters rest
  end.

Fixpoint custom_labels (counts : code -> Z) (custom : list Custom) : list (code * Z) :=
  match custom with
  | [] => []
  | c :: rest =>
      let k := code_of c in
      let counts := bump code_eqb counts k in
      (k, counts k) :: custom_labels counts rest
  end.

Definition create_block_labels (placed : list Placed) (custom : list Custom)
  : list (ascii * Z) * list (code * Z) :=
  (std_labels (fun _ => 0%Z) placed, custom_labels (fun _ => 0%Z) custom).

(** *** Summary and metrics *)

(** Equality of the "type" strings: "std_{w}x{h}", "adaptive_block_{w}" and
    "custom" are equal exactly when the numbers in them are. *)
Definition block_type_eqb (a b : block_type) : bool :=
  match a, b with
  | std_type w h, std_type w' h' => ((w =? w') && (h =? h'))%Z
  | adaptive_block_type w, adaptive_block_type w' => (w =? w')%Z
  | custom_type, custom_type => true
  | _, _ => false
  end.

(** [summary.get(t)] on a dict that keeps insertion order. *)
Fixpoint summary_get (summary : list (block_type * Z)) (t : block_type) : option Z :=
  match summary with
  | [] => None
  | (k, n) :: rest => if block_type_eqb k t then Some n else summary_get rest t
  end.

(** [summary[t] = summary.get(t, 0) + 1] *)
Fixpoint summary_bump (summary : list (block_type * Z)) (t : block_type)
  : list (block_type * Z) :=
  match summary with
  | [] => [(t, (0 + 1)%Z)]
  | (k, n) :: rest =>
      if block_type_eqb k t then (k, (n + 1)%Z) :: rest
      else (k, n) :: summary_bump rest t
  end.

Definition summarize_blocks (placed : list Placed) : list (block_type * Z) :=
  fold_left (fun summary blk => summary_bump summary (p_type blk)) placed [].

(** The dict of [calculate_metrics]; the key "total_area_coverage" is
    missing when there are no blocks at all. *)
Record metrics : Type := mkMetrics {
  m_efficiency : Q;
  m_waste_ratio : Q;
  m_complexity : nat;
  m_total_area_coverage : option Q
}.

Definition calculate_metrics (placed : list Placed) (customs : list Custom) (wall_area : Q)
  : metrics :=
  let total_blocks := (length placed + length customs)%nat in
  if (total_blocks =? 0)%nat then mkMetrics 0 0 0 None
  else
    let standard_area :=
      fold_left (fun s p => (s + p_width p * p_height p)%Z) placed 0%Z in
    let custom_area :=
      fold_left (fun s c => (s + c_width c * c_height c)%Z) customs 0%Z in
    mkMetrics
      (inject_Z (Z.of_nat (length placed)) / inject_Z (Z.of_nat total_blocks))
      (if Qltb 0 wall_area then inject_Z custom_area / wall_area else 0)
      (length (filter (fun c => match c_ctype c with
                                | Some ctype_2 => true
                                | _ => false
                                end) customs))
      (Some (if Qltb 0 wall_area
             then inject_Z (standard_area + custom_area) / wall_area else 0)).

(** *** The optional passes of [opt_pass] *)

(** The search of [_replace_customs_with_standards] for the width closest
    to a piece: the state is [(best_match, best_waste)], with [None] for no
    match and for [float('inf')]. *)
Definition closest_standard (w h : Z) (block_widths : list Z) : option Z :=
  fst (fold_left
         (fun (best : option Z * option Z) std_width =>
            if ((Z.abs (w - std_width) <=? SCARTO_CUSTOM_MM)
                && (Z.abs (h - BLOCK_HEIGHT) <=? SCARTO_CUSTOM_MM))%Z
            then
              let waste := (Z.abs (w - std_width) + Z.abs (h - BLOCK_HEIGHT))%Z in
              if match snd best with
                 | None => true
                 | Some best_waste => (waste <? best_waste)%Z
                 end
              then (Some std_width, Some waste)
              else best
            else best)
         block_widths (None, None)).

(** [if best_match:] is false for [None] and for a width 0. *)
Definition _replace_customs_with_standards (placed : list Placed) (customs : list Custom)
  (block_widths : list Z) : list Placed * list Custom :=
  fold_left
    (fun (acc : list Placed * list Custom) custom =>
       let '(new_placed, remaining_customs) := acc in
       match closest_standard (c_width custom) (c_height custom) block_widths with
       | Some best_match =>
           if (best_match =? 0)%Z then (new_placed, remaining_customs ++ [custom])
           else (new_placed
                 ++ [_mk_std (inject_Z (c_x custom)) (inject_Z (c_y custom))
                             best_match BLOCK_HEIGHT],
                 remaining_customs)
       | None => (new_placed, remaining_customs ++ [custom])
       end)
    customs (placed, []).

(** [_can_merge_customs]: the centres are at most 100 apart.  The distance
    is a square root; [d ** 0.5 <= 100] is [d <= 100 ** 2]. *)
Definition _can_merge_customs (custom1 custom2 : Custom) : bool :=
  let max_distance : Q := 100 in
  let center1_x := inject_Z (c_x custom1) + inject_Z (c_width custom1) / 2 in
  let center1_y := inject_Z (c_y custom1) + inject_Z (c_height custom1) / 2 in
  let center2_x := inject_Z (c_x custom2) + inject_Z (c_width custom2) / 2 in
  let center2_y := inject_Z (c_y custom2) + inject_Z (c_height custom2) / 2 in
  let distance_squared :=
    (center1_x - center2_x) * (center1_x - center2_x)
    + (center1_y - center2_y) * (center1_y - center2_y) in
  Qle_bool distance_squared (max_distance * max_distance).

Definition _merge_two_customs (custom1 custom2 : Custom) : Custom :=
  let min_x := Z.min (c_x custom1) (c_x custom2) in
  let max_x := Z.max (c_x custom1 + c_width custom1) (c_x custom2 + c_width custom2) in
  let min_y := Z.min (c_y custom1) (c_y custom2) in
  let max_y := Z.max (c_y custom1 + c_height custom1) (c_y custom2 + c_height custom2) in
  let merged_geom := unary_union [c_geometry custom1; c_geometry custom2] in
  mkCustom (snap (inject_Z (max_x - min_x))) (snap (inject_Z (max_y - min_y)))
           (snap (inject_Z min_x)) (snap (inject_Z min_y)) merged_geom
           None None (Some ctype_2).

(** The [for candidate in filtered] loop of [_eliminate_micro_customs]: the
    first candidate that can be merged is removed and the merged piece is
    appended; [None] when [merged] stays false.  [filtered.remove] takes out
    the first entry equal to the candidate, which is the candidate: an equal
    entry before it would have passed the same test earlier.  [min_size] is
    the integer 50 at the one call, in [opt_pass]. *)
Fixpoint merge_into (custom : Custom) (filtered : list Custom) : option (list Custom) :=
  match filtered with
  | [] => None
  | candidate :: rest =>
      if _can_merge_customs custom candidate
      then Some (rest ++ [_merge_two_customs custom candidate])
      else match merge_into custom rest with
           | Some l => Some (candidate :: l)
           | None => None
           end
  end.

Definition _eliminate_micro_customs (customs : list Custom) (min_size : Z) : list Custom :=
  fold_left
    (fun filtered custom =>
       let w := c_width custom in
       let h := c_height custom in
       if ((w <? min_size) || (h <? min_size))%Z then
         match merge_into custom filtered with
         | Some filtered' => filtered'
         | None =>
             if ((20 <=? w) && (20 <=? h))%Z then filtered ++ [custom]
             else filtered
         end
       else filtered ++ [custom])
    customs [].

(** *** The cutting layout *)

(** [sorted(l, key=...)], a stable sort; [lt a b] is [key(a) < key(b)]. *)
Fixpoint insert_by {A : Type} (lt : A -> A -> bool) (a : A) (l : list A) : list A :=
  match l with
  | [] => [a]
  | b :: r => if lt b a then b :: insert_by lt a r else a :: l
  end.

Definition sorted_by {A : Type} (lt : A -> A -> bool) (l : list A) : list A :=
  fold_right (insert_by lt) [] l.

(** The order of the keys [(-height, -width)] of two pieces. *)
Definition taller_first (heights widths : list Z) (i j : nat) : bool :=
  let hi := (- nth i heights 0)%Z in
  let hj := (- nth j heights 0)%Z in
  if (hi =? hj)%Z then (- nth i widths 0 <? - nth j widths 0)%Z else (hi <? hj)%Z.

(** One pass of the grouping loop; the state is
    [(rows, current_row, current_row_height)]. *)
Definition cutting_row_step (heights : list Z)
  (st : list (list nat) * list nat * option Z) (idx : nat)
  : list (list nat) * list nat * option Z :=
  let '(rows, current_row, current_row_height) := st in
  let piece_height := nth idx heights 0%Z in
  let height_tolerance := 50%Z in
  if match current_row_height with
     | None => true
     | Some h => (Z.abs (piece_height - h) <=? height_tolerance)%Z
     end
  then (rows, current_row ++ [idx], Some piece_height)
  else (match current_row with
        | [] => rows
        | _ => rows ++ [current_row]
        end, [idx], Some piece_height).

Definition _optimize_cutting_layout (customs : list Custom) : list (list nat) :=
  match customs with
  | [] => []
  | _ =>
      let heights := map c_height customs in
      let widths := map c_width customs in
      let sorted_indices := sorted_by (taller_first heights widths)
                                      (seq 0 (length customs)) in
      let '(rows, current_row, _) :=
        fold_left (cutting_row_step heights) sorted_indices ([], [], None) in
      match current_row with
      | [] => rows
      | _ => rows ++ [current_row]
      end
  end.

Definition _calculate_cutting_height (customs : list Custom) : Z :=
  match customs with
  | [] => 1000
  | _ =>
      let rows := _optimize_cutting_layout customs in
      let row_height := 600 in
      let margin := 100 in
      let total_height := Z.of_nat (length rows) * (row_height + margin) + 800 in
      Z.max total_height 1500
  end%Z.

Definition _calculate_tables_height (summary : list (block_type * Z))
  (customs : list Custom) : Z :=
  (let std_rows := Z.of_nat (length summary) + 2 in
   let custom_rows := Z.of_nat (length customs) + 1 in
   let row_height := 200 in
   let title_height := 300 in
   let margin := 200 in
   let std_table_height := std_rows * row_height + title_height in
   let custom_table_height := custom_rows * row_height + title_height in
   let max_table_height := Z.max std_table_height custom_table_height in
   max_table_height + margin * 2)%Z.

End WithShapely.
End Main.

(** ** core/wall_builder.py *)

Module WallBuilder.
Section WithShapely.
Context {K : Shapely}.

Definition choose_optimal_source_block_for_custom (required_width : Z)
  (available_widths : list Z) : outcome Z :=
  match available_widths with
  | [] => Ret required_width
  | _ =>
      let suitable_blocks := filter (fun w => (required_width <=? w)%Z) available_widths in
      match suitable_blocks with
      | [] => py_max available_widths
      | _ => py_min suitable_blocks   (* min(..., key=lambda w: w - required_width) *)
      end
  end.

(** [available_widths=None] is the empty list: the code only tests its truth. *)
Definition _mk_custom (g : geom) (available_widths : list Z) : outcome Custom :=
  g <- sanitize_polygon g ;;
  let '(minx, miny, maxx, maxy) := bounds g in
  let required_width := snap (maxx - minx) in
  source_block_width <-
    match available_widths with
    | [] => Ret required_width
    | _ => choose_optimal_source_block_for_custom required_width available_widths
    end ;;
  Ret (mkCustom required_width (snap (maxy - miny)) (snap minx) (snap miny) g
                (Some source_block_width) (Some (source_block_width - required_width)%Z) None).

(** A candidate of width [w] at the cursor: nothing when the intersection is
    negligible, a standard block when it covers at least 95% of the
    candidate, else a custom piece. *)
Inductive piece : Type := std_piece (p : Placed) | custom_piece (c : Custom).

Definition candidate_piece (comp : geom) (y stripe_top cursor w : Z) (widths_order : list Z)
  : outcome (option piece) :=
  let candidate := box (inject_Z cursor) (inject_Z y)
                       (inject_Z cursor + inject_Z w) (inject_Z stripe_top) in
  let intersec := intersection candidate comp in
  if negb (is_empty intersec) && Qle_bool AREA_EPS (area intersec) then
    ratio <- py_div (area intersec) (area candidate) ;;
    if Qle_bool (95 # 100) ratio
    then Ret (Some (std_piece (_mk_std (inject_Z cursor) (inject_Z y) w BLOCK_HEIGHT)))
    else c <- _mk_custom intersec widths_order ;; Ret (Some (custom_piece c))
  else Ret None.

Definition emit (pc : piece) (placed : list Placed) (custom : list Custom)
  : list Placed * list Custom :=
  match pc with
  | std_piece p => (placed ++ [p], custom)
  | custom_piece c => (placed, custom ++ [c])
  end.

(** The [for block_width in widths_order] block: the first width that fits
    in the space left and meets the component decides. *)
Fixpoint first_fit (comp : geom) (y stripe_top cursor : Z) (spazio_rimanente : Q)
  (widths_order widths : list Z) : outcome (option (Z * piece)) :=
  match widths with
  | [] => Ret None
  | block_width :: rest =>
      if Qle_bool (inject_Z block_width) (spazio_rimanente + COORD_EPS) then
        r <- candidate_piece comp y stripe_top cursor block_width widths_order ;;
        match r with
        | Some pc => Ret (Some (block_width, pc))
        | None => first_fit comp y stripe_top cursor spazio_rimanente widths_order rest
        end
      else first_fit comp y stripe_top cursor spazio_rimanente widths_order rest
  end.

(** The end of a segment: no width was placed at the cursor. *)
Definition tail (comp : geom) (y stripe_top seg_maxx cursor : Z) (spazio_rimanente : Q)
  (widths_order : list Z) (custom : list Custom) : outcome (list Custom) :=
  if Qltb MICRO_REST_MM spazio_rimanente then
    let remaining_box := box (inject_Z cursor) (inject_Z y)
                             (inject_Z seg_maxx) (inject_Z stripe_top) in
    let remaining_intersec := intersection remaining_box comp in
    if negb (is_empty remaining_intersec) && Qle_bool AREA_EPS (area remaining_intersec)
    then c <- _mk_custom remaining_intersec widths_order ;; Ret (custom ++ [c])
    else Ret custom
  else Ret custom.

Definition pack_body (comp : geom) (y stripe_top seg_maxx : Z) (widths_order : list Z)
  (st : Z * list Placed * list Custom)
  : outcome (Z * list Placed * list Custom + list Placed * list Custom) :=
  let '(cursor, placed, custom) := st in
  if Qltb (inject_Z cursor) (inject_Z seg_maxx - COORD_EPS) then
    let spazio_rimanente := inject_Z seg_maxx - inject_Z cursor in
    r <- first_fit comp y stripe_top cursor spazio_rimanente widths_order widths_order ;;
    match r with
    | Some (block_width, pc) =>
        let '(placed, custom) := emit pc placed custom in
        Ret (inl (snap (inject_Z cursor + inject_Z block_width), placed, custom))
    | None =>
        custom <- tail comp y stripe_top seg_maxx cursor spazio_rimanente widths_order custom ;;
        Ret (inr (placed, custom))
    end
  else Ret (inr (placed, custom)).

Definition offset_slot (comp : geom) (y stripe_top seg_maxx cursor offset : Z)
  (widths_order : list Z) : outcome (Z * list Placed * list Custom) :=
  if negb (offset =? 0)%Z
     && Qle_bool (inject_Z cursor + inject_Z offset) (inject_Z seg_maxx + COORD_EPS)
  then
    r <- candidate_piece comp y stripe_top cursor offset widths_order ;;
    match r with
    | Some pc =>
        let '(placed, custom) := emit pc [] [] in
        Ret (snap (inject_Z cursor + inject_Z offset), placed, custom)
    | None => Ret (cursor, [], [])
    end
  else Ret (cursor, [], []).

Definition _pack_segment_with_order (fuel : nat) (comp : geom) (y stripe_top : Q)
  (widths_order : list Z) (offset : Z) : outcome (list Placed * list Custom) :=
  let '(seg_minx, _, seg_maxx, _) := bounds comp in
  let seg_minx := snap seg_minx in
  let seg_maxx := snap seg_maxx in
  let y := snap y in
  let stripe_top := snap stripe_top in
  st <- offset_slot comp y stripe_top seg_maxx seg_minx offset widths_order ;;
  while_loop fuel (pack_body comp y stripe_top seg_maxx widths_order) st.

(** [_pack_segment_with_order_adaptive]: the state of its loop is [(x, placed)]. *)
Definition first_contained (comp : geom) (x y maxx effective_height : Q) (widths : list Z)
  : option Z :=
  find (fun width =>
          Qle_bool (x + inject_Z width) maxx
          && contains comp (box x y (x + inject_Z width) (y + effective_height))) widths.

Definition adaptive_body (comp : geom) (y maxx effective_height : Q) (widths_order : list Z)
  (st : Q * list Placed) : outcome (Q * list Placed + list Placed) :=
  let '(x, placed) := st in
  if Qltb x maxx then
    let remaining_width := maxx - x in
    let optimal_width :=
      find (fun width => Qle_bool (inject_Z width - 5) remaining_width) widths_order in
    let best_width :=
      match optimal_width with
      | Some ow =>
          if Qle_bool (x + inject_Z ow) maxx
             && contains comp (box x y (x + inject_Z ow) (y + effective_height))
          then Some ow else None
      | None => None
      end in
    let best_width :=
      match best_width with
      | Some bw => Some bw
      | None => first_contained comp x y maxx effective_height widths_order
      end in
    match best_width with
    | Some bw =>
        Ret (inl (x + inject_Z bw,
                  placed ++ [mkPlaced (adaptive_block_type bw) bw (snap effective_height)
                                      (snap x) (snap y)]))
    | None => m <- py_min widths_order ;; Ret (inl (x + inject_Z m, placed))
    end
  else Ret (inr placed).

Definition _pack_segment_with_order_adaptive (fuel : nat) (comp : geom) (y stripe_top : Q)
  (widths_order : list Z) (adaptive_height : Q) (offset : Z)
  : outcome (list Placed * list Custom) :=
  let '(minx, _, maxx, _) := bounds comp in
  let actual_height := stripe_top - y in
  let effective_height := Qmin adaptive_height actual_height in
  placed <- while_loop fuel (adaptive_body comp y maxx effective_height widths_order)
                       (minx + inject_Z offset, []) ;;
  let remaining :=
    fold_left (fun remaining block =>
                 difference remaining
                   (box (inject_Z (p_x block)) (inject_Z (p_y block))
                        (inject_Z (p_x block) + inject_Z (p_width block))
                        (inject_Z (p_y block) + inject_Z (p_height block))))
              placed comp in
  custom <-
    (if Qltb AREA_EPS (area remaining) then
       match kind remaining with
       | Polygon => c <- _mk_custom remaining [] ;; Ret [c]
       | _ => for_each (fun custom g =>
                if Qltb AREA_EPS (area g)
                then c <- _mk_custom g [] ;; Ret (custom ++ [c])
                else Ret custom) (geoms remaining) []
       end
     else Ret []) ;;
  Ret (placed, custom).

(** The aperture filter of [pack_wall]. *)
Definition filter_apertures (wall_area : Q) (ap_list : list geom) : outcome (list geom) :=
  for_each (fun valid_apertures ap =>
    let ap_area := area ap in
    area_ratio <- py_div ap_area wall_area ;;
    if Qltb (8 # 10) area_ratio then Ret valid_apertures
    else if Qltb ap_area 1000 then Ret valid_apertures
    else Ret (valid_apertures ++ [ap])) ap_list [].

Definition build_keepout (hole_polys valid_apertures : list geom) : option geom :=
  match hole_polys ++ valid_apertures with
  | [] => None
  | l => let u := unary_union l in
         if negb (is_empty u) then Some u else None   (* the buffer is switched off *)
  end.

Definition subtract_keepout (inter : geom) (keepout : option geom) : geom :=
  match keepout with
  | Some k => if negb (is_empty k) then difference inter k else inter
  | None => inter
  end.

(** What [pack_wall] prints about the courses it packs. *)
Inductive course_line : Type :=
| Processando_riga (row : Z) (y stripe_top : Q)   (* a full course *)
| Riga_adattiva (row : Z) (altezza : Q)           (* the adaptive course *)
| Spazio_insufficiente (remaining_space : Q).     (* the adaptive course is skipped *)

Record wall_state : Type := mkWall {
  w_y : Q;
  placed_all : list Placed;
  custom_all : list Custom;
  stdout : list course_line
}.

Definition row_offset_of (row : Z) (row_offset : option Z) (block_widths : list Z)
  : outcome Z :=
  if (row mod 2 =? 0)%Z then Ret 0%Z
  else match row_offset with
       | Some o => Ret o
       | None => py_min block_widths
       end.

(** [range(n)]: the values [row] takes in [while row < n: ...; row += 1]. *)
Definition range (n : Z) : list Z := map Z.of_nat (seq 0 (Z.to_nat n)).

(** FASE 1, one pass of [while row < complete_rows]. *)
Definition full_course (fuel : nat) (polygon : geom) (keepout : option geom)
  (minx maxx : Q) (block_widths : list Z) (block_height : Z) (row_offset : option Z)
  (st : wall_state) (row : Z) : outcome wall_state :=
  let y := w_y st in
  let stripe_top := y + inject_Z block_height in
  let stripe := box minx y maxx stripe_top in
  let inter := subtract_keepout (intersection polygon stripe) keepout in
  let comps := ensure_multipolygon inter in
  '(placed_all, custom_all) <-
    for_each (fun (acc : list Placed * list Custom) comp =>
      if is_empty comp || Qltb (area comp) AREA_EPS then Ret acc
      else
        offset <- row_offset_of row row_offset block_widths ;;
        '(placed_row, custom_row) <-
          _pack_segment_with_order fuel comp y stripe_top
                                   (sorted_reverse block_widths) offset ;;
        Ret (fst acc ++ placed_row, snd acc ++ custom_row))
      comps (placed_all st, custom_all st) ;;
  Ret (mkWall (inject_Z (snap (y + inject_Z block_height))) placed_all custom_all
              (stdout st ++ [Processando_riga row y stripe_top])).

(** FASE 2, the adaptive course. *)
Definition adaptive_course (fuel : nat) (polygon : geom) (keepout : option geom)
  (minx maxx : Q) (block_widths : list Z) (block_height : Z) (row_offset : option Z)
  (remaining_space : Q) (row : Z) (st : wall_state) : outcome wall_state :=
  if Qle_bool 150 remaining_space then
    let adaptive_height := Qmin remaining_space (inject_Z block_height) in
    let y := w_y st in
    let stripe_top := y + adaptive_height in
    let stripe := box minx y maxx stripe_top in
    let inter := subtract_keepout (intersection polygon stripe) keepout in
    let comps := ensure_multipolygon inter in
    '(placed_all, custom_all) <-
      for_each (fun (acc : list Placed * list Custom) comp =>
        if is_empty comp || Qltb (area comp) AREA_EPS then Ret acc
        else
          offset <- row_offset_of row row_offset block_widths ;;
          '(placed_row, custom_row) <-
            _pack_segment_with_order_adaptive fuel comp y stripe_top
              (sorted_reverse block_widths) adaptive_height offset ;;
          Ret (fst acc ++ placed_row, snd acc ++ custom_row))
        comps (placed_all st, custom_all st) ;;
    Ret (mkWall y placed_all custom_all (stdout st ++ [Riga_adattiva row adaptive_height]))
  else
    Ret (mkWall (w_y st) (placed_all st) (custom_all st)
                (stdout st ++ [Spazio_insufficiente remaining_space])).

Definition validate_and_tag_customs (custom : list Custom) : outcome (list Custom) :=
  max_standard_width <- py_max BLOCK_WIDTHS ;;
  Ret (map (fun c =>
    let w := int_round (c_width c) in
    let h := int_round (c_height c) in
    if ((max_standard_width + SCARTO_CUSTOM_MM <=? w) || (495 + SCARTO_CUSTOM_MM <? h))%Z
    then set_ctype c out_of_spec
    else if ((Z.abs (h - 495) <=? SCARTO_CUSTOM_MM)
             && (w <=? max_standard_width + SCARTO_CUSTOM_MM))%Z
    then set_ctype c ctype_1
    else set_ctype c ctype_2) custom).

(** [pack_wall], together with the course lines it prints.  [apertures=None]
    is the empty list. *)
Definition pack_wall_stdout (fuel : nat) (polygon : geom) (block_widths : list Z)
  (block_height : Z) (row_offset : option Z) (apertures : list geom)
  : outcome (list Placed * list Custom * list course_line) :=
  polygon <- sanitize_polygon polygon ;;
  let hole_polys := polygon_holes polygon in
  let ap_list := apertures in
  let wall_area := area polygon in
  valid_apertures <- filter_apertures wall_area ap_list ;;
  let keepout := build_keepout hole_polys valid_apertures in
  let '(minx, miny, maxx, maxy) := bounds polygon in
  let total_height := maxy - miny in
  q <- py_div total_height (inject_Z block_height) ;;
  let complete_rows := py_int q in
  let remaining_space := total_height - inject_Z complete_rows * inject_Z block_height in
  st <- for_each (full_course fuel polygon keepout minx maxx block_widths block_height
                              row_offset)
                 (range complete_rows) (mkWall miny [] [] []) ;;
  st <- adaptive_course fuel polygon keepout minx maxx block_widths block_height
                        row_offset remaining_space (Z.max 0 complete_rows) st ;;
  custom_all <- merge_customs_row_aware (fun g => _mk_custom g []) (custom_all st)
                                        SCARTO_CUSTOM_MM BLOCK_HEIGHT ;;
  custom_all <- split_out_of_spec (fun g => _mk_custom g []) fuel custom_all
                                  SPLIT_MAX_WIDTH_MM 495 ;;
  custom_all <- validate_and_tag_customs custom_all ;;
  Ret (placed_all st, custom_all, stdout st).

Definition pack_wall (fuel : nat) (polygon : geom) (block_widths : list Z)
  (block_height : Z) (row_offset : option Z) (apertures : list geom)
  : outcome (list Placed * list Custom) :=
  r <- pack_wall_stdout fuel polygon block_widths block_height row_offset apertures ;;
  Ret (fst (fst r), snd (fst r)).

(** *** Helpers of core/wall_builder.py besides the packer *)

(** [simulate_future_placement].  The state of its loop is
    [(remaining, placed_blocks)]; [if best_fit:] is false for [None] and for
    a width 0.  The sums, the differences and the comparisons are exact
    here.  They are the code's where doubles are exact, that is on
    integer-valued arguments of a magnitude of at most 2^52; with a
    fractional tolerance a sum of the code may round ([3 + 1e-17] is [3.0]),
    and the properties of this function are stated for integer-valued
    arguments. *)
Record simulation : Type := mkSimulation {
  total_waste : Q;
  blocks_count : nat;
  efficiency : Q;
  blocks_sequence : list Z;
  final_remainder : Q
}.

Definition simulate_body (widths_order : list Z) (tolerance : Q) (st : Q * list Z)
  : outcome (Q * list Z + Q * list Z) :=
  let '(remaining, placed_blocks) := st in
  m <- py_min widths_order ;;
  if Qle_bool (inject_Z m + tolerance) remaining then
    match find (fun width => Qle_bool (inject_Z width + tolerance) remaining)
               (sorted_reverse widths_order) with
    | Some best_fit =>
        if (best_fit =? 0)%Z then Ret (inr st)
        else Ret (inl (remaining - inject_Z best_fit, placed_blocks ++ [best_fit]))
    | None => Ret (inr st)
    end
  else Ret (inr st).

Definition simulate_future_placement (fuel : nat) (total_space : Q) (first_block : Z)
  (widths_order : list Z) (tolerance : Q) : outcome simulation :=
  '(remaining, placed_blocks) <-
    while_loop fuel (simulate_body widths_order tolerance)
               (total_space - inject_Z first_block, [first_block]) ;;
  let total_waste := remaining in
  e <- py_div (total_space - total_waste) total_space ;;
  Ret (mkSimulation total_waste (length placed_blocks) (e * 100) placed_blocks remaining).

(** [isinstance(g, Polygon)] *)
Definition is_polygon (g : geom) : bool :=
  match kind g with
  | Polygon => true
  | _ => false
  end.

(** [_split_component_into_horizontal_segments]: the state of its loop is
    [(current_x, segments)]; the stripes are [min_width * 2 = 826] wide. *)
Definition split_segments_body (component : geom) (y stripe_top maxx : Q)
  (st : Q * list geom) : outcome (Q * list geom + list geom) :=
  let '(current_x, segments) := st in
  if Qltb current_x maxx then
    let next_x := Qmin (current_x + inject_Z (413 * 2)) maxx in
    let test_rect := box current_x y next_x stripe_top in
    let inter := intersection component test_rect in
    let segments :=
      if negb (is_empty inter) && Qltb AREA_EPS (area inter) then
        if is_polygon inter then segments ++ [inter]
        else segments
             ++ filter (fun g => is_polygon g && Qltb AREA_EPS (area g)) (geoms inter)
      else segments in
    Ret (inl (next_x, segments))
  else Ret (inr segments).

Definition _split_component_into_horizontal_segments (fuel : nat) (component : geom)
  (y stripe_top : Q) : outcome (list geom) :=
  let '(minx, _, maxx, _) := bounds component in
  while_loop fuel (split_segments_body component y stripe_top maxx) (minx, []).

(** [_pack_segment]: always the greedy order, largest width first. *)
Definition _pack_segment (fuel : nat) (comp : geom) (y stripe_top : Q) (widths : list Z)
  (offset : Z) : outcome (list Placed * list Custom) :=
  let greedy_order := sorted_reverse widths in
  _pack_segment_with_order fuel comp y stripe_top greedy_order offset.

(** [opt_pass]: the hook does nothing. *)
Definition opt_pass (placed : list Placed) (custom : list Custom) (block_widths : list Z)
  : list Placed * list Custom :=
  (placed, custom).

End WithShapely.
End WallBuilder.

(** ** An executable geometry for rectilinear regions

    A region is a finite union of axis-parallel rectangles.  On such regions
    the operations below give the area, the bounds, the emptiness and the
    connected parts that Shapely gives; a region whose rectangles overlap
    stands for a polygon that runs over itself, which Shapely reports as
    invalid and which [buffer(0)] dissolves.  Two things are outside this
    geometry: the bounds of an empty geometry (NaN in Shapely, zeros here)
    and a buffer by a positive distance (Shapely rounds the corners, they
    stay square here). *)

Module Rect.

Record Box : Type := mkBox { x0 : Q; y0 : Q; x1 : Q; y1 : Q }.

Definition region : Type := list Box.

Definition make (a b c d : Q) : region :=
  if Qltb a c && Qltb b d then [mkBox a b c d] else [].

Definition r_box (a b c d : Q) : region :=
  make (Qmin a c) (Qmin b d) (Qmax a c) (Qmax b d).

Definition inter_box (a b : Box) : region :=
  make (Qmax (x0 a) (x0 b)) (Qmax (y0 a) (y0 b)) (Qmin (x1 a) (x1 b)) (Qmin (y1 a) (y1 b)).

(** [a] without [b]: the parts left, right, below and above the overlap. *)
Definition diff_box (a b : Box) : region :=
  match inter_box a b with
  | [] => [a]
  | i :: _ =>
      make (x0 a) (y0 a) (x0 i) (y1 a) ++ make (x1 i) (y0 a) (x1 a) (y1 a)
      ++ make (x0 i) (y0 a) (x1 i) (y0 i) ++ make (x0 i) (y1 i) (x1 i) (y1 a)
  end.

Definition r_intersection (g h : region) : region :=
  flat_map (fun a => flat_map (inter_box a) h) g.

Definition r_difference (g h : region) : region :=
  fold_left (fun acc b => flat_map (fun a => diff_box a b) acc) h g.

Definition dissolve (g : region) : region :=
  fold_left (fun acc b => acc ++ r_difference [b] acc) g [].

Fixpoint disjoint (g : region) : bool :=
  match g with
  | [] => true
  | b :: r => forallb (fun a => match inter_box a b with [] => true | _ => false end) r
              && disjoint r
  end.

Definition r_area (g : region) : Q :=
  fold_left (fun s b => s + (x1 b - x0 b) * (y1 b - y0 b)) g 0.

Definition r_bounds (g : region) : Q * Q * Q * Q :=
  match g with
  | [] => (0, 0, 0, 0)
  | b :: r =>
      fold_left (fun (m : Q * Q * Q * Q) a =>
                   let '(mx0, my0, mx1, my1) := m in
                   (Qmin mx0 (x0 a), Qmin my0 (y0 a), Qmax mx1 (x1 a), Qmax my1 (y1 a)))
                r (x0 b, y0 b, x1 b, y1 b)
  end.

Definition grow (d : Q) (b : Box) : region :=
  make (x0 b - d) (y0 b - d) (x1 b + d) (y1 b + d).

Definition r_buffer (g : region) (d : Q) : region :=
  if Qeq_bool d 0 then dissolve g else dissolve (flat_map (grow d) g).

(** Two rectangles of one connected part: they overlap or share a piece of
    an edge. *)
Definition touches (a b : Box) : bool :=
  ((Qeq_bool (x1 a) (x0 b) || Qeq_bool (x1 b) (x0 a))
   && Qltb (Qmax (y0 a) (y0 b)) (Qmin (y1 a) (y1 b)))
  || ((Qeq_bool (y1 a) (y0 b) || Qeq_bool (y1 b) (y0 a))
      && Qltb (Qmax (x0 a) (x0 b)) (Qmin (x1 a) (x1 b)))
  || match inter_box a b with [] => false | _ => true end.

Definition add_to_parts (parts : list region) (b : Box) : list region :=
  let '(joined, apart) := partition (existsb (touches b)) parts in
  apart ++ [concat joined ++ [b]].

Definition parts (g : region) : list region := fold_left add_to_parts g [].

Definition r_kind (g : region) : geom_kind :=
  match parts g with
  | [] | [_] => Polygon
  | _ => MultiPolygon
  end.

Definition r_contains (g h : region) : bool :=
  match h with
  | [] => false
  | _ => match r_difference h g with [] => true | _ => false end
  end.

Definition on_frame (frame : Q * Q * Q * Q) (b : Box) : bool :=
  let '(fx0, fy0, fx1, fy1) := frame in
  Qeq_bool (x0 b) fx0 || Qeq_bool (y0 b) fy0 || Qeq_bool (x1 b) fx1 || Qeq_bool (y1 b) fy1.

(** The holes: the parts of (bounding box minus region) that stay clear of
    the bounding box's frame. *)
Definition r_interiors (g : region) : list region :=
  let '(fx0, fy0, fx1, fy1) := r_bounds g in
  filter (fun part => negb (existsb (on_frame (fx0, fy0, fx1, fy1)) part))
         (parts (r_difference (make fx0 fy0 fx1 fy1) g)).

Definition kernel : Shapely := {|
  geom := region;
  ring := region;
  is_valid := disjoint;
  is_empty := fun g => match g with [] => true | _ => false end;
  area := r_area;
  bounds := r_bounds;
  box := r_box;
  intersection := r_intersection;
  difference := r_difference;
  unary_union := fun gs => dissolve (concat gs);
  buffer := r_buffer;
  contains := r_contains;
  kind := r_kind;
  geoms := parts;
  interiors := r_interiors;
  ring_coords := fun _ => 5%nat;   (* a closed rectilinear ring has five or more *)
  Polygon_of_ring := fun r => r
|}.

(** The same geometry with a zero-width buffer that repairs nothing. *)
Definition kernel_no_repair : Shapely := {|
  geom := region;
  ring := region;
  is_valid := disjoint;
  is_empty := fun g => match g with [] => true | _ => false end;
  area := r_area;
  bounds := r_bounds;
  box := r_box;
  intersection := r_intersection;
  difference := r_difference;
  unary_union := fun gs => dissolve (concat gs);
  buffer := fun g _ => g;
  contains := r_contains;
  kind := r_kind;
  geoms := parts;
  interiors := r_interiors;
  ring_coords := fun _ => 5%nat;
  Polygon_of_ring := fun r => r
|}.

End Rect.

(** ** Walls on which the code is run *)

Module Examples.

Definition piece (w h x y : Z) (g : Rect.region) (source : option Z) (t : ctype_tag)
  : @Custom Rect.kernel :=
  mkCustom w h x y (g : @geom Rect.kernel) source
           (match source with Some _ => Some 0%Z | None => None end) (Some t).

(** 423 x 495: one small block and 10 left over. *)
Definition wall_423 : Rect.region := Rect.r_box 0 0 423 495.

Definition residual_423 : @Custom Rect.kernel :=
  piece 10 495 413 0 [Rect.mkBox 413 0 423 495] None ctype_1.

(** 1000 x 700: one full course and 205 left over. *)
Definition wall_1000x700 : Rect.region := Rect.r_box 0 0 1000 700.

Definition strip_1000x700 (x0 x1 : Z) : @Custom Rect.kernel :=
  piece (x1 - x0) 205 x0 495 [Rect.mkBox (inject_Z x0) 495 (inject_Z x1) 700]
        (Some (x1 - x0)%Z) ctype_2.

Definition customs_1000x700 : list (@Custom Rect.kernel) :=
  [piece 174 495 826 0 [Rect.mkBox 826 0 1000 495] (Some 174%Z) ctype_1;
   strip_1000x700 0 413; strip_1000x700 413 826; strip_1000x700 826 1000].

(** 418 x 495 with a notch of 10 x 5 cut out of its top left corner. *)
Definition wall_notched : Rect.region :=
  [Rect.mkBox 0 0 418 490; Rect.mkBox 10 490 418 495].

End Examples.

(** * Vocabulary of the properties *)

Section Vocabulary.
Context {K : Shapely}.

(** The numeric fields of a custom piece are those of the bounding box of
    its stored geometry. *)
Definition bbox_consistent (c : Custom) : Prop :=
  let '(minx, miny, maxx, maxy) := bounds (c_geometry c) in
  c_x c = snap minx /\ c_y c = snap miny
  /\ c_width c = snap (maxx - minx) /\ c_height c = snap (maxy - miny).

(** What the split asks of the geometry library: a non-empty piece cut out
    by a strip is no wider than the strip. *)
Definition strips_stay_in_strip : Prop :=
  forall (poly : geom) (sx0 sy0 sx1 sy1 : Q) (g : geom),
    sx0 <= sx1 ->
    is_empty (buffer (intersection poly (box sx0 sy0 sx1 sy1)) 0) = false ->
    sanitize_polygon (buffer (intersection poly (box sx0 sy0 sx1 sy1)) 0) = Ret g ->
    let '(minx, _, maxx, _) := bounds g in maxx - minx <= sx1 - sx0.


(** The area the output accounts for: the rectangles of the standard
    blocks and the geometries of the custom pieces. *)
Definition std_area (p : Placed) : Q := inject_Z (p_width p) * inject_Z (p_height p).

Definition covered_area (placed : list Placed) (customs : list Custom) : Q :=
  fold_right (fun p s => std_area p + s) 0 placed
  + fold_right (fun c s => area (c_geometry c) + s) 0 customs.

(** The coverage bound for a region of area [free_area] to fill. *)
Definition coverage (free_area : Q) (placed : list Placed) (customs : list Custom) : Prop :=
  free_area - covered_area placed customs
  <= AREA_EPS * inject_Z (Z.of_nat (length placed + length customs)).

(** The area of the component within the strip [a, b] of a course. *)
Definition strip_area (comp : geom) (y stripe_top : Z) (a b : Q) : Q :=
  area (intersection (box a (inject_Z y) b (inject_Z stripe_top)) comp).

(** What the coverage of a segment asks of the geometry library, for one
    component and one course: the area of the component within a strip adds
    up over adjacent strips, is at most the area of the strip and at least
    zero; an empty
    intersection has a negligible area; and an intersection is a valid
    geometry. *)
Record measures_strips (comp : geom) (y stripe_top : Z) : Prop := {
  strips_add : forall a b c, a <= b -> b <= c ->
    strip_area comp y stripe_top a c
    == strip_area comp y stripe_top a b + strip_area comp y stripe_top b c;
  strips_box : forall a b, a <= b ->
    strip_area comp y stripe_top a b
    <= (b - a) * (inject_Z stripe_top - inject_Z y);
  strips_pos : forall a b, 0 <= strip_area comp y stripe_top a b;
  strips_empty : forall a b,
    is_empty (intersection (box a (inject_Z y) b (inject_Z stripe_top)) comp) = true ->
    strip_area comp y stripe_top a b < AREA_EPS;
  strips_valid : forall a b,
    is_valid (intersection (box a (inject_Z y) b (inject_Z stripe_top)) comp) = true
}.

(** The area a piece accounts for. *)
Definition piece_area (pc : WallBuilder.piece) : Q :=
  match pc with
  | WallBuilder.std_piece p => std_area p
  | WallBuilder.custom_piece c => area (c_geometry c)
  end.




(** A width the loop of core/wall_builder.py passes over at the cursor: too
    wide for the space left, or with a negligible intersection. *)
Definition passed_over (comp : geom) (y stripe_top cursor : Z) (widths_order : list Z)
  (spazio_rimanente : Q) (w : Z) : Prop :=
  Qle_bool (inject_Z w) (spazio_rimanente + COORD_EPS) = false
  \/ WallBuilder.candidate_piece comp y stripe_top cursor w widths_order = Ret None.

End Vocabulary.

(** [extends o1 o2]: [o2] is what [o1] becomes with more fuel. *)
Definition extends {A : Type} (o1 o2 : outcome A) : Prop := o1 = OutOfFuel \/ o1 = o2.

(** A rectilinear region lies within the vertical band [a, b]. *)
Definition xin (a b : Q) (g : Rect.region) : Prop :=
  Forall (fun bx => a <= Rect.x0 bx /\ Rect.x1 bx <= b) g.

(** The overlap of two intervals, zero when they do not meet. *)
Definition overlap (a b lo hi : Q) : Q := Qmax 0 (Qmin b hi - Qmax a lo).


(** The sum of a list of widths. *)
Definition sum_widths (l : list Z) : Z := fold_right Z.add 0%Z l.

(** A block ends where, or before, another starts. *)
Definition ends_before (p q : Placed) : Prop := (p_x p + p_width p <= p_x q)%Z.

(** Blocks laid from left to right: each one ends before all the later ones
    start. *)
Definition left_to_right (placed : list Placed) : Prop := StronglySorted ends_before placed.

(** What holds of a standard block of a segment while the cursor moves on:
    it lies between the left edge of the segment and the cursor, within the
    segment, on the course line, with the standard height and one of the
    widths, or the offset, as its width. *)
Definition block_in_segment (y : Z) (widths_order : list Z) (seg_minx seg_maxx offset : Z)
  (cursor : Z) (p : Placed) : Prop :=
  (seg_minx <= p_x p)%Z /\ (p_x p + p_width p <= cursor)%Z
  /\ (p_x p + p_width p <= seg_maxx)%Z /\ (0 < p_width p)%Z
  /\ p_y p = y /\ p_height p = BLOCK_HEIGHT
  /\ p_type p = std_type (p_width p) BLOCK_HEIGHT
  /\ (In (p_width p) widths_order \/ p_width p = offset).

(** The state [(cursor, placed, custom)] of a segment loop whose standard
    blocks lie side by side up to the cursor. *)
Definition segment_laid {K : Shapely} (y : Z) (widths_order : list Z)
  (seg_minx seg_maxx offset : Z) (st : Z * list Placed * list Custom) : Prop :=
  (seg_minx <= fst (fst st))%Z /\ left_to_right (snd (fst st))
  /\ Forall (block_in_segment y widths_order seg_minx seg_maxx offset (fst (fst st)))
            (snd (fst st)).

(** A call with fuel [settles] when some amount of fuel lets it return or
    raise; it is [monotone] when more fuel never changes an answer. *)
Definition settles {A : Type} (run : nat -> outcome A) : Prop :=
  exists fuel, run fuel <> OutOfFuel.

Definition monotone {A : Type} (run : nat -> outcome A) : Prop :=
  forall f1 f2, (f1 <= f2)%nat -> extends (run f1) (run f2).

(** The row a custom piece belongs to in [merge_customs_row_aware]:
    [int(round(snap(c["y"]) / row_height))]. *)
Definition row_id_of {K : Shapely} (row_height : Z) (c : Custom) : Z :=
  py_round (inject_Z (c_y c) / inject_Z row_height).

(** The polygons of the pieces of one row, repaired, in the order of the list. *)
Definition row_polys {K : Shapely} (row_height : Z) (customs : list Custom) (rid : Z)
  : list geom :=
  map (fun c => buffer (c_geometry c) 0)
      (filter (fun c => (row_id_of row_height c =? rid)%Z) customs).

(** The polygons of a union: itself, or its parts. *)
Definition parts_of {K : Shapely} (merged : geom) : list geom :=
  match kind merged with
  | Polygon => [merged]
  | _ => geoms merged
  end.

(** The dict [rows] of [merge_customs_row_aware] after the pieces of
    [customs]: one key for every row that has a piece, with the polygons of
    that row. *)
Definition grouped_by_row {K : Shapely} (row_height : Z) (customs : list Custom)
  (rows : list (Z * list geom)) : Prop :=
  NoDup (map fst rows)
  /\ (forall c, In c customs -> In (row_id_of row_height c) (map fst rows))
  /\ (forall rid polys, In (rid, polys) rows -> polys = row_polys row_height customs rid).

(** How many of the first [n] elements of [l] have the key [k]. *)
Definition rank_of {A X : Type} (eqb : X -> X -> bool) (key : A -> X) (k : X) (n : nat)
  (l : list A) : Z :=
  Z.of_nat (length (filter (fun b => eqb k (key b)) (firstn n l))).

(** The shape the two label loops of [create_block_labels] share: each
    element gets its key and the count of that key so far. *)
Fixpoint number_by {A X : Type} (eqb : X -> X -> bool) (key : A -> X) (counters : X -> Z)
  (l : list A) : list (X * Z) :=
  match l with
  | [] => []
  | a :: r =>
      let counters := Main.bump eqb counters (key a) in
      (key a, counters (key a)) :: number_by eqb key counters r
  end.

(** A standard width is close to a piece of [w] x [h]: both the width and
    the height are within SCARTO_CUSTOM_MM. *)
Definition close_standard (w h std_width : Z) : Prop :=
  (Z.abs (w - std_width) <= SCARTO_CUSTOM_MM)%Z
  /\ (Z.abs (h - BLOCK_HEIGHT) <= SCARTO_CUSTOM_MM)%Z.

(** A piece that [_replace_customs_with_standards] turns into a block. *)
Definition replaceable {K : Shapely} (block_widths : list Z) (c : Custom) : bool :=
  match Main.closest_standard (c_width c) (c_height c) block_widths with
  | Some best_match => negb (best_match =? 0)%Z
  | None => false
  end.

(** The block that replaces it. *)
Definition replacement {K : Shapely} (block_widths : list Z) (c : Custom) : list Placed :=
  match Main.closest_standard (c_width c) (c_height c) block_widths with
  | Some best_match =>
      if (best_match =? 0)%Z then []
      else [_mk_std (inject_Z (c_x c)) (inject_Z (c_y c)) best_match BLOCK_HEIGHT]
  | None => []
  end.

(** Neighbours in a row of the cutting layout differ by at most 50 in height. *)
Fixpoint height_chain (heights : list Z) (row : list nat) : Prop :=
  match row with
  | i :: ((j :: _) as rest) =>
      (Z.abs (nth j heights 0 - nth i heights 0) <= 50)%Z /\ height_chain heights rest
  | _ => True
  end.

(** The state [(rows, current_row, current_row_height)] of the grouping loop
    after the indices [seen]. *)
Definition rows_so_far (heights : list Z) (seen : list nat)
  (st : list (list nat) * list nat * option Z) : Prop :=
  let '(rows, current_row, current_row_height) := st in
  concat rows ++ current_row = seen
  /\ Forall (fun r => r <> []) rows
  /\ Forall (height_chain heights) rows
  /\ height_chain heights current_row
  /\ match current_row_height with
     | None => current_row = []
     | Some h => exists pre last, current_row = pre ++ [last] /\ nth last heights 0%Z = h
     end.

(** ** The layout manager of the DXF export (main.py)

    [DXFLayoutManager] keeps a dict of zones by name and the bounds of all
    the zones it was given.  A zone hangs from its top-left corner: it
    spans [x, x + width] and [y - height, y]. *)

Module Layout.

(** The [anchor] strings that [add_zone] knows, and any other string. *)
Inductive anchor : Type :=
| topleft | right_of | below | below_right | bottom | other_anchor.

Record zone : Type := mkZone {
  z_name : String.string;
  z_x : Q;
  z_y : Q;
  z_width : Q;
  z_height : Q;
  z_anchor : anchor;
  z_ref_zone : option String.string
}.

Record manager : Type := mkManager {
  zones : list (String.string * zone);
  base_width : Q;
  base_height : Q;
  total_bounds : Q * Q * Q * Q      (* minx, miny, maxx, maxy *)
}.

(** [DXFLayoutManager(base_width, base_height)] *)
Definition init (base_width base_height : Q) : manager :=
  mkManager [] base_width base_height (0, 0, 0, 0).

(** [self.zones.get(name)] and [self.zones[name] = zone]. *)
Fixpoint lookup (name : String.string) (zs : list (String.string * zone)) : option zone :=
  match zs with
  | [] => None
  | (n, z) :: rest => if String.eqb n name then Some z else lookup name rest
  end.

Fixpoint store (name : String.string) (z : zone) (zs : list (String.string * zone))
  : list (String.string * zone) :=
  match zs with
  | [] => [(name, z)]
  | (n, z0) :: rest =>
      if String.eqb n name then (n, z) :: rest else (n, z0) :: store name z rest
  end.

(** [min(...)] of floats. *)
Definition py_min_Q (l : list Q) : outcome Q :=
  match l with
  | [] => Raise EmptySequence
  | a :: r => Ret (fold_left Qmin r a)
  end.

(** The position [(x, y)] that [add_zone] works out. *)
Definition position (m : manager) (width height : Q) (anchor_ : anchor)
  (ref_zone : option String.string) (margin : Q) : outcome (Q * Q) :=
  let ref := match ref_zone with
             | Some r => lookup r (zones m)
             | None => None
             end in
  match anchor_, ref_zone, ref with
  | topleft, _, _ => Ret (0, 0)
  | _, None, _ => Ret (0, 0)
  | right_of, Some _, Some ref => Ret (z_x ref + z_width ref + margin, z_y ref)
  | below, Some _, Some ref => Ret (z_x ref, z_y ref - height - margin)
  | below_right, Some _, Some ref =>
      Ret (z_x ref + z_width ref - width, z_y ref - height - margin)
  | bottom, Some _, _ =>
      lowest <- py_min_Q (map (fun nz => z_y (snd nz) - z_height (snd nz)) (zones m)) ;;
      Ret (0, lowest - margin - height)
  | _, _, _ => Ret (0, 0)
  end.

Definition _update_total_bounds (total : Q * Q * Q * Q) (z : zone) : Q * Q * Q * Q :=
  let '(tminx, tminy, tmaxx, tmaxy) := total in
  let minx := Qmin tminx (z_x z) in
  let miny := Qmin tminy (z_y z - z_height z) in
  let maxx := Qmax tmaxx (z_x z + z_width z) in
  let maxy := Qmax tmaxy (z_y z) in
  (minx, miny, maxx, maxy).

(** [add_zone]: the manager after the call and the zone it returns. *)
Definition add_zone (m : manager) (name : String.string) (width height : Q)
  (anchor_ : anchor) (ref_zone : option String.string) (margin : Q)
  : outcome (manager * zone) :=
  '(x, y) <- position m width height anchor_ ref_zone margin ;;
  let z := mkZone name x y width height anchor_ ref_zone in
  Ret (mkManager (store name z (zones m)) (base_width m) (base_height m)
                 (_update_total_bounds (total_bounds m) z),
       z).

Definition get_total_width (m : manager) : Q :=
  let '(minx, _, maxx, _) := total_bounds m in maxx - minx.

Definition get_total_height (m : manager) : Q :=
  let '(_, miny, _, maxy) := total_bounds m in maxy - miny.

(** The five zones of [export_to_dxf], for a wall of [wall_width] x
    [wall_height] and the heights of the cutting schema and of the tables. *)
Definition export_zones (wall_width wall_height cutting_height tables_height : Q)
  : outcome (manager * (zone * zone * zone * zone * zone)) :=
  let layout := init wall_width wall_height in
  '(layout, main_zone) <- add_zone layout "main"%string wall_width wall_height topleft None 500 ;;
  let cutting_width := Qmax (wall_width * (8 # 10)) 3000 in
  '(layout, cutting_zone) <-
    add_zone layout "cutting"%string cutting_width cutting_height right_of (Some "main"%string)
             1500 ;;
  let tables_width := wall_width in
  '(layout, tables_zone) <-
    add_zone layout "tables"%string tables_width tables_height below (Some "main"%string) 1200 ;;
  let cartridge_width := 2500 in
  let cartridge_height := 1500 in
  '(layout, cartridge_zone) <-
    add_zone layout "cartridge"%string cartridge_width cartridge_height below_right
             (Some "tables"%string) 800 ;;
  let legend_width := get_total_width layout in
  let legend_height := 1000 in
  '(layout, legend_zone) <-
    add_zone layout "legend"%string legend_width legend_height bottom (Some "tables"%string)
             1000 ;;
  Ret (layout, (main_zone, cutting_zone, tables_zone, cartridge_zone, legend_zone)).

End Layout.

(** A zone lies within bounds [(minx, miny, maxx, maxy)]. *)
Definition zone_within (total : Q * Q * Q * Q) (z : Layout.zone) : Prop :=
  let '(minx, miny, maxx, maxy) := total in
  minx <= Layout.z_x z /\ Layout.z_x z + Layout.z_width z <= maxx
  /\ miny <= Layout.z_y z - Layout.z_height z /\ Layout.z_y z <= maxy.

(** The invariant of the manager: the origin and every zone of the dict lie
    within the total bounds. *)
Definition bounds_hold (m : Layout.manager) : Prop :=
  let '(minx, miny, maxx, maxy) := Layout.total_bounds m in
  (minx <= 0 /\ 0 <= maxx /\ miny <= 0 /\ 0 <= maxy)
  /\ forall name z, Layout.lookup name (Layout.zones m) = Some z ->
       zone_within (Layout.total_bounds m) z.

(** Two zones share no point, or only border points. *)
Definition zones_apart (a b : Layout.zone) : Prop :=
  Layout.z_x a + Layout.z_width a <= Layout.z_x b
  \/ Layout.z_x b + Layout.z_width b <= Layout.z_x a
  \/ Layout.z_y a <= Layout.z_y b - Layout.z_height b
  \/ Layout.z_y b <= Layout.z_y a - Layout.z_height a.

(** The state [(cursor, placed, custom)] of the loop of main.py's
    [_try_fill]: the standard blocks lie side by side from [start] up to the
    cursor and within the right edge of the component. *)
Definition fill_laid {K : Shapely} (y : Z) (seg_maxx : Q) (widths : list Z) (start : Z)
  (st : Z * list Placed * list Custom) : Prop :=
  (start <= fst (fst st))%Z /\ left_to_right (snd (fst st))
  /\ Forall (fun p => (start <= p_x p)%Z /\ (p_x p + p_width p <= fst (fst st))%Z
                      /\ inject_Z (p_x p + p_width p) <= seg_maxx + COORD_EPS
                      /\ In (p_width p) widths /\ p_y p = y
                      /\ p_height p = BLOCK_HEIGHT
                      /\ p_type p = std_type (p_width p) BLOCK_HEIGHT) (snd (fst st)).

(** An adaptive block as the adaptive loop places it: at some [x] it tested
    a box of its width and of the effective height and found it contained
    in the component. *)
Definition adaptive_block_ok {K : Shapely} (comp : geom) (y maxx effective_height : Q)
  (widths_order : list Z) (p : Placed) : Prop :=
  exists x,
    x + inject_Z (p_width p) <= maxx
    /\ contains comp (box x y (x + inject_Z (p_width p)) (y + effective_height)) = true
    /\ p_x p = snap x /\ p_y p = snap y
    /\ In (p_width p) widths_order
    /\ p_height p = snap effective_height
    /\ p_type p = adaptive_block_type (p_width p).




(** ** What a wall is packed from

    The vocabulary of the statements about the courses of
    core/wall_builder.py: the regions a course is packed on and the lists a
    wall is put together from. *)

Section CourseVocabulary.
Context {K : Shapely}.









End CourseVocabulary.

(** ** The measure of a solution

    The claim about the trials of main.py compares solutions by the number
    of their custom pieces and then by the total area of these pieces. *)

Section TrialVocabulary.
Context {K : Shapely}.



End TrialVocabulary.

(** ** The candidate at the cursor

    The vocabulary of the statements about the standard-fit test of the two
    segment packers. *)

Section FitVocabulary.
Context {K : Shapely}.

(** The rectangle of a candidate of width [w] at the cursor. *)
Definition candidate_box (y stripe_top cursor w : Z) : geom :=
  box (inject_Z cursor) (inject_Z y) (inject_Z cursor + inject_Z w) (inject_Z stripe_top).

(** A width the loop over the widths passes over at the cursor: it does not
    fit between the cursor and the right edge of the segment, or its
    rectangle meets the component in nothing or in less than AREA_EPS. *)
Definition skipped_at (comp : geom) (y stripe_top cursor seg_maxx : Z) (w : Z) : Prop :=
  inject_Z seg_maxx + COORD_EPS < inject_Z cursor + inject_Z w
  \/ is_empty (intersection (candidate_box y stripe_top cursor w) comp) = true
  \/ area (intersection (candidate_box y stripe_top cursor w) comp) < AREA_EPS.

End FitVocabulary.

(** * Properties *)

Unset Implicit Arguments.

(** ** Numbers *)

Lemma Qltb_lt (a b : Q) : Qltb a b = true <-> a < b.
Proof.
  unfold Qltb. rewrite negb_true_iff, <- not_true_iff_false, Qle_bool_iff.
  split; [apply Qnot_le_lt | apply Qlt_not_le].
Qed.

Lemma Qltb_ge (a b : Q) : Qltb a b = false <-> b <= a.
Proof.
  unfold Qltb. rewrite negb_false_iff, Qle_bool_iff. tauto.
Qed.

Lemma Qle_bool_gt (a b : Q) : Qle_bool a b = false <-> b < a.
Proof.
  rewrite <- not_true_iff_false, Qle_bool_iff.
  split; [apply Qnot_le_lt | apply Qlt_not_le].
Qed.

#[export] Instance py_round_comp : Proper (Qeq ==> eq) py_round.
Proof.
  intros v w E. unfold py_round.
  rewrite (Qfloor_comp _ _ E).
  assert (E' : v - inject_Z (Qfloor w) == w - inject_Z (Qfloor w)) by (rewrite E; reflexivity).
  rewrite (Qcompare_comp _ _ E' (1 # 2) (1 # 2) (Qeq_refl _)). reflexivity.
Qed.

Lemma py_round_inject_Z (z : Z) : py_round (inject_Z z) = z.
Proof.
  unfold py_round. rewrite Qfloor_Z.
  assert (H : inject_Z z - inject_Z z < 1 # 2) by lra.
  rewrite Qlt_alt in H. rewrite H. reflexivity.
Qed.

Lemma snap_inject_Z (z : Z) : snap (inject_Z z) = z.
Proof. apply py_round_inject_Z. Qed.

Lemma snap_plus (a b : Z) : snap (inject_Z a + inject_Z b) = (a + b)%Z.
Proof.
  unfold snap. rewrite <- inject_Z_plus. apply py_round_inject_Z.
Qed.

Lemma int_round_id (z : Z) : int_round z = z.
Proof. apply py_round_inject_Z. Qed.

(** Rounding does not climb over an integer bound. *)
Lemma py_round_le (v : Q) (n : Z) : v <= inject_Z n -> (py_round v <= n)%Z.
Proof.
  intros H. unfold py_round.
  assert (Hf : (Qfloor v <= n)%Z).
  { rewrite <- (Qfloor_Z n). apply Qfloor_resp_le, H. }
  destruct (Qcompare (v - inject_Z (Qfloor v)) (1 # 2)) eqn:C.
  - destruct (Z.even (Qfloor v)); [lia |].
    destruct (Z.eq_dec (Qfloor v) n) as [E | NE]; [| lia].
    exfalso. apply Qeq_alt in C. rewrite E in C. lra.
  - lia.
  - destruct (Z.eq_dec (Qfloor v) n) as [E | NE]; [| lia].
    exfalso. apply Qgt_alt in C. rewrite E in C. lra.
Qed.

(** ** Outcomes and loops *)

Lemma py_div_Ret (a b : Q) : ~ b == 0 -> py_div a b = Ret (a / b).
Proof.
  intros H. unfold py_div. destruct (Qeq_bool b 0) eqn:E; [| reflexivity].
  apply Qeq_bool_iff in E. contradiction.
Qed.

Lemma bind_Ret {A B : Type} (m : outcome A) (k : A -> outcome B) (b : B) :
  bind m k = Ret b -> exists a, m = Ret a /\ k a = Ret b.
Proof.
  destruct m as [a | e |]; simpl; intros H; try discriminate. eauto.
Qed.

Lemma for_each_inv {A S : Type} (P : S -> Prop) (body : S -> A -> outcome S)
  (l : list A) (s r : S) :
  for_each body l s = Ret r ->
  P s ->
  (forall s a s', In a l -> P s -> body s a = Ret s' -> P s') ->
  P r.
Proof.
  revert s. induction l as [| a l IH]; simpl; intros s H Hs Hbody.
  - inversion H; subst; exact Hs.
  - apply bind_Ret in H. destruct H as (s' & H1 & H2).
    apply (IH s' H2); eauto.
Qed.

Arguments for_each_inv {A S} P {body l s r} _ _ _.

Lemma while_loop_inv {S R : Type} (P : S -> Prop) (Q : R -> Prop)
  (body : S -> outcome (S + R)) (fuel : nat) (s : S) (r : R) :
  while_loop fuel body s = Ret r ->
  P s ->
  (forall s s', P s -> body s = Ret (inl s') -> P s') ->
  (forall s r, P s -> body s = Ret (inr r) -> Q r) ->
  Q r.
Proof.
  revert s. induction fuel as [| n IH]; simpl; intros s H Hs Hstep Hexit.
  - discriminate.
  - destruct (body s) as [[s' | r'] | e |] eqn:E; try discriminate.
    + eauto.
    + inversion H; subst. eauto.
Qed.

Arguments while_loop_inv {S R} P Q {body fuel s r} _ _ _ _.


Lemma extends_refl {A : Type} (o : outcome A) : extends o o.
Proof. right; reflexivity. Qed.

Lemma extends_bind {A B : Type} (m1 m2 : outcome A) (k1 k2 : A -> outcome B) :
  extends m1 m2 -> (forall a, extends (k1 a) (k2 a)) -> extends (bind m1 k1) (bind m2 k2).
Proof.
  intros [-> | ->] Hk; [left; reflexivity |].
  destruct m2; simpl; [apply Hk | right; reflexivity | left; reflexivity].
Qed.

Lemma extends_for_each {A S : Type} (b1 b2 : S -> A -> outcome S) (l : list A) :
  (forall s a, extends (b1 s a) (b2 s a)) ->
  forall s, extends (for_each b1 l s) (for_each b2 l s).
Proof.
  intros Hb. induction l as [| a l IH]; simpl; intros s.
  - apply extends_refl.
  - apply extends_bind; auto.
Qed.

Lemma extends_while {S R : Type} (b1 b2 : S -> outcome (S + R)) :
  (forall s, extends (b1 s) (b2 s)) ->
  forall n1 n2 s, (n1 <= n2)%nat -> extends (while_loop n1 b1 s) (while_loop n2 b2 s).
Proof.
  intros Hb n1. induction n1 as [| n1 IH]; intros n2 s Hle.
  - left; reflexivity.
  - destruct n2 as [| n2]; [lia |]. simpl.
    destruct (Hb s) as [-> | ->]; [left; reflexivity |].
    destruct (b2 s) as [[s' | r] | e |].
    + apply IH; lia.
    + apply extends_refl.
    + apply extends_refl.
    + apply extends_refl.
Qed.

Lemma extends_Ret {A : Type} (o1 o2 : outcome A) (a : A) :
  extends o1 o2 -> o1 = Ret a -> o2 = Ret a.
Proof. intros [-> | ->]; [discriminate | auto]. Qed.

(** ** Bounding boxes of custom pieces *)

Section BoundingBoxes.
Context {K : Shapely}.

Lemma set_ctype_consistent (c : Custom) (t : ctype_tag) :
  bbox_consistent c -> bbox_consistent (set_ctype c t).
Proof. unfold bbox_consistent, set_ctype; simpl. auto. Qed.

Lemma Main_mk_custom_consistent (g : geom) (c : Custom) :
  Main._mk_custom g = Ret c -> bbox_consistent c.
Proof.
  unfold Main._mk_custom. intros H.
  apply bind_Ret in H. destruct H as (g' & _ & H).
  destruct (bounds g') as [[[minx miny] maxx] maxy] eqn:B.
  inversion H; subst; clear H.
  unfold bbox_consistent; simpl. rewrite B. auto.
Qed.

Lemma WallBuilder_mk_custom_consistent (g : geom) (ws : list Z) (c : Custom) :
  WallBuilder._mk_custom g ws = Ret c -> bbox_consistent c.
Proof.
  unfold WallBuilder._mk_custom. intros H.
  apply bind_Ret in H. destruct H as (g' & _ & H).
  destruct (bounds g') as [[[minx miny] maxx] maxy] eqn:B.
  apply bind_Ret in H. destruct H as (sbw & _ & H).
  inversion H; subst; clear H.
  unfold bbox_consistent; simpl. rewrite B. auto.
Qed.

Section Stages.
Variable mk : geom -> outcome Custom.
Hypothesis mk_consistent : forall g c, mk g = Ret c -> bbox_consistent c.

Lemma append_consistent (out : list Custom) (g : geom) (c : Custom) :
  Forall bbox_consistent out -> mk g = Ret c -> Forall bbox_consistent (out ++ [c]).
Proof.
  intros Hout Hc. apply Forall_app; split; [exact Hout |].
  constructor; [eapply mk_consistent; eassumption | constructor].
Qed.

Lemma merge_consistent (customs : list Custom) (tol row_height : Z) (out : list Custom) :
  merge_customs_row_aware mk customs tol row_height = Ret out ->
  Forall bbox_consistent out.
Proof.
  unfold merge_customs_row_aware. destruct customs as [| c0 cs].
  - intros H; inversion H; constructor.
  - intros H. apply bind_Ret in H. destruct H as (rows & _ & H).
    apply (for_each_inv (Forall bbox_consistent) H); [constructor |].
    intros s [rid polys] s' _ Hs. simpl. destruct polys as [| p ps].
    + intros E; inversion E; subst; exact Hs.
    + intros E.
      apply (for_each_inv (Forall bbox_consistent) E); [exact Hs |].
      intros s1 g s2 _ Hs1. destruct (Qltb AREA_EPS (area g)).
      * intros E'. apply bind_Ret in E'. destruct E' as (c & Hc & E').
        inversion E'; subst. eapply append_consistent; eassumption.
      * intros E'; inversion E'; subst; exact Hs1.
Qed.

Lemma split_consistent (fuel : nat) (customs : list Custom) (max_w max_h : Z)
  (out : list Custom) :
  Forall bbox_consistent customs ->
  split_out_of_spec mk fuel customs max_w max_h = Ret out ->
  Forall bbox_consistent out.
Proof.
  unfold split_out_of_spec. intros Hin H.
  apply (for_each_inv (Forall bbox_consistent) H); [constructor |].
  intros s c s' Hc Hs E.
  destruct ((int_round (c_width c) <=? max_w + SCARTO_CUSTOM_MM)
            && (int_round (c_height c) <=? max_h + SCARTO_CUSTOM_MM))%Z.
  - inversion E; subst. apply Forall_app; split; [exact Hs |].
    constructor; [| constructor].
    rewrite Forall_forall in Hin. apply Hin, Hc.
  - destruct (is_empty (buffer (c_geometry c) 0)
              || Qle_bool (area (buffer (c_geometry c) 0)) AREA_EPS).
    + inversion E; subst; exact Hs.
    + destruct (bounds (buffer (c_geometry c) 0)) as [[[minx miny] maxx] maxy].
      apply (while_loop_inv (fun st => Forall bbox_consistent (snd st))
                            (Forall bbox_consistent) E); [exact Hs | |].
      * intros [x0 o] [x0' o']. unfold split_body. simpl. intros Ho.
        destruct (Qltb x0 (maxx - COORD_EPS)); [| discriminate].
        match goal with |- context [if ?b then _ else _] => destruct b end.
        -- intros E'. apply bind_Ret in E'. destruct E' as (c' & Hc' & E').
           inversion E'; subst. eapply append_consistent; eassumption.
        -- intros E'; inversion E'; subst; exact Ho.
      * intros [x0 o] r. unfold split_body. simpl. intros Ho.
        destruct (Qltb x0 (maxx - COORD_EPS)).
        -- match goal with |- context [if ?b then _ else _] => destruct b end.
           ++ intros E'. apply bind_Ret in E'. destruct E' as (c' & _ & E'). discriminate.
           ++ discriminate.
        -- intros E'; inversion E'; subst; exact Ho.
Qed.

End Stages.
End BoundingBoxes.

Lemma map_set_ctype_consistent {K : Shapely} (tag : Custom -> ctype_tag) (l : list Custom) :
  Forall bbox_consistent l ->
  Forall bbox_consistent (map (fun c => set_ctype c (tag c)) l).
Proof.
  intros H. induction H; simpl; constructor; auto using set_ctype_consistent.
Qed.

Lemma Main_tag_consistent {K : Shapely} (l : list Custom) :
  Forall bbox_consistent l -> Forall bbox_consistent (Main.validate_and_tag_customs l).
Proof.
  intros H. unfold Main.validate_and_tag_customs.
  induction H as [| c l Hc Hl IH]; simpl; constructor; auto.
  repeat match goal with |- context [if ?b then _ else _] => destruct b end;
    apply set_ctype_consistent, Hc.
Qed.

Lemma WallBuilder_tag_consistent {K : Shapely} (l out : list Custom) :
  WallBuilder.validate_and_tag_customs l = Ret out ->
  Forall bbox_consistent l -> Forall bbox_consistent out.
Proof.
  unfold WallBuilder.validate_and_tag_customs. simpl. intros E H.
  inversion E; subst; clear E.
  induction H as [| c l Hc Hl IH]; simpl; constructor; auto.
  repeat match goal with |- context [if ?b then _ else _] => destruct b end;
    apply set_ctype_consistent, Hc.
Qed.

(** C10.  Every custom piece that [pack_wall] returns, in main.py and in
    core/wall_builder.py alike, carries the snapped bounding box of its own
    stored geometry: x and y are the snapped minimum corner, width and height
    the snapped extents.  Each stage that makes a piece goes through
    [_mk_custom], which computes the four numbers from the polygon it
    stores; the merge rebuilds every piece, the split rebuilds the pieces it
    cuts and passes the others through, and the tagging leaves the numbers
    alone. *)
Theorem custom_fields_match_geometry :
  forall (K : Shapely) (fuel : nat) (polygon : geom) (block_widths : list Z)
         (block_height : Z) (row_offset : option Z) (apertures : list geom)
         (placed : list Placed) (customs : list Custom),
    (forall g c, Main._mk_custom g = Ret c -> bbox_consistent c)
    /\ (forall g ws c, WallBuilder._mk_custom g ws = Ret c -> bbox_consistent c)
    /\ (Main.pack_wall fuel polygon block_widths block_height row_offset apertures
          = Ret (placed, customs) -> Forall bbox_consistent customs)
    /\ (WallBuilder.pack_wall fuel polygon block_widths block_height row_offset apertures
          = Ret (placed, customs) -> Forall bbox_consistent customs).
Proof.
  intros K fuel polygon bw bh ro aps placed customs.
  split; [exact Main_mk_custom_consistent |].
  split; [exact WallBuilder_mk_custom_consistent |].
  split.
  - unfold Main.pack_wall. intros H.
    apply bind_Ret in H. destruct H as (P & _ & H).
    destruct (bounds P) as [[[minx miny] maxx] maxy].
    apply bind_Ret in H. destruct H as ([pl cu] & _ & H).
    apply bind_Ret in H. destruct H as (merged & Hm & H).
    apply bind_Ret in H. destruct H as (cut & Hs & H).
    inversion H; subst; clear H.
    apply Main_tag_consistent.
    eapply split_consistent; [exact Main_mk_custom_consistent | | exact Hs].
    eapply merge_consistent; [exact Main_mk_custom_consistent | exact Hm].
  - unfold WallBuilder.pack_wall, WallBuilder.pack_wall_stdout. intros H.
    apply bind_Ret in H. destruct H as ([[pl cu] log] & H & E).
    inversion E; subst; clear E.
    apply bind_Ret in H. destruct H as (P & _ & H).
    apply bind_Ret in H. destruct H as (valid & _ & H).
    destruct (bounds P) as [[[minx miny] maxx] maxy].
    apply bind_Ret in H. destruct H as (q & _ & H).
    apply bind_Ret in H. destruct H as (st1 & _ & H).
    apply bind_Ret in H. destruct H as (st2 & _ & H).
    apply bind_Ret in H. destruct H as (merged & Hm & H).
    apply bind_Ret in H. destruct H as (cut & Hs & H).
    apply bind_Ret in H. destruct H as (tagged & Ht & H).
    inversion H; subst; clear H. simpl.
    assert (Hmk : forall g c, WallBuilder._mk_custom g [] = Ret c -> bbox_consistent c)
      by (intros g c; apply WallBuilder_mk_custom_consistent).
    apply (WallBuilder_tag_consistent _ _ Ht).
    eapply split_consistent; [exact Hmk | | exact Hs].
    eapply merge_consistent; [exact Hmk | exact Hm].
Qed.

Lemma custom_fields_match_geometry_witness :
  @Main.pack_wall Rect.kernel 10 Examples.wall_423 BLOCK_WIDTHS 495 (Some 826%Z) []
  = Ret ([_mk_std 0 0 413 495], [Examples.residual_423])
  /\ Forall (@bbox_consistent Rect.kernel) [Examples.residual_423].
Proof.
  assert (E : @Main.pack_wall Rect.kernel 10 Examples.wall_423 BLOCK_WIDTHS 495
                (Some 826%Z) [] = Ret ([_mk_std 0 0 413 495], [Examples.residual_423]))
    by reflexivity.
  split; [exact E |].
  exact (proj1 (proj2 (proj2
           (@custom_fields_match_geometry Rect.kernel 10 Examples.wall_423
              BLOCK_WIDTHS 495 (Some 826%Z) [] [_mk_std 0 0 413 495]
              [Examples.residual_423]))) E).
Defined.

(** ** Sanitizing and failures *)

(** C8.  [sanitize_polygon p] returns [p] itself when [p] is valid, the
    zero-width buffer of [p] when [p] is invalid and that buffer is valid, and
    raises the invalid-geometry error when the buffer is invalid too.
    [pack_wall] (either copy) starts by sanitizing the wall, so it raises the
    same error on such a wall; and a call that raises returns nothing: no
    list of placements comes back with the error. *)
Theorem sanitize_and_failure_atomicity :
  forall (K : Shapely) (p : geom),
    (is_valid p = true -> sanitize_polygon p = Ret p)
    /\ (is_valid p = false -> is_valid (buffer p 0) = true ->
        sanitize_polygon p = Ret (buffer p 0))
    /\ (is_valid p = false -> is_valid (buffer p 0) = false ->
        sanitize_polygon p = Raise InvalidGeometry
        /\ forall fuel block_widths block_height row_offset apertures,
             Main.pack_wall fuel p block_widths block_height row_offset apertures
             = Raise InvalidGeometry
             /\ WallBuilder.pack_wall fuel p block_widths block_height row_offset apertures
                = Raise InvalidGeometry)
    /\ (forall fuel block_widths block_height row_offset apertures e placed customs,
          (Main.pack_wall fuel p block_widths block_height row_offset apertures = Raise e ->
           Main.pack_wall fuel p block_widths block_height row_offset apertures
           <> Ret (placed, customs))
          /\ (WallBuilder.pack_wall fuel p block_widths block_height row_offset apertures
              = Raise e ->
              WallBuilder.pack_wall fuel p block_widths block_height row_offset apertures
              <> Ret (placed, customs))).
Proof.
  intros K p. split; [| split; [| split]].
  - unfold sanitize_polygon. intros ->. reflexivity.
  - unfold sanitize_polygon. intros -> ->. reflexivity.
  - intros Hp Hb.
    assert (S : sanitize_polygon p = Raise InvalidGeometry)
      by (unfold sanitize_polygon; rewrite Hp, Hb; reflexivity).
    split; [exact S |]. intros fuel bw bh ro aps. split.
    + unfold Main.pack_wall. rewrite S. reflexivity.
    + unfold WallBuilder.pack_wall, WallBuilder.pack_wall_stdout. rewrite S. reflexivity.
  - intros fuel bw bh ro aps e placed customs. split; intros E; rewrite E; discriminate.
Qed.

(** A wall that runs over itself: two overlapping rectangles. *)
Lemma sanitize_and_failure_atomicity_witness :
  let good := Rect.r_box 0 0 423 495 in
  let overlapping := [Rect.mkBox 0 0 10 10; Rect.mkBox 5 0 20 10] in
  @sanitize_polygon Rect.kernel good = Ret good
  /\ @sanitize_polygon Rect.kernel overlapping
     = Ret [Rect.mkBox 0 0 10 10; Rect.mkBox 10 0 20 10]
  /\ @sanitize_polygon Rect.kernel_no_repair overlapping = Raise InvalidGeometry
  /\ @Main.pack_wall Rect.kernel_no_repair 10 overlapping BLOCK_WIDTHS 495 (Some 826%Z) []
     = Raise InvalidGeometry
  /\ @Main.pack_wall Rect.kernel_no_repair 10 overlapping BLOCK_WIDTHS 495 (Some 826%Z) []
     <> Ret ([], []).
Proof.
  intros good overlapping.
  pose proof (@sanitize_and_failure_atomicity Rect.kernel good) as (G & _).
  pose proof (@sanitize_and_failure_atomicity Rect.kernel overlapping) as (_ & R & _).
  pose proof (@sanitize_and_failure_atomicity Rect.kernel_no_repair overlapping)
    as (_ & _ & N & A).
  split; [apply G; reflexivity |].
  split; [apply R; reflexivity |].
  destruct (N eq_refl eq_refl) as (N1 & N2).
  split; [exact N1 |].
  split; [apply N2 |].
  apply (proj1 (A 10%nat BLOCK_WIDTHS 495%Z (Some 826%Z) [] InvalidGeometry [] [])).
  apply N2.
Defined.

(** ** Classification of custom pieces *)

Section Classification.
Context {K : Shapely}.
Hypothesis strips : strips_stay_in_strip.

(** After the split no piece is wider than the split width plus the
    tolerance: a piece either passed the in-spec test or is a strip. *)
Lemma split_width (mk : geom -> outcome Custom) (fuel : nat) (customs : list Custom)
  (max_w max_h : Z) (out : list Custom) :
  (0 <= max_w)%Z ->
  (forall g c, mk g = Ret c ->
     exists g', sanitize_polygon g = Ret g'
       /\ c_width c = snap (let '(minx, _, maxx, _) := bounds g' in maxx - minx)) ->
  split_out_of_spec mk fuel customs max_w max_h = Ret out ->
  Forall (fun c => (c_width c <= max_w + SCARTO_CUSTOM_MM)%Z) out.
Proof.
  intros Hw Hmk H. unfold split_out_of_spec in H.
  apply (for_each_inv (Forall (fun c => (c_width c <= max_w + SCARTO_CUSTOM_MM)%Z)) H);
    [constructor |].
  intros s c s' _ Hs E.
  destruct ((int_round (c_width c) <=? max_w + SCARTO_CUSTOM_MM)
            && (int_round (c_height c) <=? max_h + SCARTO_CUSTOM_MM))%Z eqn:T.
  - inversion E; subst. apply Forall_app; split; [exact Hs |].
    constructor; [| constructor].
    apply andb_true_iff in T. destruct T as [T _].
    rewrite int_round_id in T. apply Z.leb_le, T.
  - destruct (is_empty (buffer (c_geometry c) 0)
              || Qle_bool (area (buffer (c_geometry c) 0)) AREA_EPS).
    + inversion E; subst; exact Hs.
    + destruct (bounds (buffer (c_geometry c) 0)) as [[[minx miny] maxx] maxy].
      apply (while_loop_inv
               (fun st => Forall (fun c => (c_width c <= max_w + SCARTO_CUSTOM_MM)%Z) (snd st))
               (Forall (fun c => (c_width c <= max_w + SCARTO_CUSTOM_MM)%Z)) E);
        [exact Hs | |].
      * intros [x0 o] [x0' o']. unfold split_body. simpl. intros Ho.
        destruct (Qltb x0 (maxx - COORD_EPS)) eqn:Hx; [| discriminate].
        match goal with |- context [if ?b then _ else _] => destruct b eqn:Hp end.
        -- intros E'. apply bind_Ret in E'. destruct E' as (c' & Hc' & E').
           inversion E'; subst. apply Forall_app; split; [exact Ho |].
           constructor; [| constructor].
           apply andb_true_iff in Hp. destruct Hp as [Hne _].
           apply negb_true_iff in Hne.
           destruct (Hmk _ _ Hc') as (g' & Hg' & Hwd).
           apply Qltb_lt in Hx. unfold COORD_EPS in Hx.
           assert (Hle : x0 <= Qmin (x0 + inject_Z max_w) maxx).
           { apply Q.min_glb; [| lra].
             assert (inject_Z 0 <= inject_Z max_w) by (rewrite <- Zle_Qle; exact Hw).
             change (inject_Z 0) with 0 in *. lra. }
           pose proof (strips _ _ _ _ _ _ Hle Hne Hg') as Hs'.
           destruct (bounds g') as [[[a b] c''] d].
           rewrite Hwd.
           assert (Hb : c'' - a <= inject_Z max_w).
           { pose proof (Q.le_min_l (x0 + inject_Z max_w) maxx). lra. }
           apply py_round_le in Hb. unfold snap, SCARTO_CUSTOM_MM. lia.
        -- intros E'; inversion E'; subst; exact Ho.
      * intros [x0 o] r. unfold split_body. simpl. intros Ho.
        destruct (Qltb x0 (maxx - COORD_EPS)).
        -- match goal with |- context [if ?b then _ else _] => destruct b end.
           ++ intros E'. apply bind_Ret in E'. destruct E' as (c' & _ & E'). discriminate.
           ++ discriminate.
        -- intros E'; inversion E'; subst; exact Ho.
Qed.

Lemma WallBuilder_mk_custom_width (g : geom) (ws : list Z) (c : Custom) :
  WallBuilder._mk_custom g ws = Ret c ->
  exists g', sanitize_polygon g = Ret g'
    /\ c_width c = snap (let '(minx, _, maxx, _) := bounds g' in maxx - minx).
Proof.
  unfold WallBuilder._mk_custom. intros H.
  apply bind_Ret in H. destruct H as (g' & Hg & H). exists g'. split; [exact Hg |].
  destruct (bounds g') as [[[minx miny] maxx] maxy].
  apply bind_Ret in H. destruct H as (sbw & _ & H).
  inversion H; subst. reflexivity.
Qed.

(** What the tagging of core/wall_builder.py gives a piece no wider than
    the split width plus the tolerance. *)
Lemma WallBuilder_tag_sound (l out : list Custom) :
  WallBuilder.validate_and_tag_customs l = Ret out ->
  Forall (fun c => (c_width c <= SPLIT_MAX_WIDTH_MM + SCARTO_CUSTOM_MM)%Z) l ->
  Forall (fun c =>
            (c_ctype c = Some ctype_1 ->
             (Z.abs (c_height c - BLOCK_HEIGHT) <= SCARTO_CUSTOM_MM
              /\ c_width c <= 1239 + SCARTO_CUSTOM_MM)%Z)
            /\ (c_ctype c = Some out_of_spec ->
                (c_width c > 1239 + SCARTO_CUSTOM_MM
                 \/ c_height c > BLOCK_HEIGHT + SCARTO_CUSTOM_MM)%Z)
            /\ (c_ctype c = Some ctype_1 \/ c_ctype c = Some out_of_spec
                \/ c_ctype c = Some ctype_2)) out.
Proof.
  unfold WallBuilder.validate_and_tag_customs. simpl. intros E H.
  inversion E; subst; clear E.
  induction H as [| c l Hc Hl IH]; simpl; constructor; auto.
  rewrite !int_round_id.
  unfold SPLIT_MAX_WIDTH_MM, SCARTO_CUSTOM_MM, BLOCK_HEIGHT in *.
  repeat match goal with
         | |- context [if ?b then _ else _] => destruct b eqn:?
         end; simpl;
    repeat match goal with
           | H : (_ || _)%bool = true |- _ => apply orb_true_iff in H; destruct H
           | H : (_ || _)%bool = false |- _ => apply orb_false_iff in H; destruct H
           | H : (_ && _)%bool = true |- _ => apply andb_true_iff in H; destruct H
           | H : (_ && _)%bool = false |- _ => apply andb_false_iff in H; destruct H
           | H : (_ <=? _)%Z = true |- _ => apply Z.leb_le in H
           | H : (_ <=? _)%Z = false |- _ => apply Z.leb_gt in H
           | H : (_ <? _)%Z = true |- _ => apply Z.ltb_lt in H
           | H : (_ <? _)%Z = false |- _ => apply Z.ltb_ge in H
           end;
    (split; [intros X; try discriminate X; lia
            | split; [intros X; try discriminate X; lia | auto]]).
Qed.

End Classification.

Section ClassificationMain.
Context {K : Shapely}.

(** What the tagging of main.py gives a piece. *)
Lemma Main_tag_sound (l : list Custom) :
  Forall (fun c =>
            (c_ctype c = Some out_of_spec
             <-> (413 + SCARTO_CUSTOM_MM <= c_width c
                  \/ BLOCK_HEIGHT + SCARTO_CUSTOM_MM < c_height c)%Z)
            /\ (c_ctype c = Some ctype_1
                <-> (Z.abs (c_height c - BLOCK_HEIGHT) <= SCARTO_CUSTOM_MM
                     /\ c_width c < 413 + SCARTO_CUSTOM_MM)%Z)
            /\ (c_ctype c = Some ctype_1 \/ c_ctype c = Some out_of_spec
                \/ c_ctype c = Some ctype_2))
         (Main.validate_and_tag_customs l).
Proof.
  unfold Main.validate_and_tag_customs. apply Forall_map, Forall_forall. intros c _.
  rewrite !int_round_id. unfold SCARTO_CUSTOM_MM, BLOCK_HEIGHT.
  destruct (Z.leb_spec (413 + 5) (c_width c)), (Z.ltb_spec (495 + 5) (c_height c)),
    (Z.leb_spec (Z.abs (c_height c - 495)) 5), (Z.ltb_spec (c_width c) (413 + 5));
    cbn [orb andb set_ctype c_ctype c_width c_height];
    repeat split; intros; try discriminate; try reflexivity; try lia; auto.
Qed.

End ClassificationMain.

(** C7, as stated, fails for main.py: the notched wall of 418 x 495 comes
    out of its [pack_wall] as one custom piece of 418 x 495 tagged
    "out_of_spec", though 418 <= 1239 + 5 and 495 <= 495 + 5. *)
Lemma classification_counterexample :
  exists (placed : list Placed) (customs : list (@Custom Rect.kernel)) (c : Custom),
    @Main.pack_wall Rect.kernel 10 Examples.wall_notched BLOCK_WIDTHS 495 (Some 826%Z) []
    = Ret (placed, customs)
    /\ In c customs
    /\ c_ctype c = Some out_of_spec
    /\ ~ (c_width c > 1239 + SCARTO_CUSTOM_MM
          \/ c_height c > BLOCK_HEIGHT + SCARTO_CUSTOM_MM)%Z.
Proof.
  exists [], [@mkCustom Rect.kernel 418 495 0 0
                [Rect.mkBox 0 0 413 490; Rect.mkBox 10 490 413 495;
                 Rect.mkBox 413 0 418 490; Rect.mkBox 413 490 418 495]
                None None (Some out_of_spec)].
  eexists. split; [reflexivity |]. split; [left; reflexivity |].
  split; [reflexivity |]. cbn [c_width c_height]. unfold SCARTO_CUSTOM_MM, BLOCK_HEIGHT. lia.
Qed.

(** C7, amended.  With [w] and [h] the width and height fields of a custom
    piece (its snapped bounding box):
    - in the final output of core/wall_builder.py's [pack_wall], ctype 1
      implies |h - 495| <= 5 and w <= 1239 + 5; "out_of_spec" implies
      w > 1239 + 5 or h > 495 + 5; and a piece that is neither is ctype 2
      (the split runs before the tagging and leaves no piece wider than
      413 + 5, which is why the test [w >= 1239 + 5] of the tagging never
      fires on the boundary value);
    - in the final output of main.py's [pack_wall], whose tagging measures
      against the small block, "out_of_spec" is exactly w >= 413 + 5 or
      h > 495 + 5, ctype 1 is exactly |h - 495| <= 5 and w < 413 + 5, and
      a piece that is neither is ctype 2. *)
Theorem classification_soundness :
  forall (K : Shapely),
    (forall (fuel : nat) (polygon : geom) (block_widths : list Z)
            (block_height : Z) (row_offset : option Z) (apertures : list geom)
            (placed : list Placed) (customs : list Custom) (c : Custom),
        strips_stay_in_strip ->
        WallBuilder.pack_wall fuel polygon block_widths block_height row_offset apertures
        = Ret (placed, customs) ->
        In c customs ->
        (c_ctype c = Some ctype_1 ->
         (Z.abs (c_height c - BLOCK_HEIGHT) <= SCARTO_CUSTOM_MM
          /\ c_width c <= 1239 + SCARTO_CUSTOM_MM)%Z)
        /\ (c_ctype c = Some out_of_spec ->
            (c_width c > 1239 + SCARTO_CUSTOM_MM
             \/ c_height c > BLOCK_HEIGHT + SCARTO_CUSTOM_MM)%Z)
        /\ (c_ctype c = Some ctype_1 \/ c_ctype c = Some out_of_spec
            \/ c_ctype c = Some ctype_2))
    /\ (forall (fuel : nat) (polygon : geom) (block_widths : list Z)
               (block_height : Z) (row_offset : option Z) (apertures : list geom)
               (placed : list Placed) (customs : list Custom) (c : Custom),
           Main.pack_wall fuel polygon block_widths block_height row_offset apertures
           = Ret (placed, customs) ->
           In c customs ->
           (c_ctype c = Some out_of_spec
            <-> (413 + SCARTO_CUSTOM_MM <= c_width c
                 \/ BLOCK_HEIGHT + SCARTO_CUSTOM_MM < c_height c)%Z)
           /\ (c_ctype c = Some ctype_1
               <-> (Z.abs (c_height c - BLOCK_HEIGHT) <= SCARTO_CUSTOM_MM
                    /\ c_width c < 413 + SCARTO_CUSTOM_MM)%Z)
           /\ (c_ctype c = Some ctype_1 \/ c_ctype c = Some out_of_spec
               \/ c_ctype c = Some ctype_2)).
Proof.
  intros K. split.
  - intros fuel polygon bw bh ro aps placed customs c Hlaw H Hin.
    unfold WallBuilder.pack_wall, WallBuilder.pack_wall_stdout in H.
    apply bind_Ret in H. destruct H as ([[pl cu] log] & H & E).
    inversion E; subst; clear E.
    apply bind_Ret in H. destruct H as (P & _ & H).
    apply bind_Ret in H. destruct H as (valid & _ & H).
    destruct (bounds P) as [[[minx miny] maxx] maxy].
    apply bind_Ret in H. destruct H as (q & _ & H).
    apply bind_Ret in H. destruct H as (st1 & _ & H).
    apply bind_Ret in H. destruct H as (st2 & _ & H).
    apply bind_Ret in H. destruct H as (merged & _ & H).
    apply bind_Ret in H. destruct H as (cut & Hs & H).
    apply bind_Ret in H. destruct H as (tagged & Ht & H).
    inversion H; subst; clear H. simpl in Hin.
    assert (Hcut : Forall (fun c => (c_width c <= SPLIT_MAX_WIDTH_MM + SCARTO_CUSTOM_MM)%Z)
                          cut).
    { eapply split_width; [exact Hlaw | | | exact Hs].
      - unfold SPLIT_MAX_WIDTH_MM; lia.
      - intros g c0. apply WallBuilder_mk_custom_width. }
    pose proof (WallBuilder_tag_sound _ _ Ht Hcut) as Hall.
    rewrite Forall_forall in Hall. apply Hall, Hin.
  - intros fuel polygon bw bh ro aps placed customs c H Hin.
    unfold Main.pack_wall in H.
    apply bind_Ret in H. destruct H as (P & _ & H).
    destruct (bounds P) as [[[minx miny] maxx] maxy].
    apply bind_Ret in H. destruct H as ([pl cu] & _ & H).
    apply bind_Ret in H. destruct H as (merged & _ & H).
    apply bind_Ret in H. destruct H as (cut & _ & H).
    inversion H; subst; clear H.
    pose proof (Main_tag_sound cut) as Hall.
    rewrite Forall_forall in Hall. apply Hall, Hin.
Qed.

(** *** The rectilinear geometry keeps strips in their strip *)

Module RectFacts.
Import Rect.

Lemma make_xin (a b p q r s : Q) : a <= p -> r <= b -> xin a b (make p q r s).
Proof.
  intros Hp Hr. unfold make.
  destruct (Qltb p r && Qltb q s); [constructor; [split; assumption | constructor] | constructor].
Qed.

Lemma xin_app (a b : Q) (g h : region) : xin a b g -> xin a b h -> xin a b (g ++ h).
Proof. intros; apply Forall_app; auto. Qed.

Lemma xin_flat_map (a b : Q) (f : Box -> region) (g : region) :
  (forall bx, In bx g -> xin a b (f bx)) -> xin a b (flat_map f g).
Proof.
  induction g as [| bx g IH]; simpl; intros H; [constructor |].
  apply xin_app; [apply H; left; reflexivity | apply IH; intros; apply H; right; assumption].
Qed.

Lemma inter_box_xin (bx s : Box) : xin (x0 s) (x1 s) (inter_box bx s).
Proof.
  apply make_xin; [apply Q.le_max_r | apply Q.le_min_r].
Qed.

Lemma diff_box_xin (a b : Q) (bx c : Box) :
  a <= x0 bx -> x1 bx <= b -> xin a b (diff_box bx c).
Proof.
  intros Ha Hb. unfold diff_box, inter_box, make.
  destruct (Qltb (Qmax (x0 bx) (x0 c)) (Qmin (x1 bx) (x1 c))
            && Qltb (Qmax (y0 bx) (y0 c)) (Qmin (y1 bx) (y1 c))) eqn:T.
  - apply andb_true_iff in T. destruct T as [T _]. apply Qltb_lt in T. simpl.
    pose proof (Q.le_max_l (x0 bx) (x0 c)).
    pose proof (Q.le_min_l (x1 bx) (x1 c)).
    repeat apply xin_app;
      match goal with
      | |- xin _ _ (if ?t then _ else _) =>
          destruct t; constructor; simpl; [split; lra | constructor]
      end.
  - constructor; [split; assumption | constructor].
Qed.

Lemma r_difference_xin (a b : Q) (h g : region) :
  xin a b g -> xin a b (r_difference g h).
Proof.
  unfold r_difference. revert g. induction h as [| c h IH]; simpl; intros g Hg; [exact Hg |].
  apply IH. apply xin_flat_map. intros bx Hin.
  unfold xin in Hg. rewrite Forall_forall in Hg. destruct (Hg bx Hin).
  apply diff_box_xin; assumption.
Qed.

Lemma dissolve_xin (a b : Q) (g : region) : xin a b g -> xin a b (dissolve g).
Proof.
  unfold dissolve. intros Hg.
  assert (G : forall acc, xin a b acc ->
            xin a b (fold_left (fun acc bx => acc ++ r_difference [bx] acc) g acc)).
  { induction Hg as [| bx g Hbx Hg IH]; simpl; intros acc Hacc; [exact Hacc |].
    apply IH. apply xin_app; [exact Hacc |].
    apply r_difference_xin. constructor; [exact Hbx | constructor]. }
  apply G. constructor.
Qed.

Lemma r_bounds_xin (a b : Q) (g : region) :
  a <= b -> xin a b g ->
  let '(minx, _, maxx, _) := r_bounds g in maxx - minx <= b - a.
Proof.
  intros Hab Hg. unfold r_bounds. destruct Hg as [| bx g [H0 H1] Hg]; [lra |].
  assert (G : forall m : Q * Q * Q * Q,
            (let '(mx0, _, mx1, _) := m in a <= mx0 /\ mx1 <= b) ->
            let '(mx0, _, mx1, _) :=
              fold_left (fun (m : Q * Q * Q * Q) c =>
                           let '(mx0, my0, mx1, my1) := m in
                           (Qmin mx0 (x0 c), Qmin my0 (y0 c), Qmax mx1 (x1 c), Qmax my1 (y1 c)))
                        g m in
            a <= mx0 /\ mx1 <= b).
  { induction Hg as [| c g [Hc0 Hc1] Hg IH]; simpl; intros [[[mx0 my0] mx1] my1] Hm;
      [exact Hm |].
    apply IH. destruct Hm. split; [apply Q.min_glb | apply Q.max_lub]; assumption. }
  specialize (G (x0 bx, y0 bx, x1 bx, y1 bx) (conj H0 H1)).
  destruct (fold_left _ g _) as [[[mx0 my0] mx1] my1]. lra.
Qed.

Lemma strips_stay : @strips_stay_in_strip kernel.
Proof.
  intros poly sx0 sy0 sx1 sy1 g Hle _ Hs.
  assert (Hp : xin sx0 sx1 (r_buffer (r_intersection poly (r_box sx0 sy0 sx1 sy1)) 0)).
  { unfold r_buffer. simpl. apply dissolve_xin.
    unfold r_intersection. apply xin_flat_map. intros bx _.
    apply xin_flat_map. intros s Hs'.
    unfold r_box, make in Hs'.
    destruct (Qltb (Qmin sx0 sx1) (Qmax sx0 sx1) && Qltb (Qmin sy0 sy1) (Qmax sy0 sy1));
      [| contradiction].
    destruct Hs' as [<- | []].
    unfold inter_box. apply make_xin; simpl.
    - apply Qle_trans with (Qmin sx0 sx1); [apply Q.min_glb; lra | apply Q.le_max_r].
    - apply Qle_trans with (Qmax sx0 sx1); [apply Q.le_min_r | apply Q.max_lub; lra]. }
  assert (Hg : xin sx0 sx1 g).
  { unfold sanitize_polygon in Hs. simpl in Hs.
    destruct (disjoint _) in Hs.
    - inversion Hs; subst. exact Hp.
    - destruct (disjoint _) in Hs; [| discriminate].
      inversion Hs; subst. unfold r_buffer at 1. simpl. apply dissolve_xin, Hp. }
  exact (r_bounds_xin _ _ _ Hle Hg).
Qed.

End RectFacts.

(** The tail piece of the wall of 1000 x 700 in core/wall_builder.py, and
    the piece of the notched wall in main.py. *)
Lemma classification_soundness_witness :
  let tail_piece := hd Examples.residual_423 Examples.customs_1000x700 in
  let notched := @mkCustom Rect.kernel 418 495 0 0
                   [Rect.mkBox 0 0 413 490; Rect.mkBox 10 490 413 495;
                    Rect.mkBox 413 0 418 490; Rect.mkBox 413 490 418 495]
                   None None (Some out_of_spec) in
  (@WallBuilder.pack_wall Rect.kernel 10 Examples.wall_1000x700 BLOCK_WIDTHS 495
                          (Some 826%Z) []
   = Ret ([_mk_std 0 0 826 495], Examples.customs_1000x700)
   /\ (Z.abs (c_height tail_piece - BLOCK_HEIGHT) <= SCARTO_CUSTOM_MM
       /\ c_width tail_piece <= 1239 + SCARTO_CUSTOM_MM)%Z)
  /\ (@Main.pack_wall Rect.kernel 10 Examples.wall_notched BLOCK_WIDTHS 495 (Some 826%Z) []
      = Ret ([], [notched])
      /\ (413 + SCARTO_CUSTOM_MM <= c_width notched
          \/ BLOCK_HEIGHT + SCARTO_CUSTOM_MM < c_height notched)%Z).
Proof.
  intros tail_piece notched.
  assert (E : @WallBuilder.pack_wall Rect.kernel 10 Examples.wall_1000x700 BLOCK_WIDTHS
                495 (Some 826%Z) [] = Ret ([_mk_std 0 0 826 495], Examples.customs_1000x700))
    by reflexivity.
  assert (F : @Main.pack_wall Rect.kernel 10 Examples.wall_notched BLOCK_WIDTHS 495
                (Some 826%Z) [] = Ret ([], [notched])) by reflexivity.
  split; (split; [assumption |]).
  - exact (proj1 (proj1 (@classification_soundness Rect.kernel) 10%nat
                    Examples.wall_1000x700
                    BLOCK_WIDTHS 495%Z (Some 826%Z) [] [_mk_std 0 0 826 495]
                    Examples.customs_1000x700 tail_piece
                    RectFacts.strips_stay E (or_introl eq_refl)) eq_refl).
  - exact (proj1 (proj1 (proj2 (@classification_soundness Rect.kernel) 10%nat
                           Examples.wall_notched BLOCK_WIDTHS 495%Z (Some 826%Z) []
                           [] [notched] notched F (or_introl eq_refl))) eq_refl).
Defined.

(** ** The aperture filter of core/wall_builder.py *)

Section ApertureFilter.
Context {K : Shapely}.





End ApertureFilter.

(** ** The courses of core/wall_builder.py *)


Section Courses.
Context {K : Shapely}.
Variables (fuel : nat) (wall : geom) (keepout : option geom) (minx maxx : Q).
Variables (block_widths : list Z) (block_height : Z) (row_offset : option Z).






End Courses.

(** *** The lists a wall is put together from *)

Section CoursePacking.
Context {K : Shapely}.





Variables (fuel : nat) (wall : geom) (hole_polys valid_apertures : list geom).
Variables (minx maxx : Q) (block_widths : list Z) (block_height : Z) (row_offset : option Z).

Let keepout := WallBuilder.build_keepout hole_polys valid_apertures.




End CoursePacking.




(** *** The apertures that count *)



(** ** The standard-fit test of core/wall_builder.py *)

Lemma Qdiv_by_zero (a b : Q) : b == 0 -> a / b == 0.
Proof.
  intros H. unfold Qdiv.
  assert (E : / b == 0).
  { destruct b as [n d]. unfold Qeq in H. simpl in H.
    assert (n = 0%Z) by lia. subst. reflexivity. }
  rewrite E. ring.
Qed.

Section StandardFit.
Context {K : Shapely}.
Variables (comp : geom) (y stripe_top cursor : Z) (widths_order : list Z).

Lemma first_fit_reaches (spazio_rimanente : Q) (ws pre post : list Z) (w : Z)
  (pc : WallBuilder.piece) :
  ws = pre ++ w :: post ->
  Forall (passed_over comp y stripe_top cursor widths_order spazio_rimanente) pre ->
  Qle_bool (inject_Z w) (spazio_rimanente + COORD_EPS) = true ->
  WallBuilder.candidate_piece comp y stripe_top cursor w widths_order = Ret (Some pc) ->
  WallBuilder.first_fit comp y stripe_top cursor spazio_rimanente widths_order ws
  = Ret (Some (w, pc)).
Proof.
  intros -> Hpre Hfit Hc. induction Hpre as [| w' pre [Hw' | Hw'] _ IH]; simpl.
  - rewrite Hfit, Hc. reflexivity.
  - rewrite Hw'. exact IH.
  - destruct (Qle_bool (inject_Z w') (spazio_rimanente + COORD_EPS)); [| exact IH].
    rewrite Hw'. exact IH.
Qed.

End StandardFit.

Section FirstWidth.
Context {K : Shapely}.
Variables (comp : geom) (y stripe_top cursor seg_maxx : Z).

Lemma WallBuilder_skips (widths_order : list Z) (w : Z) :
  skipped_at comp y stripe_top cursor seg_maxx w ->
  passed_over comp y stripe_top cursor widths_order
              (inject_Z seg_maxx - inject_Z cursor) w.
Proof.
  unfold skipped_at, passed_over, WallBuilder.candidate_piece, candidate_box.
  intros [H | [H | H]].
  - left. apply Qle_bool_gt. lra.
  - right. rewrite H. reflexivity.
  - right. apply Qle_bool_gt in H. rewrite H, andb_false_r. reflexivity.
Qed.

(** The loop of main.py goes past the widths that are skipped. *)
Lemma Main_first_fit_reaches (placed : list Placed) (custom : list Custom)
  (pre rest : list Z) :
  Forall (skipped_at comp y stripe_top cursor seg_maxx) pre ->
  Main.first_fit comp y stripe_top (inject_Z seg_maxx) cursor placed custom (pre ++ rest)
  = Main.first_fit comp y stripe_top (inject_Z seg_maxx) cursor placed custom rest.
Proof.
  induction 1 as [| w' pre Hw' _ IH]; [reflexivity |].
  cbn [app Main.first_fit]. cbv zeta. fold (candidate_box y stripe_top cursor w').
  destruct (Qle_bool (inject_Z cursor + inject_Z w') (inject_Z seg_maxx + COORD_EPS)) eqn:F;
    [| exact IH].
  destruct Hw' as [H | [H | H]].
  - apply Qle_bool_iff in F. lra.
  - rewrite H. exact IH.
  - apply Qltb_lt in H. rewrite H, orb_true_r. exact IH.
Qed.

End FirstWidth.

(** C3, as stated, fails in both packers.  In core/wall_builder.py, on an
    L-shaped component (413 x 495 with a foot of 826 x 100 to its right) the
    width 413 fits at the cursor 0 and its rectangle lies in the component
    (ratio 1), but 1239 comes first in the order, fits as well and meets the
    component in 47% of its rectangle: a custom piece of 1239 is cut and no
    standard block is placed.  In main.py, on the notched wall, the
    rectangle of 413 meets the wall in more than 99.9% of its area, which
    is not equal to it: a custom piece is cut. *)
Lemma tie_rule_counterexample :
  let foot : @geom Rect.kernel := [Rect.mkBox 0 0 413 495; Rect.mkBox 413 0 1239 100] in
  let R := @candidate_box Rect.kernel 0 495 0 413 in
  let notched_413 : @geom Rect.kernel :=
    [Rect.mkBox 0 0 413 490; Rect.mkBox 10 490 413 495] in
  (inject_Z 0 + inject_Z 413 <= inject_Z 1239 + COORD_EPS
   /\ AREA_EPS <= @area Rect.kernel (@intersection Rect.kernel R foot)
   /\ 95 # 100 <= @area Rect.kernel (@intersection Rect.kernel R foot)
                  / @area Rect.kernel R
   /\ @WallBuilder.pack_body Rect.kernel foot 0 495 1239 [1239; 826; 413]%Z
                             (0%Z, [], [])
      = Ret (inl (1239%Z, [],
                  [mkCustom 1239 495 0 0 foot (Some 1239%Z) (Some 0%Z) None])))
  /\ (inject_Z 0 + inject_Z 413 <= inject_Z 418 + COORD_EPS
      /\ AREA_EPS <= @area Rect.kernel (@intersection Rect.kernel R Examples.wall_notched)
      /\ 95 # 100 <= @area Rect.kernel (@intersection Rect.kernel R Examples.wall_notched)
                     / @area Rect.kernel R
      /\ @Main.pack_body Rect.kernel 10 Examples.wall_notched 0 495 418
                         [1239; 826; 413]%Z (Main.mkSeg 0 [] [] [])
         = Ret (inl (Main.mkSeg 413 [] [mkCustom 413 495 0 0 notched_413 None None None]
                                [(0%Z, 0%nat, 0%nat)]))).
Proof.
  intros foot R notched_413. split.
  - split; [vm_compute; discriminate |]. split; [vm_compute; discriminate |].
    split; [vm_compute; discriminate | reflexivity].
  - split; [vm_compute; discriminate |]. split; [vm_compute; discriminate |].
    split; [vm_compute; discriminate | reflexivity].
Qed.

(** C3, amended.  At a cursor left of the right edge of the segment, let w
    be the first width of the order that is not passed over: the widths
    before it do not fit or meet the component in less than AREA_EPS, w fits
    and the intersection I of its rectangle R = [x, y, x+w, stripe_top] with
    the component is non-empty with area >= AREA_EPS.  Then w decides the
    step.  In core/wall_builder.py a standard block of width w is placed at
    (x, y) when area(I) / area(R) >= 0.95, and a custom piece is cut from I
    when the ratio is smaller; in main.py the block is placed when area(I)
    is area(R) within a relative tolerance of 1e-9, and the piece is cut
    otherwise.  Either way the cursor moves to x + w.  The offset slot of
    core/wall_builder.py follows the same ratio test. *)
Theorem standard_fit_tie_rule :
  forall (K : Shapely) (fuel : nat) (comp : geom) (y stripe_top cursor seg_maxx w : Z)
         (pre post : list Z) (placed : list Placed) (custom : list Custom),
    let order := pre ++ w :: post in
    let R := candidate_box y stripe_top cursor w in
    let I := intersection R comp in
    let block := mkPlaced (std_type w BLOCK_HEIGHT) w BLOCK_HEIGHT cursor y in
    inject_Z cursor < inject_Z seg_maxx - COORD_EPS ->
    Forall (skipped_at comp y stripe_top cursor seg_maxx) pre ->
    inject_Z cursor + inject_Z w <= inject_Z seg_maxx + COORD_EPS ->
    is_empty I = false ->
    AREA_EPS <= area I ->
    (95 # 100 <= area I / area R ->
     WallBuilder.pack_body comp y stripe_top seg_maxx order (cursor, placed, custom)
     = Ret (inl ((cursor + w)%Z, placed ++ [block], custom)))
    /\ (area I / area R < 95 # 100 -> ~ area R == 0 ->
        forall c, WallBuilder._mk_custom I order = Ret c ->
          WallBuilder.pack_body comp y stripe_top seg_maxx order (cursor, placed, custom)
          = Ret (inl ((cursor + w)%Z, placed, custom ++ [c])))
    /\ (95 # 100 <= area I / area R -> w <> 0%Z ->
        WallBuilder.offset_slot comp y stripe_top seg_maxx cursor w order
        = Ret ((cursor + w)%Z, [block], []))
    /\ (forall history,
          let history' := history ++ [(cursor, length placed, length custom)] in
          (isclose (area I) (area R) = true ->
           Main.pack_body fuel comp y stripe_top seg_maxx order
                          (Main.mkSeg cursor placed custom history)
           = Ret (inl (Main.mkSeg (cursor + w) (placed ++ [block]) custom history')))
          /\ (isclose (area I) (area R) = false ->
              forall c, Main._mk_custom I = Ret c ->
                Main.pack_body fuel comp y stripe_top seg_maxx order
                               (Main.mkSeg cursor placed custom history)
                = Ret (inl (Main.mkSeg (cursor + w) placed (custom ++ [c]) history')))).
Proof.
  intros K fuel comp y stripe_top cursor seg_maxx w pre post placed custom
         order R I block Hloop Hpre Hfit Hne Harea.
  assert (Hblock : _mk_std (inject_Z cursor) (inject_Z y) w BLOCK_HEIGHT = block)
    by (unfold _mk_std, block; rewrite !snap_inject_Z; reflexivity).
  assert (Hc : 95 # 100 <= area I / area R ->
               WallBuilder.candidate_piece comp y stripe_top cursor w order
               = Ret (Some (WallBuilder.std_piece block))).
  { intros Hratio. unfold WallBuilder.candidate_piece.
    fold (candidate_box y stripe_top cursor w). fold R. fold I.
    rewrite Hne. apply Qle_bool_iff in Harea. rewrite Harea. cbn [negb andb].
    assert (HR : ~ area R == 0).
    { intros Z. rewrite (Qdiv_by_zero _ _ Z) in Hratio. lra. }
    rewrite (py_div_Ret _ _ HR). cbn [bind].
    apply Qle_bool_iff in Hratio. rewrite Hratio, Hblock. reflexivity. }
  assert (Hfit' : Qle_bool (inject_Z w) (inject_Z seg_maxx - inject_Z cursor + COORD_EPS)
                  = true) by (apply Qle_bool_iff; lra).
  assert (Hpre' : Forall (passed_over comp y stripe_top cursor order
                                      (inject_Z seg_maxx - inject_Z cursor)) pre).
  { apply Forall_impl with (2 := Hpre). intros w'. apply WallBuilder_skips. }
  assert (Hloop' := Hloop). apply Qltb_lt in Hloop'.
  split; [| split; [| split]].
  - intros Hratio. unfold WallBuilder.pack_body. rewrite Hloop'.
    pose proof (first_fit_reaches comp y stripe_top cursor order _ order pre post w _ eq_refl Hpre' Hfit' (Hc Hratio))
      as Hfirst.
    change (pre ++ w :: post) with order in Hfirst. rewrite Hfirst.
    cbn [bind WallBuilder.emit]. rewrite snap_plus. reflexivity.
  - intros Hratio HR c Hmk.
    assert (Hcut : WallBuilder.candidate_piece comp y stripe_top cursor w order
                   = Ret (Some (WallBuilder.custom_piece c))).
    { unfold WallBuilder.candidate_piece.
      fold (candidate_box y stripe_top cursor w). fold R. fold I.
      rewrite Hne. apply Qle_bool_iff in Harea. rewrite Harea. cbn [negb andb].
      rewrite (py_div_Ret _ _ HR). cbn [bind].
      apply Qle_bool_gt in Hratio. rewrite Hratio, Hmk. reflexivity. }
    unfold WallBuilder.pack_body. rewrite Hloop'.
    pose proof (first_fit_reaches comp y stripe_top cursor order _ order pre post w _ eq_refl Hpre' Hfit' Hcut)
      as Hfirst.
    change (pre ++ w :: post) with order in Hfirst. rewrite Hfirst.
    cbn [bind WallBuilder.emit]. rewrite snap_plus. reflexivity.
  - intros Hratio Hw0. unfold WallBuilder.offset_slot.
    apply Z.eqb_neq in Hw0. rewrite Hw0.
    apply Qle_bool_iff in Hfit. rewrite Hfit. cbn [negb andb].
    rewrite (Hc Hratio). cbn [bind WallBuilder.emit app]. rewrite snap_plus. reflexivity.
  - intros history history'.
    assert (Hfirst : forall pl cu,
              Main.first_fit comp y stripe_top (inject_Z seg_maxx) cursor pl cu order
              = if isclose (area I) (area R)
                then Ret (Some ((cursor + w)%Z, pl ++ [block], cu))
                else c <- Main._mk_custom I ;;
                     Ret (Some ((cursor + w)%Z, pl, cu ++ [c]))).
    { intros pl cu. unfold order. rewrite Main_first_fit_reaches by exact Hpre.
      cbn [Main.first_fit]. cbv zeta.
      fold (candidate_box y stripe_top cursor w). fold R. fold I.
      apply Qle_bool_iff in Hfit. rewrite Hfit, Hne.
      assert (Ha : Qltb (area I) AREA_EPS = false) by (apply Qltb_ge; exact Harea).
      rewrite Ha. cbn [orb]. rewrite snap_plus, Hblock. reflexivity. }
    unfold Main.pack_body. cbn [Main.cursor Main.placed Main.custom Main.history].
    rewrite Hloop', Hfirst.
    split.
    + intros Hclose. rewrite Hclose. reflexivity.
    + intros Hclose c Hmk. rewrite Hclose, Hmk. reflexivity.
Qed.

(** The first block of the 423 x 495 wall, in both packers. *)
Lemma standard_fit_tie_rule_witness :
  @WallBuilder.pack_body Rect.kernel Examples.wall_423 0 495 423 [1239; 826; 413]%Z
                         (0%Z, [], [])
  = Ret (inl (413%Z, [mkPlaced (std_type 413 495) 413 495 0 0], []))
  /\ @Main.pack_body Rect.kernel 10 Examples.wall_423 0 495 423 [1239; 826; 413]%Z
                     (Main.mkSeg 0 [] [] [])
     = Ret (inl (Main.mkSeg 413 [mkPlaced (std_type 413 495) 413 495 0 0] []
                            [(0%Z, 0%nat, 0%nat)])).
Proof.
  assert (Hloop : inject_Z 0 < inject_Z 423 - COORD_EPS) by (vm_compute; reflexivity).
  assert (Hpre : Forall (@skipped_at Rect.kernel Examples.wall_423 0 495 0 423)
                        [1239; 826]%Z).
  { repeat constructor; left; vm_compute; reflexivity. }
  assert (Hfit : inject_Z 0 + inject_Z 413 <= inject_Z 423 + COORD_EPS)
    by (vm_compute; discriminate).
  assert (Harea : AREA_EPS <= @area Rect.kernel
                    (@intersection Rect.kernel (@candidate_box Rect.kernel 0 495 0 413)
                                   Examples.wall_423))
    by (vm_compute; discriminate).
  pose proof (@standard_fit_tie_rule Rect.kernel 10 Examples.wall_423 0 495 0 423 413
                [1239; 826]%Z [] [] [] Hloop Hpre Hfit eq_refl Harea) as T.
  destruct T as (Tw & _ & _ & Tm). split.
  - apply Tw. vm_compute. discriminate.
  - apply (Tm []). reflexivity.
Defined.

(** ** Trials of main.py *)




Section Trials.
Context {K : Shapely}.
Variable X : Type.
Variable run : X -> outcome (list Placed * list Custom).








End Trials.

Section TrialsPick.
Context {K : Shapely}.
Variable X : Type.
Variable run : X -> outcome (list Placed * list Custom).


End TrialsPick.






(** ** The tail of a segment in main.py *)



(** ** Determinism: the result does not depend on the fuel *)

Create HintDb fuel_db.

Ltac more_fuel :=
  repeat first
    [ match goal with |- extends ?a ?b => constr_eq a b; apply extends_refl end
    | solve [auto 2 with fuel_db nocore]
    | apply extends_bind; [| intros ?]
    | apply extends_for_each; intros ? ?
    | apply extends_while; [intros ? | assumption]
    | match goal with
      | |- extends (if ?b then _ else _) _ => destruct b
      | |- extends (match ?x with _ => _ end) _ => destruct x
      end ].

Section MoreFuel.
Context {K : Shapely}.
Variables f1 f2 : nat.
Hypothesis Hf : (f1 <= f2)%nat.

Lemma split_extends (mk : geom -> outcome Custom) (customs : list Custom) (max_w max_h : Z) :
  extends (split_out_of_spec mk f1 customs max_w max_h)
          (split_out_of_spec mk f2 customs max_w max_h).
Proof. unfold split_out_of_spec. more_fuel. Qed.

Lemma Main_try_fill_extends (comp : geom) (y stripe_top : Q) (widths : list Z) (start_x : Q) :
  extends (Main._try_fill f1 comp y stripe_top widths start_x)
          (Main._try_fill f2 comp y stripe_top widths start_x).
Proof. unfold Main._try_fill. more_fuel. Qed.

Hint Resolve Main_try_fill_extends : fuel_db.

Lemma Main_tail_extends (comp : geom) (y stripe_top seg_maxx : Z) (st : Main.seg_state) :
  extends (Main.tail f1 comp y stripe_top seg_maxx st)
          (Main.tail f2 comp y stripe_top seg_maxx st).
Proof. unfold Main.tail. more_fuel. Qed.

Hint Resolve Main_tail_extends : fuel_db.

Lemma Main_pack_body_extends (comp : geom) (y stripe_top seg_maxx : Z)
  (widths_order : list Z) (st : Main.seg_state) :
  extends (Main.pack_body f1 comp y stripe_top seg_maxx widths_order st)
          (Main.pack_body f2 comp y stripe_top seg_maxx widths_order st).
Proof. unfold Main.pack_body. more_fuel. Qed.

Hint Resolve Main_pack_body_extends : fuel_db.

Lemma Main_pack_segment_with_order_extends (comp : geom) (y stripe_top : Q)
  (widths_order : list Z) (offset : Z) :
  extends (Main._pack_segment_with_order f1 comp y stripe_top widths_order offset)
          (Main._pack_segment_with_order f2 comp y stripe_top widths_order offset).
Proof. unfold Main._pack_segment_with_order. more_fuel. Qed.

Hint Resolve Main_pack_segment_with_order_extends : fuel_db.

Lemma Main_pack_segment_extends (comp : geom) (y stripe_top : Q) (widths : list Z)
  (offset : Z) :
  extends (Main._pack_segment f1 comp y stripe_top widths offset)
          (Main._pack_segment f2 comp y stripe_top widths offset).
Proof. unfold Main._pack_segment. more_fuel. Qed.

Hint Resolve Main_pack_segment_extends : fuel_db.

Lemma Main_pack_component_extends (comp : geom) (y stripe_top : Q) (row : Z)
  (row_offset : option Z) :
  extends (Main.pack_component f1 comp y stripe_top row row_offset)
          (Main.pack_component f2 comp y stripe_top row row_offset).
Proof. unfold Main.pack_component. more_fuel. Qed.

Hint Resolve Main_pack_component_extends : fuel_db.

Lemma Main_course_body_extends (polygon : geom) (keepout : option geom) (minx maxx maxy : Q)
  (block_height : Z) (row_offset : option Z) (st : Main.wall_state) :
  extends (Main.course_body f1 polygon keepout minx maxx maxy block_height row_offset st)
          (Main.course_body f2 polygon keepout minx maxx maxy block_height row_offset st).
Proof. unfold Main.course_body. more_fuel. Qed.

Hint Resolve Main_course_body_extends split_extends : fuel_db.

Lemma Main_pack_wall_extends (polygon : geom) (block_widths : list Z) (block_height : Z)
  (row_offset : option Z) (apertures : list geom) :
  extends (Main.pack_wall f1 polygon block_widths block_height row_offset apertures)
          (Main.pack_wall f2 polygon block_widths block_height row_offset apertures).
Proof. unfold Main.pack_wall. more_fuel. Qed.

End MoreFuel.

Section MoreFuelWallBuilder.
Context {K : Shapely}.
Variables f1 f2 : nat.
Hypothesis Hf : (f1 <= f2)%nat.

Lemma WallBuilder_pack_segment_with_order_extends (comp : geom) (y stripe_top : Q)
  (widths_order : list Z) (offset : Z) :
  extends (WallBuilder._pack_segment_with_order f1 comp y stripe_top widths_order offset)
          (WallBuilder._pack_segment_with_order f2 comp y stripe_top widths_order offset).
Proof. unfold WallBuilder._pack_segment_with_order. more_fuel. Qed.

Lemma WallBuilder_adaptive_extends (comp : geom) (y stripe_top : Q)
  (widths_order : list Z) (adaptive_height : Q) (offset : Z) :
  extends (WallBuilder._pack_segment_with_order_adaptive f1 comp y stripe_top widths_order
             adaptive_height offset)
          (WallBuilder._pack_segment_with_order_adaptive f2 comp y stripe_top widths_order
             adaptive_height offset).
Proof. unfold WallBuilder._pack_segment_with_order_adaptive. more_fuel. Qed.

Hint Resolve WallBuilder_pack_segment_with_order_extends WallBuilder_adaptive_extends
  : fuel_db.

Lemma WallBuilder_full_course_extends (polygon : geom) (keepout : option geom)
  (minx maxx : Q) (block_widths : list Z) (block_height : Z) (row_offset : option Z)
  (st : WallBuilder.wall_state) (row : Z) :
  extends (WallBuilder.full_course f1 polygon keepout minx maxx block_widths block_height
             row_offset st row)
          (WallBuilder.full_course f2 polygon keepout minx maxx block_widths block_height
             row_offset st row).
Proof. unfold WallBuilder.full_course. more_fuel. Qed.

Lemma WallBuilder_adaptive_course_extends (polygon : geom) (keepout : option geom)
  (minx maxx : Q) (block_widths : list Z) (block_height : Z) (row_offset : option Z)
  (remaining_space : Q) (row : Z) (st : WallBuilder.wall_state) :
  extends (WallBuilder.adaptive_course f1 polygon keepout minx maxx block_widths
             block_height row_offset remaining_space row st)
          (WallBuilder.adaptive_course f2 polygon keepout minx maxx block_widths
             block_height row_offset remaining_space row st).
Proof. unfold WallBuilder.adaptive_course. more_fuel. Qed.

Hint Resolve WallBuilder_full_course_extends WallBuilder_adaptive_course_extends
  split_extends : fuel_db.

Lemma WallBuilder_pack_wall_extends (polygon : geom) (block_widths : list Z)
  (block_height : Z) (row_offset : option Z) (apertures : list geom) :
  extends (WallBuilder.pack_wall f1 polygon block_widths block_height row_offset apertures)
          (WallBuilder.pack_wall f2 polygon block_widths block_height row_offset apertures).
Proof. unfold WallBuilder.pack_wall, WallBuilder.pack_wall_stdout. more_fuel. Qed.

End MoreFuelWallBuilder.

(** Two runs that both return, return the same. *)
Lemma same_result {A : Type} (run : nat -> outcome A) :
  (forall f1 f2, (f1 <= f2)%nat -> extends (run f1) (run f2)) ->
  forall f1 f2 r1 r2, run f1 = Ret r1 -> run f2 = Ret r2 -> r1 = r2.
Proof.
  intros H f1 f2 r1 r2 H1 H2.
  pose proof (extends_Ret _ _ _ (H f1 (Nat.max f1 f2) (Nat.le_max_l _ _)) H1) as E1.
  pose proof (extends_Ret _ _ _ (H f2 (Nat.max f1 f2) (Nat.le_max_r _ _)) H2) as E2.
  congruence.
Qed.

(** *** Labels follow the order of emission *)

Section Labels.
Context {K : Shapely}.

Lemma std_labels_app (counters : ascii -> Z) (l l' : list Placed) :
  exists counters',
    Main.std_labels counters (l ++ l')
    = Main.std_labels counters l ++ Main.std_labels counters' l'.
Proof.
  revert counters. induction l as [| b l IH]; simpl; intros counters.
  - exists counters. reflexivity.
  - destruct (IH (Main.bump Ascii.eqb counters (Main.letter_of (p_width b)))) as (c' & E).
    exists c'. rewrite E. reflexivity.
Qed.

Lemma custom_labels_app (counts : Main.code -> Z) (l l' : list Custom) :
  exists counts',
    Main.custom_labels counts (l ++ l')
    = Main.custom_labels counts l ++ Main.custom_labels counts' l'.
Proof.
  revert counts. induction l as [| c l IH]; simpl; intros counts.
  - exists counts. reflexivity.
  - destruct (IH (Main.bump Main.code_eqb counts (Main.code_of c))) as (c' & E).
    exists c'. rewrite E. reflexivity.
Qed.

End Labels.

(** C9.  [pack_wall] of main.py is a function of the wall, the apertures and
    the configuration: two runs on the same inputs that return, return the
    same placed list and the same custom list, in the same order, however
    many steps each was allowed; so the labels computed from them are the
    same as well.  Labels follow the emission order: the labels of the first
    pieces of a list do not depend on the pieces after them. *)
Theorem pack_wall_deterministic :
  forall (K : Shapely) (fuel1 fuel2 : nat) (polygon : geom) (block_widths : list Z)
         (block_height : Z) (row_offset : option Z) (apertures : list geom)
         (r1 r2 : list Placed * list Custom),
    Main.pack_wall fuel1 polygon block_widths block_height row_offset apertures = Ret r1 ->
    Main.pack_wall fuel2 polygon block_widths block_height row_offset apertures = Ret r2 ->
    r1 = r2
    /\ Main.create_block_labels (fst r1) (snd r1)
       = Main.create_block_labels (fst r2) (snd r2)
    /\ forall placed' custom',
         firstn (length (fst r1))
                (fst (Main.create_block_labels (fst r1 ++ placed') (snd r1 ++ custom')))
         = fst (Main.create_block_labels (fst r1) (snd r1))
         /\ firstn (length (snd r1))
                   (snd (Main.create_block_labels (fst r1 ++ placed') (snd r1 ++ custom')))
            = snd (Main.create_block_labels (fst r1) (snd r1)).
Proof.
  intros K fuel1 fuel2 polygon bw bh ro aps r1 r2 H1 H2.
  assert (E : r1 = r2).
  { apply (same_result (fun f => Main.pack_wall f polygon bw bh ro aps)
             (fun f1 f2 Hf => Main_pack_wall_extends f1 f2 Hf polygon bw bh ro aps)
             fuel1 fuel2); assumption. }
  split; [exact E |]. split; [rewrite E; reflexivity |].
  intros placed' custom'. unfold Main.create_block_labels. simpl.
  assert (Ls : forall counters l, length (Main.std_labels counters l) = length l).
  { intros counters l. revert counters. induction l; simpl; intros; [| rewrite IHl]; auto. }
  assert (Lc : forall counts l, length (Main.custom_labels counts l) = length l).
  { intros counts l. revert counts. induction l; simpl; intros; [| rewrite IHl]; auto. }
  split.
  - destruct (std_labels_app (fun _ => 0%Z) (fst r1) placed') as (c' & ->).
    rewrite <- (Ls (fun _ => 0%Z) (fst r1)) at 1.
    rewrite firstn_app, Nat.sub_diag, firstn_all. simpl. apply app_nil_r.
  - destruct (custom_labels_app (fun _ => 0%Z) (snd r1) custom') as (c' & ->).
    rewrite <- (Lc (fun _ => 0%Z) (snd r1)) at 1.
    rewrite firstn_app, Nat.sub_diag, firstn_all. simpl. apply app_nil_r.
Qed.

Lemma pack_wall_deterministic_witness :
  @Main.pack_wall Rect.kernel 10 Examples.wall_423 BLOCK_WIDTHS 495 (Some 826%Z) []
  = @Main.pack_wall Rect.kernel 25 Examples.wall_423 BLOCK_WIDTHS 495 (Some 826%Z) []
  /\ @Main.create_block_labels Rect.kernel [_mk_std 0 0 413 495] [Examples.residual_423]
     = ([("C"%char, 1%Z)], [(Main.code_1, 1%Z)]).
Proof.
  assert (E1 : @Main.pack_wall Rect.kernel 10 Examples.wall_423 BLOCK_WIDTHS 495
                 (Some 826%Z) [] = Ret ([_mk_std 0 0 413 495], [Examples.residual_423]))
    by reflexivity.
  assert (E2 : @Main.pack_wall Rect.kernel 25 Examples.wall_423 BLOCK_WIDTHS 495
                 (Some 826%Z) [] = Ret ([_mk_std 0 0 413 495], [Examples.residual_423]))
    by reflexivity.
  destruct (@pack_wall_deterministic Rect.kernel 10 25 Examples.wall_423 BLOCK_WIDTHS 495
              (Some 826%Z) [] _ _ E1 E2) as (E & L & _).
  split; [rewrite E1, E2; reflexivity |].
  reflexivity.
Defined.

(** [pack_wall] of core/wall_builder.py is a function of its arguments as
    well: two runs that return, return the same lists. *)
Lemma WallBuilder_pack_wall_deterministic {K : Shapely} (fuel1 fuel2 : nat)
  (polygon : geom) (block_widths : list Z) (block_height : Z) (row_offset : option Z)
  (apertures : list geom) (r1 r2 : list Placed * list Custom) :
  WallBuilder.pack_wall fuel1 polygon block_widths block_height row_offset apertures
  = Ret r1 ->
  WallBuilder.pack_wall fuel2 polygon block_widths block_height row_offset apertures
  = Ret r2 ->
  r1 = r2.
Proof.
  apply (same_result
           (fun f => WallBuilder.pack_wall f polygon block_widths block_height
                                           row_offset apertures)
           (fun f1 f2 Hf => WallBuilder_pack_wall_extends f1 f2 Hf polygon block_widths
                                                          block_height row_offset
                                                          apertures)).
Qed.

(** ** Coverage *)

(** C1, as stated, fails.  On a wall of 423 x 495 without apertures
    core/wall_builder.py places one block of 413 and stops: the 10 that are
    left are not more than MICRO_REST, so the residual, of area 4950, is
    dropped, and the area not accounted for is far above AREA_EPS times the
    one piece. *)
Lemma coverage_counterexample :
  let residual :=
    @intersection Rect.kernel (@box Rect.kernel 413 0 423 495) Examples.wall_423 in
  @WallBuilder.pack_wall Rect.kernel 10 Examples.wall_423 BLOCK_WIDTHS 495 (Some 826%Z) []
  = Ret ([_mk_std 0 0 413 495], [])
  /\ @is_empty Rect.kernel residual = false
  /\ AREA_EPS <= @area Rect.kernel residual
  /\ ~ @coverage Rect.kernel (@area Rect.kernel Examples.wall_423)
                 [_mk_std 0 0 413 495] [].
Proof.
  intros residual.
  split; [reflexivity |]. split; [reflexivity |]. split.
  - vm_compute. discriminate.
  - unfold coverage. vm_compute. intros H. apply H. reflexivity.
Qed.

(** The end of a segment in core/wall_builder.py: the cursor is left of the
    segment's right edge and no width was placed.  The residual is emitted
    if and only if the remaining width is greater than MICRO_REST and the
    residual is non-empty with area >= AREA_EPS. *)
Lemma tail_rule :
  forall (K : Shapely) (comp : geom) (y stripe_top seg_maxx cursor : Z)
         (widths_order : list Z) (placed : list Placed) (custom : list Custom),
    let spazio_rimanente := inject_Z seg_maxx - inject_Z cursor in
    let residual :=
      intersection (box (inject_Z cursor) (inject_Z y)
                        (inject_Z seg_maxx) (inject_Z stripe_top)) comp in
    inject_Z cursor < inject_Z seg_maxx - COORD_EPS ->
    WallBuilder.first_fit comp y stripe_top cursor spazio_rimanente widths_order
                          widths_order = Ret None ->
    (MICRO_REST_MM < spazio_rimanente -> is_empty residual = false ->
     AREA_EPS <= area residual ->
     forall c, WallBuilder._mk_custom residual widths_order = Ret c ->
       WallBuilder.pack_body comp y stripe_top seg_maxx widths_order
                             (cursor, placed, custom)
       = Ret (inr (placed, custom ++ [c])))
    /\ (spazio_rimanente <= MICRO_REST_MM \/ is_empty residual = true
        \/ area residual < AREA_EPS ->
        WallBuilder.pack_body comp y stripe_top seg_maxx widths_order
                              (cursor, placed, custom)
        = Ret (inr (placed, custom))).
Proof.
  intros K comp y stripe_top seg_maxx cursor widths_order placed custom
         spazio_rimanente residual Hloop Hfit.
  unfold WallBuilder.pack_body.
  apply Qltb_lt in Hloop. rewrite Hloop.
  fold spazio_rimanente. rewrite Hfit. simpl.
  unfold WallBuilder.tail. fold residual. split.
  - intros Hw Hne Ha c Hc.
    apply Qltb_lt in Hw. rewrite Hw.
    apply Qle_bool_iff in Ha. rewrite Hne, Ha. simpl. rewrite Hc. reflexivity.
  - intros [Hw | [He | Ha]].
    + apply Qltb_ge in Hw. rewrite Hw. reflexivity.
    + rewrite He. simpl. destruct (Qltb MICRO_REST_MM spazio_rimanente); reflexivity.
    + apply Qle_bool_gt in Ha. rewrite Ha, andb_false_r.
      destruct (Qltb MICRO_REST_MM spazio_rimanente); reflexivity.
Qed.


(** ** Where the older copy in main.py differs

    main.py keeps the packer that core/wall_builder.py was made from.  The
    properties above that are stated for core/wall_builder.py do not carry
    over to it, as these runs show. *)

(** No adaptive threshold: a wall of 413 x 100 gets a course, truncated at
    the top of the wall, and a block of the full height in it. *)
Example Main_packs_a_short_wall :
  @Main.pack_wall Rect.kernel 10 (Rect.r_box 0 0 413 100) BLOCK_WIDTHS 495 (Some 826%Z) []
  = Ret ([_mk_std 0 0 413 495], [])
  /\ @WallBuilder.pack_wall Rect.kernel 10 (Rect.r_box 0 0 413 100) BLOCK_WIDTHS 495
                            (Some 826%Z) []
     = Ret ([], []).
Proof. split; reflexivity. Qed.

(** The strict test: the candidate of 413 on the notched wall meets the wall
    in more than 99.9% of its area; core/wall_builder.py places a standard
    block, main.py cuts a custom piece. *)
Example Main_fit_is_strict :
  let candidate := @box Rect.kernel 0 0 413 495 in
  let meet := @intersection Rect.kernel candidate Examples.wall_notched in
  95 # 100 <= @area Rect.kernel meet / @area Rect.kernel candidate
  /\ @WallBuilder.candidate_piece Rect.kernel Examples.wall_notched 0 495 0 413
                                  [1239; 826; 413]%Z
     = Ret (Some (WallBuilder.std_piece (_mk_std 0 0 413 495)))
  /\ @Main.first_fit Rect.kernel Examples.wall_notched 0 495 418 0 [] []
                     [1239; 826; 413]%Z
     = Ret (Some (413%Z, [], [@mkCustom Rect.kernel 413 495 0 0 meet None None None])).
Proof.
  split; [vm_compute; discriminate |]. split; reflexivity.
Qed.

(** The tagging of main.py compares the width with 413 + 5, not with
    1239 + 5: the notched wall comes out as one piece of 418 x 495 tagged
    "out_of_spec". *)
Example Main_tags_418_out_of_spec :
  @Main.pack_wall Rect.kernel 10 Examples.wall_notched BLOCK_WIDTHS 495 (Some 826%Z) []
  = Ret ([], [@mkCustom Rect.kernel 418 495 0 0
                [Rect.mkBox 0 0 413 490; Rect.mkBox 10 490 413 495;
                 Rect.mkBox 413 0 418 490; Rect.mkBox 413 490 418 495]
                None None (Some out_of_spec)]).
Proof. reflexivity. Qed.

(** The tagging of core/wall_builder.py, taken alone, calls a piece of
    exactly 1239 + 5 by 495 "out_of_spec"; no such piece reaches it in
    [pack_wall], where the split comes first. *)
Example WallBuilder_tags_1244_out_of_spec :
  forall (K : Shapely) (g : geom),
    WallBuilder.validate_and_tag_customs [mkCustom 1244 495 0 0 g None None None]
    = Ret [mkCustom 1244 495 0 0 g None None (Some out_of_spec)].
Proof. intros K g. reflexivity. Qed.

(** ** Coverage of one segment in core/wall_builder.py *)

Section SegmentCoverage.
Context {K : Shapely}.
Variables (comp : geom) (y stripe_top : Z) (widths_order : list Z) (seg_minx seg_maxx : Z).
Hypothesis laws : measures_strips comp y stripe_top.
Hypothesis course : (y <= stripe_top <= y + BLOCK_HEIGHT)%Z.
Hypothesis segment : (seg_minx <= seg_maxx)%Z.

Let SA := strip_area comp y stripe_top.
Let height : Q := inject_Z stripe_top - inject_Z y.

Lemma height_bounds : 0 <= height /\ height <= inject_Z BLOCK_HEIGHT.
Proof.
  unfold height. destruct course as [H1 H2].
  rewrite Zle_Qle in H1, H2. rewrite inject_Z_plus in H2. lra.
Qed.

Lemma covered_area_std (placed : list Placed) (custom : list Custom) (p : Placed) :
  covered_area (placed ++ [p]) custom == covered_area placed custom + std_area p.
Proof.
  unfold covered_area.
  assert (E : fold_right (fun p s => std_area p + s) 0 (placed ++ [p])
              == fold_right (fun p s => std_area p + s) 0 placed + std_area p).
  { induction placed as [| a l IH]; simpl; [ring | rewrite IH; ring]. }
  rewrite E. ring.
Qed.

Lemma covered_area_custom (placed : list Placed) (custom : list Custom) (c : Custom) :
  covered_area placed (custom ++ [c])
  == covered_area placed custom + area (c_geometry c).
Proof.
  unfold covered_area.
  assert (E : fold_right (fun c s => area (c_geometry c) + s) 0 (custom ++ [c])
              == fold_right (fun c s => area (c_geometry c) + s) 0 custom
                 + area (c_geometry c)).
  { induction custom as [| a l IH]; simpl; [ring | rewrite IH; ring]. }
  rewrite E. ring.
Qed.

Lemma covered_area_emit (pc : WallBuilder.piece) (placed : list Placed)
  (custom : list Custom) :
  covered_area (fst (WallBuilder.emit pc placed custom))
               (snd (WallBuilder.emit pc placed custom))
  == covered_area placed custom + piece_area pc.
Proof.
  destruct pc; simpl; [apply covered_area_std | apply covered_area_custom].
Qed.

(** [_mk_custom] stores the sanitized polygon. *)
Lemma WallBuilder_mk_custom_geometry (g : geom) (ws : list Z) (c : Custom) :
  WallBuilder._mk_custom g ws = Ret c -> sanitize_polygon g = Ret (c_geometry c).
Proof.
  unfold WallBuilder._mk_custom. intros H.
  apply bind_Ret in H. destruct H as (g' & Hg & H). rewrite Hg.
  destruct (bounds g') as [[[minx miny] maxx] maxy].
  apply bind_Ret in H. destruct H as (sbw & _ & H).
  inversion H; subst. reflexivity.
Qed.

(** The custom piece cut from a strip has the area of the component within
    the strip. *)
Lemma custom_of_strip (a b : Q) (ws : list Z) (c : Custom) :
  WallBuilder._mk_custom
    (intersection (box a (inject_Z y) b (inject_Z stripe_top)) comp) ws = Ret c ->
  area (c_geometry c) = SA a b.
Proof.
  intros H. apply WallBuilder_mk_custom_geometry in H.
  unfold sanitize_polygon in H. rewrite (@strips_valid _ _ _ _ laws _ _) in H.
  inversion H as [E]. reflexivity.
Qed.

(** A piece emitted for a candidate of positive width accounts for at least
    the component within the candidate. *)
Lemma candidate_covers (cursor w : Z) (pc : WallBuilder.piece) :
  (0 < w)%Z ->
  WallBuilder.candidate_piece comp y stripe_top cursor w widths_order = Ret (Some pc) ->
  SA (inject_Z cursor) (inject_Z cursor + inject_Z w) <= piece_area pc.
Proof.
  intros Hw. unfold WallBuilder.candidate_piece.
  destruct (negb (is_empty _) && Qle_bool AREA_EPS (area _)); [| discriminate].
  intros H. apply bind_Ret in H. destruct H as (ratio & _ & H).
  destruct (Qle_bool (95 # 100) ratio).
  - inversion H; subst; clear H. simpl. unfold std_area, _mk_std. simpl.
    assert (Hw' : 0 < inject_Z w) by (change 0 with (inject_Z 0); rewrite <- Zlt_Qlt; exact Hw).
    assert (Hle : inject_Z cursor <= inject_Z cursor + inject_Z w) by lra.
    pose proof (@strips_box _ _ _ _ laws _ _ Hle) as B. fold SA in B. fold height in B.
    destruct height_bounds as [H0 H1].
    apply Qle_trans with ((inject_Z cursor + inject_Z w - inject_Z cursor) * height);
      [exact B |].
    assert (X : (inject_Z cursor + inject_Z w - inject_Z cursor) * height
                == inject_Z w * height) by ring.
    rewrite X. apply Qmult_le_l; assumption.
  - apply bind_Ret in H. destruct H as (c & Hc & H).
    inversion H; subst; clear H. simpl.
    rewrite (custom_of_strip _ _ _ _ Hc). apply Qle_refl.
Qed.

Lemma first_fit_found (cursor : Z) (spazio_rimanente : Q) (widths : list Z) (w : Z)
  (pc : WallBuilder.piece) :
  WallBuilder.first_fit comp y stripe_top cursor spazio_rimanente widths_order widths
  = Ret (Some (w, pc)) ->
  In w widths
  /\ WallBuilder.candidate_piece comp y stripe_top cursor w widths_order = Ret (Some pc).
Proof.
  induction widths as [| b rest IH]; simpl; [discriminate |].
  destruct (Qle_bool (inject_Z b) (spazio_rimanente + COORD_EPS)).
  - intros H. apply bind_Ret in H. destruct H as ([pc' |] & Hc & H).
    + inversion H; subst. auto.
    + destruct (IH H). auto.
  - intros H. destruct (IH H). auto.
Qed.

Hypothesis positive : Forall (fun w => (0 < w)%Z) widths_order.

Let bound : Q := Qmax AREA_EPS (MICRO_REST_MM * height).

(** The pieces so far account for the component up to the cursor. *)
Let covered_to (st : Z * list Placed * list Custom) : Prop :=
  (seg_minx <= fst (fst st))%Z
  /\ SA (inject_Z seg_minx) (inject_Z (fst (fst st)))
     <= covered_area (snd (fst st)) (snd st).

Let covered_but_tail (r : list Placed * list Custom) : Prop :=
  SA (inject_Z seg_minx) (inject_Z seg_maxx) - covered_area (fst r) (snd r) <= bound.

Lemma bound_pos : 0 <= bound /\ AREA_EPS <= bound /\ MICRO_REST_MM * height <= bound.
Proof.
  unfold bound. pose proof (Q.le_max_l AREA_EPS (MICRO_REST_MM * height)) as A.
  pose proof (Q.le_max_r AREA_EPS (MICRO_REST_MM * height)) as B.
  unfold AREA_EPS in *. repeat split; lra.
Qed.

Lemma advance (cursor w : Z) (pc : WallBuilder.piece) (placed : list Placed)
  (custom : list Custom) :
  (0 < w)%Z ->
  covered_to (cursor, placed, custom) ->
  WallBuilder.candidate_piece comp y stripe_top cursor w widths_order = Ret (Some pc) ->
  covered_to (snap (inject_Z cursor + inject_Z w),
              fst (WallBuilder.emit pc placed custom),
              snd (WallBuilder.emit pc placed custom)).
Proof.
  intros Hw [Hm Hc] Hp. unfold covered_to in *. simpl in *.
  rewrite snap_plus. split; [lia |].
  rewrite covered_area_emit.
  pose proof (candidate_covers _ _ _ Hw Hp) as C.
  assert (L1 : inject_Z seg_minx <= inject_Z cursor) by (rewrite <- Zle_Qle; exact Hm).
  assert (L2 : inject_Z cursor <= inject_Z cursor + inject_Z w).
  { assert (0 < inject_Z w) by (change 0 with (inject_Z 0); rewrite <- Zlt_Qlt; exact Hw).
    lra. }
  pose proof (@strips_add _ _ _ _ laws _ _ _ L1 L2) as A.
  fold SA in A. rewrite inject_Z_plus. lra.
Qed.

Lemma body_step (st st' : Z * list Placed * list Custom) :
  covered_to st ->
  WallBuilder.pack_body comp y stripe_top seg_maxx widths_order st = Ret (inl st') ->
  covered_to st'.
Proof.
  destruct st as [[cursor placed] custom]. intros Hinv. unfold WallBuilder.pack_body.
  destruct (Qltb (inject_Z cursor) (inject_Z seg_maxx - COORD_EPS)); [| discriminate].
  intros H. apply bind_Ret in H. destruct H as ([[w pc] |] & Hf & H).
  - apply first_fit_found in Hf. destruct Hf as [Hin Hc].
    rewrite Forall_forall in positive.
    pose proof (advance _ _ _ _ _ (positive _ Hin) Hinv Hc) as A.
    destruct (WallBuilder.emit pc placed custom) as [p' c'].
    inversion H; subst. exact A.
  - apply bind_Ret in H. destruct H as (c & _ & H). discriminate.
Qed.

Lemma body_exit (st : Z * list Placed * list Custom) (r : list Placed * list Custom) :
  covered_to st ->
  WallBuilder.pack_body comp y stripe_top seg_maxx widths_order st = Ret (inr r) ->
  covered_but_tail r.
Proof.
  destruct st as [[cursor placed] custom]. intros [Hm Hc]. simpl in Hm, Hc.
  unfold WallBuilder.pack_body, covered_but_tail.
  destruct bound_pos as (B0 & B1 & B2).
  destruct height_bounds as [H0 H1].
  assert (L1 : inject_Z seg_minx <= inject_Z cursor) by (rewrite <- Zle_Qle; exact Hm).
  destruct (Qltb (inject_Z cursor) (inject_Z seg_maxx - COORD_EPS)) eqn:Hloop.
  - (* no width was placed: the tail *)
    apply Qltb_lt in Hloop. unfold COORD_EPS in Hloop.
    assert (L2 : inject_Z cursor <= inject_Z seg_maxx) by lra.
    pose proof (@strips_add _ _ _ _ laws _ _ _ L1 L2) as A. fold SA in A.
    pose proof (@strips_box _ _ _ _ laws _ _ L2) as Bx. fold SA in Bx. fold height in Bx.
    intros H. apply bind_Ret in H. destruct H as ([[w pc] |] & Hf & H).
    + destruct (WallBuilder.emit pc placed custom); discriminate.
    + apply bind_Ret in H. destruct H as (custom' & Ht & H).
      inversion H; subst; clear H. simpl.
      unfold WallBuilder.tail in Ht.
      destruct (Qltb MICRO_REST_MM (inject_Z seg_maxx - inject_Z cursor)) eqn:Hw.
      * destruct (is_empty _) eqn:He in Ht; simpl in Ht.
        -- inversion Ht; subst.
           pose proof (@strips_empty _ _ _ _ laws _ _ He) as S. fold SA in S. lra.
        -- destruct (Qle_bool AREA_EPS (area _)) eqn:Ha in Ht.
           ++ apply bind_Ret in Ht. destruct Ht as (c & Hc' & Ht).
              inversion Ht; subst. rewrite covered_area_custom.
              rewrite (custom_of_strip _ _ _ _ Hc'). lra.
           ++ inversion Ht; subst. apply Qle_bool_gt in Ha.
              change (area _) with (SA (inject_Z cursor) (inject_Z seg_maxx)) in Ha. lra.
      * inversion Ht; subst. apply Qltb_ge in Hw.
        assert (X : (inject_Z seg_maxx - inject_Z cursor) * height
                    <= MICRO_REST_MM * height)
          by (apply Qmult_le_compat_r; assumption).
        lra.
  - (* the cursor reached the right edge *)
    intros H. inversion H; subst; clear H. simpl.
    apply Qltb_ge in Hloop. unfold COORD_EPS in Hloop.
    assert (Hz : (seg_maxx <= cursor)%Z).
    { destruct (Z_le_gt_dec seg_maxx cursor) as [L | G]; [exact L |].
      exfalso. assert (G' : (cursor + 1 <= seg_maxx)%Z) by lia.
      rewrite Zle_Qle, inject_Z_plus in G'. change (inject_Z 1) with 1 in G'. lra. }
    assert (L0 : inject_Z seg_minx <= inject_Z seg_maxx) by (rewrite <- Zle_Qle; exact segment).
    assert (L2 : inject_Z seg_maxx <= inject_Z cursor) by (rewrite <- Zle_Qle; exact Hz).
    pose proof (@strips_add _ _ _ _ laws _ _ _ L0 L2) as A. fold SA in A.
    pose proof (@strips_pos _ _ _ _ laws (inject_Z seg_maxx) (inject_Z cursor)) as P.
    fold SA in P. lra.
Qed.

Lemma offset_slot_covered (offset : Z) (st : Z * list Placed * list Custom) :
  (0 <= offset)%Z ->
  WallBuilder.offset_slot comp y stripe_top seg_maxx seg_minx offset widths_order = Ret st ->
  covered_to st.
Proof.
  intros Ho.
  assert (I0 : covered_to (seg_minx, [], [])).
  { unfold covered_to. simpl. split; [lia |].
    pose proof (@strips_box _ _ _ _ laws _ _ (Qle_refl (inject_Z seg_minx))) as B.
    fold SA in B. unfold covered_area. simpl. lra. }
  unfold WallBuilder.offset_slot.
  destruct (Z.eqb_spec offset 0) as [-> | Hne]; simpl.
  - intros H; inversion H; subst. exact I0.
  - destruct (Qle_bool _ _); [| intros H; inversion H; subst; exact I0].
    intros H. apply bind_Ret in H. destruct H as ([pc |] & Hc & H).
    + assert (Hpos : (0 < offset)%Z) by lia.
      pose proof (advance _ _ _ _ _ Hpos I0 Hc) as A.
      destruct (WallBuilder.emit pc [] []) as [p' c'].
      inversion H; subst. exact A.
    + inversion H; subst. exact I0.
Qed.

Lemma loop_covered (fuel : nat) (st : Z * list Placed * list Custom)
  (r : list Placed * list Custom) :
  covered_to st ->
  while_loop fuel (WallBuilder.pack_body comp y stripe_top seg_maxx widths_order) st
  = Ret r ->
  covered_but_tail r.
Proof.
  intros Hst H.
  apply (while_loop_inv covered_to covered_but_tail H Hst).
  - intros s s' Hs Hb. exact (body_step _ _ Hs Hb).
  - intros s r' Hs Hb. exact (body_exit _ _ Hs Hb).
Qed.

End SegmentCoverage.

(** *** The rectilinear geometry measures the strips of a rectangle *)

Module RectMeasure.
Import Rect.

(** Case analysis on every minimum and maximum of the goal, then linear
    arithmetic. *)
Ltac min_max_cases :=
  repeat match goal with
         | |- context [Qmax ?a ?b] =>
             let H1 := fresh in let H2 := fresh in
             destruct (Q.max_spec a b) as [[H1 H2] | [H1 H2]];
             revert H1 H2; generalize (Qmax a b); intro
         | |- context [Qmin ?a ?b] =>
             let H1 := fresh in let H2 := fresh in
             destruct (Q.min_spec a b) as [[H1 H2] | [H1 H2]];
             revert H1 H2; generalize (Qmin a b); intro
         end;
  intros; lra.

Lemma r_area_one (b : Box) : r_area [b] == (x1 b - x0 b) * (y1 b - y0 b).
Proof. unfold r_area. simpl. ring. Qed.

Lemma overlap_pos (a b lo hi : Q) : 0 <= overlap a b lo hi.
Proof. unfold overlap. apply Q.le_max_l. Qed.

Lemma make_area (p q r s : Q) :
  r_area (make p q r s) == Qmax 0 (r - p) * Qmax 0 (s - q).
Proof.
  unfold make. destruct (Qltb p r) eqn:A; destruct (Qltb q s) eqn:B; simpl.
  - apply Qltb_lt in A. apply Qltb_lt in B. rewrite r_area_one. simpl.
    rewrite (Q.max_r 0 (r - p)) by lra. rewrite (Q.max_r 0 (s - q)) by lra. reflexivity.
  - apply Qltb_ge in B. rewrite (Q.max_l 0 (s - q)) by lra. unfold r_area. simpl. ring.
  - apply Qltb_ge in A. rewrite (Q.max_l 0 (r - p)) by lra. unfold r_area. simpl. ring.
  - apply Qltb_ge in A. rewrite (Q.max_l 0 (r - p)) by lra. unfold r_area. simpl. ring.
Qed.

Lemma r_intersection_one (c bx : Box) : r_intersection [c] [bx] = inter_box c bx.
Proof. unfold r_intersection. cbn [flat_map]. rewrite !app_nil_r. reflexivity. Qed.

(** The area of a rectangle within a strip. *)
Lemma strip_of_box (bx : Box) (a b ya yb : Q) :
  a <= b -> ya <= yb ->
  r_area (r_intersection (r_box a ya b yb) [bx])
  == overlap a b (x0 bx) (x1 bx) * overlap ya yb (y0 bx) (y1 bx).
Proof.
  intros Hab Hy. unfold r_box, make.
  destruct (Qltb (Qmin a b) (Qmax a b)) eqn:A;
    destruct (Qltb (Qmin ya yb) (Qmax ya yb)) eqn:B; cbn [andb].
  - rewrite r_intersection_one. unfold inter_box. cbn [x0 y0 x1 y1].
    rewrite make_area. unfold overlap.
    assert (EX : Qmax 0 (Qmin (Qmax a b) (x1 bx) - Qmax (Qmin a b) (x0 bx))
                 == Qmax 0 (Qmin b (x1 bx) - Qmax a (x0 bx))) by min_max_cases.
    assert (EY : Qmax 0 (Qmin (Qmax ya yb) (y1 bx) - Qmax (Qmin ya yb) (y0 bx))
                 == Qmax 0 (Qmin yb (y1 bx) - Qmax ya (y0 bx))) by min_max_cases.
    rewrite EX, EY. reflexivity.
  - apply Qltb_ge in B.
    assert (EY : overlap ya yb (y0 bx) (y1 bx) == 0).
    { unfold overlap. revert B. min_max_cases. }
    rewrite EY. unfold r_area. simpl. ring.
  - apply Qltb_ge in A.
    assert (EX : overlap a b (x0 bx) (x1 bx) == 0).
    { unfold overlap. revert A. min_max_cases. }
    rewrite EX. unfold r_area. simpl. ring.
  - apply Qltb_ge in A.
    assert (EX : overlap a b (x0 bx) (x1 bx) == 0).
    { unfold overlap. revert A. min_max_cases. }
    rewrite EX. unfold r_area. simpl. ring.
Qed.

Lemma overlap_add (a b c lo hi : Q) :
  a <= b -> b <= c -> overlap a c lo hi == overlap a b lo hi + overlap b c lo hi.
Proof. intros Hab Hbc. unfold overlap. revert Hab Hbc. min_max_cases. Qed.

Lemma overlap_le (a b lo hi : Q) : a <= b -> overlap a b lo hi <= b - a.
Proof. intros Hab. unfold overlap. revert Hab. min_max_cases. Qed.

(** At most one rectangle comes out of the intersection with a strip. *)
Lemma strip_of_box_shape (bx : Box) (a b ya yb : Q) :
  r_intersection (r_box a ya b yb) [bx] = []
  \/ exists i, r_intersection (r_box a ya b yb) [bx] = [i].
Proof.
  unfold r_box, make.
  destruct (Qltb (Qmin a b) (Qmax a b) && Qltb (Qmin ya yb) (Qmax ya yb));
    [| left; reflexivity].
  rewrite r_intersection_one. unfold inter_box, make.
  match goal with |- context [if ?t then _ else _] => destruct t end;
    [right; eexists; reflexivity | left; reflexivity].
Qed.

Lemma strip_area_rect (comp : region) (y stripe_top : Z) (a b : Q) :
  @strip_area kernel comp y stripe_top a b
  = r_area (r_intersection (r_box a (inject_Z y) b (inject_Z stripe_top)) comp).
Proof. reflexivity. Qed.

Lemma measures (bx : Box) (y stripe_top : Z) :
  (y <= stripe_top)%Z -> @measures_strips kernel [bx] y stripe_top.
Proof.
  intros Hy.
  assert (Hy' : inject_Z y <= inject_Z stripe_top) by (rewrite <- Zle_Qle; exact Hy).
  assert (F : forall a b, a <= b ->
            @strip_area kernel [bx] y stripe_top a b
            == overlap a b (x0 bx) (x1 bx)
               * overlap (inject_Z y) (inject_Z stripe_top) (y0 bx) (y1 bx)).
  { intros a b Hab. rewrite strip_area_rect. apply strip_of_box; assumption. }
  constructor.
  - intros a b c Hab Hbc.
    rewrite (F a c) by lra. rewrite (F a b), (F b c) by assumption.
    rewrite (overlap_add a b c) by assumption. ring.
  - intros a b Hab. rewrite (F a b) by assumption.
    pose proof (overlap_pos a b (x0 bx) (x1 bx)).
    pose proof (overlap_pos (inject_Z y) (inject_Z stripe_top) (y0 bx) (y1 bx)).
    pose proof (overlap_le a b (x0 bx) (x1 bx) Hab).
    pose proof (overlap_le (inject_Z y) (inject_Z stripe_top) (y0 bx) (y1 bx) Hy').
    apply Qle_trans with ((b - a) * overlap (inject_Z y) (inject_Z stripe_top) (y0 bx) (y1 bx)).
    + apply Qmult_le_compat_r; assumption.
    + rewrite !(Qmult_comm (b - a)). apply Qmult_le_compat_r; lra.
  - intros a b. rewrite strip_area_rect.
    destruct (strip_of_box_shape bx a b (inject_Z y) (inject_Z stripe_top)) as [E | [i E]].
    + rewrite E. apply Qle_refl.
    + assert (Hi : In i (r_intersection (r_box a (inject_Z y) b (inject_Z stripe_top)) [bx]))
        by (rewrite E; left; reflexivity).
      rewrite E, r_area_one.
      unfold r_intersection in Hi. apply in_flat_map in Hi. destruct Hi as (c & _ & Hi).
      cbn [flat_map] in Hi. rewrite app_nil_r in Hi. unfold inter_box, make in Hi.
      match type of Hi with In _ (if ?t then _ else _) => destruct t eqn:T end;
        [| contradiction].
      destruct Hi as [<- | []]. cbn [x0 y0 x1 y1].
      apply andb_true_iff in T. destruct T as [T1 T2].
      apply Qltb_lt in T1. apply Qltb_lt in T2.
      apply Qmult_le_0_compat; lra.
  - intros a b. rewrite strip_area_rect.
    change (@is_empty kernel
              (@intersection kernel (@box kernel a (inject_Z y) b (inject_Z stripe_top)) [bx]))
      with (match r_intersection (r_box a (inject_Z y) b (inject_Z stripe_top)) [bx] with
            | [] => true
            | _ => false
            end).
    destruct (r_intersection _ _); [intros _; reflexivity | discriminate].
  - intros a b.
    change (@is_valid kernel
              (@intersection kernel (@box kernel a (inject_Z y) b (inject_Z stripe_top)) [bx]))
      with (disjoint (r_intersection (r_box a (inject_Z y) b (inject_Z stripe_top)) [bx])).
    destruct (strip_of_box_shape bx a b (inject_Z y) (inject_Z stripe_top)) as [E | [i E]];
      rewrite E; reflexivity.
Qed.

End RectMeasure.

(** The coverage of one segment: what [_pack_segment_with_order] returns
    accounts for the component between the snapped bounds of the segment,
    but for a tail that was dropped. *)
Lemma segment_covered {K : Shapely} (fuel : nat) (comp : geom) (y stripe_top : Q)
  (widths_order : list Z) (offset : Z) (bx0 by0 bx1 by1 : Q)
  (placed : list Placed) (custom : list Custom) :
  bounds comp = (bx0, by0, bx1, by1) ->
  measures_strips comp (snap y) (snap stripe_top) ->
  (snap y <= snap stripe_top <= snap y + BLOCK_HEIGHT)%Z ->
  (snap bx0 <= snap bx1)%Z ->
  Forall (fun w => (0 < w)%Z) widths_order ->
  (0 <= offset)%Z ->
  WallBuilder._pack_segment_with_order fuel comp y stripe_top widths_order offset
  = Ret (placed, custom) ->
  strip_area comp (snap y) (snap stripe_top) (inject_Z (snap bx0)) (inject_Z (snap bx1))
  - covered_area placed custom
  <= Qmax AREA_EPS (MICRO_REST_MM * (inject_Z (snap stripe_top) - inject_Z (snap y))).
Proof.
  intros Hb laws course segment positive Ho H.
  unfold WallBuilder._pack_segment_with_order in H. rewrite Hb in H.
  apply bind_Ret in H. destruct H as (st & H0 & H).
  pose proof (offset_slot_covered comp (snap y) (snap stripe_top) widths_order
                (snap bx0) (snap bx1) laws course offset st Ho H0) as I.
  exact (loop_covered comp (snap y) (snap stripe_top) widths_order (snap bx0) (snap bx1)
           laws course segment positive fuel st (placed, custom) I H).
Qed.

(** C1, amended.  In core/wall_builder.py:
    - at the end of a segment (the cursor is left of the segment's right
      edge and no width was placed) the residual, the component within
      [cursor, seg_maxx], is emitted as one custom piece if and only if the
      remaining width is greater than MICRO_REST and the residual is
      non-empty with area >= AREA_EPS; otherwise it is dropped, and either
      way the loop stops;
    - so the coverage of a segment holds up to that tail: for positive
      widths, an offset >= 0 and a course no higher than BLOCK_HEIGHT, on a
      geometry whose areas add up over strips, the area of the component
      between the snapped bounds of the segment, minus the area of the
      emitted standard rectangles and custom geometries, is at most
      max(AREA_EPS, MICRO_REST x course height). *)
Theorem residual_emission_and_segment_coverage :
  forall (K : Shapely) (comp : geom) (widths_order : list Z),
    (forall (y stripe_top seg_maxx cursor : Z) (placed : list Placed)
            (custom : list Custom),
       let spazio_rimanente := inject_Z seg_maxx - inject_Z cursor in
       let residual :=
         intersection (box (inject_Z cursor) (inject_Z y)
                           (inject_Z seg_maxx) (inject_Z stripe_top)) comp in
       inject_Z cursor < inject_Z seg_maxx - COORD_EPS ->
       WallBuilder.first_fit comp y stripe_top cursor spazio_rimanente widths_order
                             widths_order = Ret None ->
       (MICRO_REST_MM < spazio_rimanente -> is_empty residual = false ->
        AREA_EPS <= area residual ->
        forall c, WallBuilder._mk_custom residual widths_order = Ret c ->
          WallBuilder.pack_body comp y stripe_top seg_maxx widths_order
                                (cursor, placed, custom)
          = Ret (inr (placed, custom ++ [c])))
       /\ (spazio_rimanente <= MICRO_REST_MM \/ is_empty residual = true
           \/ area residual < AREA_EPS ->
           WallBuilder.pack_body comp y stripe_top seg_maxx widths_order
                                 (cursor, placed, custom)
           = Ret (inr (placed, custom))))
    /\ (forall (fuel : nat) (y stripe_top : Q) (offset : Z) (bx0 by0 bx1 by1 : Q)
               (placed : list Placed) (custom : list Custom),
          bounds comp = (bx0, by0, bx1, by1) ->
          measures_strips comp (snap y) (snap stripe_top) ->
          (snap y <= snap stripe_top <= snap y + BLOCK_HEIGHT)%Z ->
          (snap bx0 <= snap bx1)%Z ->
          Forall (fun w => (0 < w)%Z) widths_order ->
          (0 <= offset)%Z ->
          WallBuilder._pack_segment_with_order fuel comp y stripe_top widths_order offset
          = Ret (placed, custom) ->
          strip_area comp (snap y) (snap stripe_top)
                     (inject_Z (snap bx0)) (inject_Z (snap bx1))
          - covered_area placed custom
          <= Qmax AREA_EPS
                  (MICRO_REST_MM * (inject_Z (snap stripe_top) - inject_Z (snap y)))).
Proof.
  intros K comp widths_order. split.
  - intros y stripe_top seg_maxx cursor placed custom. apply tail_rule.
  - intros fuel y stripe_top offset bx0 by0 bx1 by1 placed custom.
    apply segment_covered.
Qed.

(** The wall of 423 x 495: after its block of 413 the residual of 10 is
    dropped, and the segment is covered but for these 10 x 495; on a wall of
    443 x 495 the residual of 30 is emitted. *)
Lemma residual_emission_and_segment_coverage_witness :
  @WallBuilder.pack_body Rect.kernel Examples.wall_423 0 495 423 [1239; 826; 413]%Z
                         (413%Z, [_mk_std 0 0 413 495], [])
  = Ret (inr ([_mk_std 0 0 413 495], []))
  /\ @WallBuilder.pack_body Rect.kernel (Rect.r_box 0 0 443 495) 0 495 443
                            [1239; 826; 413]%Z (413%Z, [_mk_std 0 0 413 495], [])
     = Ret (inr ([_mk_std 0 0 413 495],
                 [@mkCustom Rect.kernel 30 495 413 0 [Rect.mkBox 413 0 443 495]
                            (Some 413%Z) (Some 383%Z) None]))
  /\ @strip_area Rect.kernel Examples.wall_423 0 495 0 423
     - @covered_area Rect.kernel [_mk_std 0 0 413 495] []
     <= Qmax AREA_EPS (MICRO_REST_MM * (495 - 0)).
Proof.
  split; [| split].
  - refine (proj2 (proj1 (@residual_emission_and_segment_coverage Rect.kernel
                            Examples.wall_423 [1239; 826; 413]%Z)
                         0%Z 495%Z 423%Z 413%Z [_mk_std 0 0 413 495] [] _ eq_refl) _).
    + vm_compute. reflexivity.
    + left. vm_compute. discriminate.
  - refine (proj1 (proj1 (@residual_emission_and_segment_coverage Rect.kernel
                            (Rect.r_box 0 0 443 495) [1239; 826; 413]%Z)
                         0%Z 495%Z 443%Z 413%Z [_mk_std 0 0 413 495] [] _ eq_refl)
                  _ eq_refl _ _ eq_refl).
    + vm_compute. reflexivity.
    + vm_compute. reflexivity.
    + vm_compute. discriminate.
  - refine (proj2 (@residual_emission_and_segment_coverage Rect.kernel
                     Examples.wall_423 [1239; 826; 413]%Z)
                  10%nat 0 495 0%Z 0 0 423 495 [_mk_std 0 0 413 495] []
                  eq_refl (RectMeasure.measures (Rect.mkBox 0 0 423 495) 0 495 _)
                  _ _ _ _ eq_refl).
    + vm_compute. discriminate.
    + vm_compute. split; discriminate.
    + vm_compute. discriminate.
    + repeat constructor.
    + vm_compute. discriminate.
Defined.

(** * Further properties of the code *)

(** ** The snap grid *)

Lemma py_round_floor_or_next (v : Q) :
  py_round v = Qfloor v \/ py_round v = (Qfloor v + 1)%Z.
Proof.
  unfold py_round.
  destruct (Qcompare (v - inject_Z (Qfloor v)) (1 # 2)); [| auto | auto].
  destruct (Z.even (Qfloor v)); auto.
Qed.

Lemma py_round_near (v : Q) : Qabs (inject_Z (py_round v) - v) <= 1 # 2.
Proof.
  pose proof (Qfloor_le v) as Hl. pose proof (Qlt_floor v) as Hu.
  rewrite inject_Z_plus in Hu. change (inject_Z 1) with 1 in Hu.
  apply Qabs_Qle_condition. unfold py_round.
  destruct (Qcompare (v - inject_Z (Qfloor v)) (1 # 2)) eqn:C.
  - apply Qeq_alt in C.
    destruct (Z.even (Qfloor v));
      [| rewrite inject_Z_plus; change (inject_Z 1) with 1]; split; lra.
  - apply Qlt_alt in C. split; lra.
  - apply Qgt_alt in C. rewrite inject_Z_plus. change (inject_Z 1) with 1. split; lra.
Qed.

Lemma py_round_mono (v w : Q) : v <= w -> (py_round v <= py_round w)%Z.
Proof.
  intros H.
  assert (Hf : (Qfloor v <= Qfloor w)%Z) by (apply Qfloor_resp_le, H).
  destruct (Z.eq_dec (Qfloor v) (Qfloor w)) as [E | NE].
  - unfold py_round. rewrite <- E.
    destruct (Qcompare (v - inject_Z (Qfloor v)) (1 # 2)) eqn:Cv;
      destruct (Qcompare (w - inject_Z (Qfloor v)) (1 # 2)) eqn:Cw;
      try (destruct (Z.even (Qfloor v))); try lia; exfalso;
      repeat match goal with
             | C : Qcompare _ _ = Eq |- _ => apply Qeq_alt in C
             | C : Qcompare _ _ = Lt |- _ => apply Qlt_alt in C
             | C : Qcompare _ _ = Gt |- _ => apply Qgt_alt in C
             end; lra.
  - destruct (py_round_floor_or_next v) as [-> | ->],
             (py_round_floor_or_next w) as [-> | ->]; lia.
Qed.

(** X1.  [snap] (grid 1.0) moves a value by at most half a unit, leaves a
    snapped value where it is, and keeps the order of the values it is
    given. *)
Theorem snap_grid :
  forall v w : Q,
    Qabs (inject_Z (snap v) - v) <= 1 # 2
    /\ snap (inject_Z (snap v)) = snap v
    /\ (v <= w -> (snap v <= snap w)%Z).
Proof.
  intros v w. split; [apply py_round_near |].
  split; [apply snap_inject_Z |]. apply py_round_mono.
Qed.

(** Halves go to the even neighbour: 3/2 and 5/2 both snap to 2. *)
Lemma snap_grid_witness : snap (3 # 2) = 2%Z /\ (snap (3 # 2) <= snap (5 # 2))%Z.
Proof.
  split; [reflexivity |].
  apply (proj2 (proj2 (snap_grid (3 # 2) (5 # 2)))). vm_compute. discriminate.
Defined.

(** ** [min], [max] and [sorted] *)

Lemma fold_min_spec (r : list Z) (a : Z) :
  let m := fold_left Z.min r a in
  (m = a \/ In m r) /\ (m <= a)%Z /\ Forall (fun x => (m <= x)%Z) r.
Proof.
  revert a. induction r as [| b r IH]; simpl; intros a.
  - repeat split; [auto | lia | constructor].
  - destruct (IH (Z.min a b)) as ([E | Hin] & Hle & Hall).
    + repeat split.
      * rewrite E. destruct (Z.min_spec a b) as [[_ ->] | [_ ->]]; auto.
      * lia.
      * constructor; [lia | exact Hall].
    + repeat split; [auto | lia | constructor; [lia | exact Hall]].
Qed.

Lemma fold_max_spec (r : list Z) (a : Z) :
  let m := fold_left Z.max r a in
  (m = a \/ In m r) /\ (a <= m)%Z /\ Forall (fun x => (x <= m)%Z) r.
Proof.
  revert a. induction r as [| b r IH]; simpl; intros a.
  - repeat split; [auto | lia | constructor].
  - destruct (IH (Z.max a b)) as ([E | Hin] & Hle & Hall).
    + repeat split.
      * rewrite E. destruct (Z.max_spec a b) as [[_ ->] | [_ ->]]; auto.
      * lia.
      * constructor; [lia | exact Hall].
    + repeat split; [auto | lia | constructor; [lia | exact Hall]].
Qed.

Lemma py_min_spec (l : list Z) (m : Z) :
  py_min l = Ret m -> In m l /\ Forall (fun x => (m <= x)%Z) l.
Proof.
  destruct l as [| a r]; simpl; intros H; [discriminate |].
  inversion H; subst; clear H.
  destruct (fold_min_spec r a) as ([E | Hin] & Hle & Hall).
  - split; [left; symmetry; exact E | constructor; assumption].
  - split; [right; exact Hin | constructor; assumption].
Qed.

Lemma py_max_spec (l : list Z) (m : Z) :
  py_max l = Ret m -> In m l /\ Forall (fun x => (x <= m)%Z) l.
Proof.
  destruct l as [| a r]; simpl; intros H; [discriminate |].
  inversion H; subst; clear H.
  destruct (fold_max_spec r a) as ([E | Hin] & Hle & Hall).
  - split; [left; symmetry; exact E | constructor; assumption].
  - split; [right; exact Hin | constructor; assumption].
Qed.

Lemma py_min_total (l : list Z) : l <> [] -> exists m, py_min l = Ret m.
Proof. destruct l; [congruence | simpl; eauto]. Qed.

Lemma py_max_total (l : list Z) : l <> [] -> exists m, py_max l = Ret m.
Proof. destruct l; [congruence | simpl; eauto]. Qed.

Lemma insert_desc_perm (a : Z) (l : list Z) : Permutation (a :: l) (insert_desc a l).
Proof.
  induction l as [| b r IH]; simpl; [apply Permutation_refl |].
  destruct (b <? a)%Z; [apply Permutation_refl |].
  apply perm_trans with (b :: a :: r); [apply perm_swap | apply perm_skip, IH].
Qed.

Lemma sorted_reverse_perm (l : list Z) : Permutation l (sorted_reverse l).
Proof.
  induction l as [| a l IH]; simpl; [apply perm_nil |].
  apply perm_trans with (a :: sorted_reverse l);
    [apply perm_skip, IH | apply insert_desc_perm].
Qed.

Lemma insert_desc_sorted (a : Z) (l : list Z) :
  StronglySorted Z.ge l -> StronglySorted Z.ge (insert_desc a l).
Proof.
  induction 1 as [| b r Hr IH Hb]; simpl.
  - repeat constructor.
  - destruct (Z.ltb_spec b a) as [Hlt | Hge].
    + constructor; [constructor; assumption |].
      constructor; [lia |].
      rewrite Forall_forall in Hb |- *. intros x Hx. specialize (Hb x Hx). lia.
    + constructor; [exact IH |].
      rewrite Forall_forall in Hb |- *. intros x Hx.
      apply (Permutation_in _ (Permutation_sym (insert_desc_perm a r))) in Hx.
      destruct Hx as [<- | Hx]; [lia | auto].
Qed.

Lemma sorted_reverse_sorted (l : list Z) : StronglySorted Z.ge (sorted_reverse l).
Proof.
  induction l as [| a l IH]; simpl; [constructor | apply insert_desc_sorted, IH].
Qed.

Lemma desc_sorted_unique (l l' : list Z) :
  StronglySorted Z.ge l -> StronglySorted Z.ge l' -> Permutation l l' -> l = l'.
Proof.
  intros Hl. revert l'. induction Hl as [| a r Hr IH Ha]; intros l' Hl' P.
  - apply Permutation_nil in P. congruence.
  - destruct Hl' as [| a' r' Hr' Ha'].
    + apply Permutation_sym, Permutation_nil in P. discriminate.
    + assert (E : a = a').
      { assert (I1 : In a (a' :: r')) by (apply (Permutation_in _ P); left; reflexivity).
        assert (I2 : In a' (a :: r))
          by (apply (Permutation_in _ (Permutation_sym P)); left; reflexivity).
        rewrite Forall_forall in Ha, Ha'.
        destruct I1 as [E | I1]; [auto |]. destruct I2 as [E | I2]; [auto |].
        specialize (Ha _ I2). specialize (Ha' _ I1). lia. }
      subst a'. f_equal. apply IH; [exact Hr' |].
      apply Permutation_cons_inv with a, P.
Qed.

(** [sorted] forgets the order of its argument. *)
Lemma sorted_reverse_permutation (l l' : list Z) :
  Permutation l l' -> sorted_reverse l = sorted_reverse l'.
Proof.
  intros P. apply desc_sorted_unique; try apply sorted_reverse_sorted.
  apply perm_trans with l; [apply Permutation_sym, sorted_reverse_perm |].
  apply perm_trans with l'; [exact P | apply sorted_reverse_perm].
Qed.

Lemma py_min_permutation (l l' : list Z) : Permutation l l' -> py_min l = py_min l'.
Proof.
  intros P. destruct l as [| a r].
  - apply Permutation_nil in P. subst. reflexivity.
  - destruct l' as [| a' r'];
      [apply Permutation_sym, Permutation_nil in P; discriminate |].
    destruct (py_min_total (a :: r)) as (m & Hm); [discriminate |].
    destruct (py_min_total (a' :: r')) as (m' & Hm'); [discriminate |].
    rewrite Hm, Hm'. f_equal.
    destruct (py_min_spec _ _ Hm) as (I & A), (py_min_spec _ _ Hm') as (I' & A').
    rewrite Forall_forall in A, A'.
    pose proof (A _ (Permutation_in _ (Permutation_sym P) I')).
    pose proof (A' _ (Permutation_in _ P I)). lia.
Qed.

(** ** The source block of a custom piece (core/wall_builder.py) *)

Lemma choose_optimal_total (required_width : Z) (available_widths : list Z) :
  available_widths <> [] ->
  exists b,
    WallBuilder.choose_optimal_source_block_for_custom required_width available_widths
    = Ret b.
Proof.
  intros Hne. unfold WallBuilder.choose_optimal_source_block_for_custom.
  destruct available_widths as [| w0 ws0] eqn:Ews; [congruence |]. rewrite <- Ews.
  destruct (filter (fun w => (required_width <=? w)%Z) available_widths) eqn:F.
  - apply py_max_total. rewrite Ews. discriminate.
  - apply py_min_total. discriminate.
Qed.

Lemma choose_optimal_cases (required_width : Z) (available_widths : list Z) (b : Z) :
  available_widths <> [] ->
  WallBuilder.choose_optimal_source_block_for_custom required_width available_widths
  = Ret b ->
  In b available_widths
  /\ ((exists w, In w available_widths /\ (required_width <= w)%Z) ->
      (required_width <= b)%Z
      /\ forall w, In w available_widths -> (required_width <= w)%Z -> (b <= w)%Z)
  /\ ((forall w, In w available_widths -> (w < required_width)%Z) ->
      forall w, In w available_widths -> (w <= b)%Z).
Proof.
  intros Hne. unfold WallBuilder.choose_optimal_source_block_for_custom.
  destruct available_widths as [| w0 ws0] eqn:Ews; [congruence |]. rewrite <- Ews.
  clear Hne Ews.
  destruct (filter (fun w => (required_width <=? w)%Z) available_widths)
    as [| s0 ss] eqn:F.
  - intros Hb. destruct (py_max_spec _ _ Hb) as (I & A). rewrite Forall_forall in A.
    split; [exact I |]. split.
    + intros (w & Hw & Hle). exfalso.
      assert (Hin : In w (filter (fun w => (required_width <=? w)%Z) available_widths))
        by (apply filter_In; split; [exact Hw | apply Z.leb_le, Hle]).
      rewrite F in Hin. exact Hin.
    + intros _ w Hw. apply A, Hw.
  - rewrite <- F. intros Hb.
    destruct (py_min_spec _ _ Hb) as (I & A). rewrite Forall_forall in A.
    apply filter_In in I. destruct I as (I & Hle). apply Z.leb_le in Hle.
    split; [exact I |]. split.
    + intros _. split; [exact Hle |]. intros w Hw Hrw.
      apply A, filter_In. split; [exact Hw | apply Z.leb_le, Hrw].
    + intros Hall. specialize (Hall b I). lia.
Qed.

(** X2.  [choose_optimal_source_block_for_custom]: with no width available
    the required width itself comes back; otherwise the answer is one of the
    available widths: the smallest that is at least the required width when
    there is one, else the largest of all. *)
Theorem choose_optimal_source_block :
  forall (required_width : Z) (available_widths : list Z),
    (available_widths = [] ->
     WallBuilder.choose_optimal_source_block_for_custom required_width available_widths
     = Ret required_width)
    /\ (available_widths <> [] ->
        exists b,
          WallBuilder.choose_optimal_source_block_for_custom required_width
                                                             available_widths
          = Ret b
          /\ In b available_widths
          /\ ((exists w, In w available_widths /\ (required_width <= w)%Z) ->
              (required_width <= b)%Z
              /\ forall w, In w available_widths -> (required_width <= w)%Z -> (b <= w)%Z)
          /\ ((forall w, In w available_widths -> (w < required_width)%Z) ->
              forall w, In w available_widths -> (w <= b)%Z)).
Proof.
  intros rw ws. split; [intros ->; reflexivity |].
  intros Hne. destruct (choose_optimal_total rw ws Hne) as (b & Hb).
  exists b. split; [exact Hb |].
  exact (choose_optimal_cases rw ws b Hne Hb).
Qed.

(** A piece of 600 is cut from the block of 826, one of 1300 from the
    largest block. *)
Lemma choose_optimal_source_block_witness :
  WallBuilder.choose_optimal_source_block_for_custom 600 [1239; 826; 413]%Z = Ret 826%Z
  /\ WallBuilder.choose_optimal_source_block_for_custom 1300 [1239; 826; 413]%Z
     = Ret 1239%Z
  /\ WallBuilder.choose_optimal_source_block_for_custom 600 [] = Ret 600%Z.
Proof.
  split; [reflexivity |]. split; [reflexivity |].
  apply (proj1 (choose_optimal_source_block 600 [])). reflexivity.
Defined.

(** X3.  A custom piece of core/wall_builder.py records the block it is cut
    from and the waste, which is that block's width minus the piece's: with
    no widths given the piece is its own source and the waste is 0; else the
    source is one of the widths, and when some width is at least the
    piece's, the waste is not negative and no such width wastes less. *)
Theorem mk_custom_source_and_waste :
  forall (K : Shapely) (g : geom) (available_widths : list Z) (c : Custom),
    WallBuilder._mk_custom g available_widths = Ret c ->
    exists s,
      c_source_block_width c = Some s
      /\ c_waste c = Some (s - c_width c)%Z
      /\ (available_widths = [] -> s = c_width c)
      /\ (available_widths <> [] -> In s available_widths)
      /\ ((exists w, In w available_widths /\ (c_width c <= w)%Z) ->
          (0 <= s - c_width c)%Z
          /\ forall w, In w available_widths -> (c_width c <= w)%Z ->
               (s - c_width c <= w - c_width c)%Z).
Proof.
  intros K g ws c H. unfold WallBuilder._mk_custom in H.
  apply bind_Ret in H. destruct H as (g' & _ & H).
  destruct (bounds g') as [[[minx miny] maxx] maxy].
  apply bind_Ret in H. destruct H as (s & Hs & H).
  inversion H; subst; clear H. simpl. exists s.
  split; [reflexivity |]. split; [reflexivity |].
  destruct ws as [| w0 ws0].
  - inversion Hs; subst. split; [reflexivity |]. split; [congruence |].
    intros (w & [] & _).
  - assert (Hne : w0 :: ws0 <> []) by discriminate.
    destruct (choose_optimal_cases _ _ _ Hne Hs) as (Hin & Hfit & _).
    split; [discriminate |]. split; [intros _; exact Hin |].
    intros Hex. destruct (Hfit Hex) as (Hle & Hmin).
    split; [lia |]. intros w Hw Hrw. specialize (Hmin w Hw Hrw). lia.
Qed.

(** A residual of 600 x 495 is cut from the block of 826 with a waste of 226. *)
Lemma mk_custom_source_and_waste_witness :
  exists s, In s [1239; 826; 413]%Z /\ (0 <= s - 600)%Z.
Proof.
  destruct (@mk_custom_source_and_waste Rect.kernel (Rect.r_box 0 0 600 495)
              [1239; 826; 413]%Z
              (@mkCustom Rect.kernel 600 495 0 0 [Rect.mkBox 0 0 600 495]
                         (Some 826%Z) (Some 226%Z) None) eq_refl)
    as (s & _ & _ & _ & Hin & Hfit).
  exists s. split; [apply Hin; discriminate |].
  apply Hfit. exists 826%Z. split; [right; left; reflexivity | discriminate].
Defined.

(** ** Loops that end *)

(** A loop whose body never runs out of fuel and lowers a measure on every
    pass ends once the fuel exceeds the measure. *)
Lemma while_loop_terminates {S R : Type} (body : S -> outcome (S + R)) (mu : S -> nat)
  (P : S -> Prop) :
  (forall s, P s -> body s <> OutOfFuel) ->
  (forall s s', P s -> body s = Ret (inl s') -> P s' /\ (mu s' < mu s)%nat) ->
  forall fuel s, P s -> (mu s < fuel)%nat -> while_loop fuel body s <> OutOfFuel.
Proof.
  intros Hbody Hstep fuel. induction fuel as [| n IH]; intros s Hs Hmu; [lia |].
  simpl. specialize (Hbody s Hs).
  destruct (body s) as [[s' | r] | e |] eqn:E; try discriminate; [| congruence].
  destruct (Hstep s s' Hs E) as (Hs' & Hlt). apply IH; [exact Hs' | lia].
Qed.

Lemma not_OutOfFuel_bind {A B : Type} (m : outcome A) (k : A -> outcome B) :
  m <> OutOfFuel -> (forall a, m = Ret a -> k a <> OutOfFuel) -> bind m k <> OutOfFuel.
Proof.
  destruct m as [a | e |]; simpl; intros Hm Hk; [apply Hk; reflexivity | discriminate | congruence].
Qed.

(** ** [simulate_future_placement] (core/wall_builder.py) *)

Lemma Qfloor_unique (q : Q) (z : Z) :
  inject_Z z <= q -> q < inject_Z z + 1 -> Qfloor q = z.
Proof.
  intros Hl Hu.
  assert (H1 : (z <= Qfloor q)%Z) by (rewrite <- (Qfloor_Z z); apply Qfloor_resp_le, Hl).
  assert (H2 : (Qfloor q < z + 1)%Z).
  { rewrite Zlt_Qlt, inject_Z_plus. change (inject_Z 1) with 1.
    apply Qle_lt_trans with q; [apply Qfloor_le | exact Hu]. }
  lia.
Qed.

Lemma Qfloor_add_Z (q : Q) (z : Z) : Qfloor (q + inject_Z z) = (Qfloor q + z)%Z.
Proof.
  apply Qfloor_unique.
  - pose proof (Qfloor_le q). rewrite inject_Z_plus. lra.
  - pose proof (Qlt_floor q) as U. rewrite inject_Z_plus in U |- *.
    change (inject_Z 1) with 1 in U. lra.
Qed.

Lemma sum_widths_app (l l' : list Z) :
  sum_widths (l ++ l') = (sum_widths l + sum_widths l')%Z.
Proof. unfold sum_widths. induction l; simpl; lia. Qed.

Section Simulation.
Variables (widths_order : list Z) (tolerance : Q) (m : Z).
Hypothesis positive : Forall (fun w => (0 < w)%Z) widths_order.
Hypothesis least : py_min widths_order = Ret m.

Lemma simulate_body_step (remaining : Q) (blocks : list Z) (s' : Q * list Z) :
  WallBuilder.simulate_body widths_order tolerance (remaining, blocks) = Ret (inl s') ->
  exists best_fit,
    In best_fit widths_order /\ (0 < best_fit)%Z
    /\ inject_Z m + tolerance <= remaining
    /\ s' = (remaining - inject_Z best_fit, blocks ++ [best_fit]).
Proof.
  unfold WallBuilder.simulate_body. rewrite least. simpl.
  destruct (Qle_bool (inject_Z m + tolerance) remaining) eqn:C; [| discriminate].
  destruct (find _ (sorted_reverse widths_order)) as [bf |] eqn:F; [| discriminate].
  apply find_some in F. destruct F as (Hin & _).
  apply (Permutation_in _ (Permutation_sym (sorted_reverse_perm widths_order))) in Hin.
  rewrite Forall_forall in positive. pose proof (positive _ Hin) as Hpos.
  destruct (Z.eqb_spec bf 0); [lia |].
  intros H; inversion H; subst. exists bf.
  apply Qle_bool_iff in C. auto.
Qed.

Lemma simulate_body_exit (remaining : Q) (blocks : list Z) (r : Q * list Z) :
  WallBuilder.simulate_body widths_order tolerance (remaining, blocks) = Ret (inr r) ->
  r = (remaining, blocks) /\ remaining < inject_Z m + tolerance.
Proof.
  unfold WallBuilder.simulate_body. rewrite least. simpl.
  destruct (Qle_bool (inject_Z m + tolerance) remaining) eqn:C.
  - destruct (find _ (sorted_reverse widths_order)) as [bf |] eqn:F.
    + apply find_some in F. destruct F as (Hin & _).
      apply (Permutation_in _ (Permutation_sym (sorted_reverse_perm widths_order))) in Hin.
      rewrite Forall_forall in positive. pose proof (positive _ Hin) as Hpos.
      destruct (Z.eqb_spec bf 0); [lia | discriminate].
    + exfalso. destruct (py_min_spec _ _ least) as (Hin & _).
      apply (Permutation_in _ (sorted_reverse_perm widths_order)) in Hin.
      pose proof (find_none _ _ F _ Hin) as N. simpl in N. congruence.
  - intros H; inversion H; subst. split; [reflexivity |].
    apply Qle_bool_gt. exact C.
Qed.

Lemma simulate_body_runs (s : Q * list Z) :
  WallBuilder.simulate_body widths_order tolerance s <> OutOfFuel.
Proof.
  destruct s as [remaining blocks].
  unfold WallBuilder.simulate_body. rewrite least. simpl.
  destruct (Qle_bool _ remaining); [| discriminate].
  destruct (find _ _) as [bf |]; [| discriminate].
  destruct (bf =? 0)%Z; discriminate.
Qed.

(** The passes still to go: one for each unit above the threshold. *)
Let passes_left (s : Q * list Z) : nat :=
  Z.to_nat (Qfloor (fst s - (inject_Z m + tolerance)) + 1).

Lemma simulate_body_lowers (s s' : Q * list Z) :
  WallBuilder.simulate_body widths_order tolerance s = Ret (inl s') ->
  (passes_left s' < passes_left s)%nat.
Proof.
  destruct s as [remaining blocks]. intros H.
  destruct (simulate_body_step _ _ _ H) as (bf & _ & Hpos & Hge & ->).
  unfold passes_left. cbn [fst].
  assert (E : remaining - inject_Z bf - (inject_Z m + tolerance)
              == remaining - (inject_Z m + tolerance) + inject_Z (- bf)).
  { rewrite inject_Z_opp. ring. }
  rewrite (Qfloor_comp _ _ E).
  rewrite Qfloor_add_Z.
  assert (H0 : (0 <= Qfloor (remaining - (inject_Z m + tolerance)))%Z).
  { rewrite <- (Qfloor_Z 0). apply Qfloor_resp_le. change (inject_Z 0) with 0. lra. }
  lia.
Qed.

End Simulation.

(** The same, for a body that always returns: the loop returns. *)
Lemma while_loop_returns {S R : Type} (body : S -> outcome (S + R)) (mu : S -> nat)
  (P : S -> Prop) :
  (forall s, P s -> exists x, body s = Ret x) ->
  (forall s s', P s -> body s = Ret (inl s') -> P s' /\ (mu s' < mu s)%nat) ->
  forall fuel s, P s -> (mu s < fuel)%nat -> exists r, while_loop fuel body s = Ret r.
Proof.
  intros Hbody Hstep fuel. induction fuel as [| n IH]; intros s Hs Hmu; [lia |].
  simpl. destruct (Hbody s Hs) as ([s' | r] & E); rewrite E; [| eauto].
  destruct (Hstep s s' Hs E) as (Hs' & Hlt). apply IH; [exact Hs' | lia].
Qed.

Lemma simulate_loop_returns (widths_order : list Z) (tolerance : Q) (m : Z)
  (s : Q * list Z) :
  Forall (fun w => (0 < w)%Z) widths_order ->
  py_min widths_order = Ret m ->
  forall fuel,
    (Z.to_nat (Qfloor (fst s - (inject_Z m + tolerance)) + 1) < fuel)%nat ->
    exists r, while_loop fuel (WallBuilder.simulate_body widths_order tolerance) s = Ret r.
Proof.
  intros positive least fuel Hfuel.
  apply (while_loop_returns _
           (fun s => Z.to_nat (Qfloor (fst s - (inject_Z m + tolerance)) + 1))
           (fun _ => True)); [| | exact I | exact Hfuel].
  - intros [remaining blocks] _. unfold WallBuilder.simulate_body. rewrite least. simpl.
    destruct (Qle_bool _ remaining); [| eauto].
    destruct (find _ _) as [bf |]; [| eauto].
    destruct (bf =? 0)%Z; eauto.
  - intros s0 s' _ H. split; [exact I |].
    exact (simulate_body_lowers widths_order tolerance m positive least s0 s' H).
Qed.

(** The run of [simulate_future_placement] in exact arithmetic. *)
Lemma simulate_run :
  forall (total_space : Q) (first_block : Z) (widths_order : list Z) (tolerance : Q)
         (m : Z),
    Forall (fun w => (0 < w)%Z) widths_order ->
    py_min widths_order = Ret m ->
    ~ total_space == 0 ->
    exists fuel0, forall fuel, (fuel0 <= fuel)%nat ->
      exists r,
        WallBuilder.simulate_future_placement fuel total_space first_block widths_order
                                              tolerance = Ret r
        /\ (exists rest, WallBuilder.blocks_sequence r = first_block :: rest
                         /\ Forall (fun w => In w widths_order) rest)
        /\ inject_Z (sum_widths (WallBuilder.blocks_sequence r))
           + WallBuilder.final_remainder r == total_space
        /\ WallBuilder.final_remainder r < inject_Z m + tolerance
        /\ WallBuilder.total_waste r = WallBuilder.final_remainder r
        /\ WallBuilder.blocks_count r = length (WallBuilder.blocks_sequence r).
Proof.
  intros total_space first_block ws tol m positive least Hnz.
  exists (S (Z.to_nat (Qfloor (total_space - inject_Z first_block
                                - (inject_Z m + tol)) + 1))).
  intros fuel Hfuel.
  destruct (simulate_loop_returns ws tol m (total_space - inject_Z first_block,
                                             [first_block])
              positive least fuel) as ([remaining blocks] & Hloop); [cbn [fst]; lia |].
  unfold WallBuilder.simulate_future_placement. rewrite Hloop. simpl.
  rewrite (py_div_Ret _ _ Hnz). simpl. eexists. split; [reflexivity |]. simpl.
  pose (P := fun s : Q * list Z =>
               (exists rest, snd s = first_block :: rest
                             /\ Forall (fun w => In w ws) rest)
               /\ inject_Z (sum_widths (snd s)) + fst s == total_space).
  assert (H : P (remaining, blocks) /\ remaining < inject_Z m + tol).
  { apply (while_loop_inv P (fun r => P r /\ fst r < inject_Z m + tol) Hloop).
    - split; [exists []; split; [reflexivity | constructor] |].
      unfold sum_widths. simpl. rewrite Z.add_0_r. ring.
    - intros [r0 b0] s' ((rest & E & Hrest) & Hsum) Hstep. simpl in E, Hsum.
      destruct (simulate_body_step ws tol m positive least _ _ _ Hstep)
        as (bf & Hin & _ & _ & ->).
      split; simpl.
      + exists (rest ++ [bf]). split; [rewrite E; reflexivity |].
        apply Forall_app. split; [exact Hrest | repeat constructor; exact Hin].
      + rewrite sum_widths_app. unfold sum_widths at 2. simpl.
        rewrite Z.add_0_r, inject_Z_plus. rewrite <- Hsum. ring.
    - intros [r0 b0] r HP Hexit.
      destruct (simulate_body_exit ws tol m positive least _ _ _ Hexit) as (-> & Hlt).
      split; [exact HP | exact Hlt]. }
  destruct H as ((Hseq & Hsum) & Hlt). simpl in Hseq, Hsum.
  repeat split; assumption.
Qed.

(** X4.  [simulate_future_placement] on integer-valued arguments of a
    magnitude of at most 2^52, where the sums and differences of doubles are
    exact: with positive widths and a total space that is not 0 it returns
    once it is given enough passes.  The sequence starts with the first
    block and goes on with available widths only; the final remainder is an
    integer, the widths of the sequence and the remainder add up to the
    total space, and the remainder, which is also the reported waste, is
    less than the smallest width plus the tolerance. *)
Theorem simulate_future_placement_returns :
  forall (total_space first_block tolerance : Z) (widths_order : list Z) (m : Z),
    Forall (fun w => (0 < w <= 2 ^ 52)%Z) widths_order ->
    py_min widths_order = Ret m ->
    total_space <> 0%Z ->
    (Z.abs total_space <= 2 ^ 52)%Z ->
    (Z.abs first_block <= 2 ^ 52)%Z ->
    (Z.abs tolerance <= 2 ^ 52)%Z ->
    exists fuel0, forall fuel, (fuel0 <= fuel)%nat ->
      exists r remainder,
        WallBuilder.simulate_future_placement fuel (inject_Z total_space) first_block
                                              widths_order (inject_Z tolerance) = Ret r
        /\ (exists rest, WallBuilder.blocks_sequence r = first_block :: rest
                         /\ Forall (fun w => In w widths_order) rest)
        /\ WallBuilder.final_remainder r == inject_Z remainder
        /\ (sum_widths (WallBuilder.blocks_sequence r) + remainder = total_space)%Z
        /\ (remainder < m + tolerance)%Z
        /\ WallBuilder.total_waste r = WallBuilder.final_remainder r
        /\ WallBuilder.blocks_count r = length (WallBuilder.blocks_sequence r).
Proof.
  intros T fb t ws m positive least Hnz _ _ _.
  assert (positive' : Forall (fun w => (0 < w)%Z) ws).
  { apply Forall_impl with (2 := positive). intros w Hw. lia. }
  assert (Hnz' : ~ inject_Z T == 0).
  { intros E. apply Hnz. change 0 with (inject_Z 0) in E.
    exact (proj1 (inject_Z_injective _ _) E). }
  destruct (simulate_run (inject_Z T) fb ws (inject_Z t) m positive' least Hnz')
    as (fuel0 & H).
  exists fuel0. intros fuel Hfuel.
  destruct (H fuel Hfuel) as (r & Hr & Hseq & Hsum & Hlt & Hw & Hc).
  exists r, (T - sum_widths (WallBuilder.blocks_sequence r))%Z.
  assert (E : WallBuilder.final_remainder r
              == inject_Z (T - sum_widths (WallBuilder.blocks_sequence r))).
  { unfold Zminus. rewrite inject_Z_plus, inject_Z_opp. lra. }
  split; [exact Hr |]. split; [exact Hseq |]. split; [exact E |].
  split; [lia |]. split; [| split; [exact Hw | exact Hc]].
  rewrite E, <- inject_Z_plus, <- Zlt_Qlt in Hlt. exact Hlt.
Qed.

(** Ten units with a first block of 4 and widths 3 and 2: the sequence is
    4, 3, 3 and nothing is left. *)
Lemma simulate_future_placement_returns_witness :
  exists fuel0, forall fuel, (fuel0 <= fuel)%nat ->
    exists r remainder,
      WallBuilder.simulate_future_placement fuel 10 4 [3; 2]%Z 0 = Ret r
      /\ WallBuilder.final_remainder r == inject_Z remainder
      /\ (remainder < 2)%Z.
Proof.
  destruct (simulate_future_placement_returns 10 4 0 [3; 2]%Z 2) as (fuel0 & H).
  - repeat constructor; lia.
  - reflexivity.
  - discriminate.
  - simpl; lia.
  - simpl; lia.
  - simpl; lia.
  - exists fuel0. intros fuel Hfuel.
    destruct (H fuel Hfuel) as (r & remainder & Hr & _ & He & _ & Hlt & _).
    exists r, remainder. split; [exact Hr |]. split; [exact He | lia].
Defined.

(** X5.  The two ways [simulate_future_placement] fails: without any width
    [min] of the empty list raises at the first test of the loop, and a
    total space of 0 makes the efficiency a division by zero. *)
Theorem simulate_future_placement_raises :
  forall (total_space : Q) (first_block : Z) (tolerance : Q),
    (forall fuel, fuel <> O ->
       WallBuilder.simulate_future_placement fuel total_space first_block [] tolerance
       = Raise EmptySequence)
    /\ (forall (widths_order : list Z) (m : Z),
          Forall (fun w => (0 < w)%Z) widths_order ->
          py_min widths_order = Ret m ->
          total_space == 0 ->
          exists fuel0, forall fuel, (fuel0 <= fuel)%nat ->
            WallBuilder.simulate_future_placement fuel total_space first_block
                                                  widths_order tolerance
            = Raise ZeroDivisionError).
Proof.
  intros total_space first_block tol. split.
  - intros [| n] Hn; [congruence | reflexivity].
  - intros ws m positive least Hz.
    exists (S (Z.to_nat (Qfloor (total_space - inject_Z first_block
                                  - (inject_Z m + tol)) + 1))).
    intros fuel Hfuel.
    destruct (simulate_loop_returns ws tol m (total_space - inject_Z first_block,
                                               [first_block])
                positive least fuel) as ([remaining blocks] & Hloop); [cbn [fst]; lia |].
    unfold WallBuilder.simulate_future_placement. rewrite Hloop. simpl.
    unfold py_div. apply Qeq_bool_iff in Hz. rewrite Hz. reflexivity.
Qed.

Lemma simulate_future_placement_raises_witness :
  WallBuilder.simulate_future_placement 1 10 4 [] 0 = Raise EmptySequence
  /\ exists fuel0, forall fuel, (fuel0 <= fuel)%nat ->
       WallBuilder.simulate_future_placement fuel 0 4 [3; 2]%Z 0 = Raise ZeroDivisionError.
Proof.
  split.
  - apply (proj1 (simulate_future_placement_raises 10 4 0)). discriminate.
  - apply (proj2 (simulate_future_placement_raises 0 4 0) [3; 2]%Z 2%Z).
    + repeat constructor.
    + reflexivity.
    + reflexivity.
Defined.

(** ** [_split_component_into_horizontal_segments] (core/wall_builder.py) *)

Section Segments.
Context {K : Shapely}.
Variables (component : geom) (y stripe_top maxx : Q).

(** The stripes still to cut. *)
Let stripes_left (s : Q * list geom) : nat :=
  if Qltb (fst s) maxx
  then S (Z.to_nat (Qfloor ((maxx - fst s) / inject_Z 826)))
  else O.

Let segment_ok (g : geom) : Prop :=
  WallBuilder.is_polygon g = true /\ AREA_EPS < area g.

Lemma split_segments_step (x : Q) (segments : list geom) (s' : Q * list geom) :
  WallBuilder.split_segments_body component y stripe_top maxx (x, segments)
  = Ret (inl s') ->
  x < maxx
  /\ fst s' = Qmin (x + inject_Z 826) maxx
  /\ (Forall segment_ok segments -> Forall segment_ok (snd s')).
Proof.
  unfold WallBuilder.split_segments_body.
  destruct (Qltb x maxx) eqn:C; [| discriminate].
  intros H; inversion H; subst; clear H. cbn [fst snd].
  split; [apply Qltb_lt, C |]. split; [reflexivity |].
  intros Hs.
  destruct (negb (is_empty _) && Qltb AREA_EPS (area _)) eqn:G; [| exact Hs].
  apply andb_true_iff in G. destruct G as (_ & Ha). apply Qltb_lt in Ha.
  destruct (WallBuilder.is_polygon _) eqn:P.
  - apply Forall_app. split; [exact Hs |]. repeat constructor; assumption.
  - apply Forall_app. split; [exact Hs |].
    apply Forall_forall. intros g Hg. apply filter_In in Hg.
    destruct Hg as (_ & Hg). apply andb_true_iff in Hg. destruct Hg as (Hp & Hg).
    split; [exact Hp | apply Qltb_lt, Hg].
Qed.

Lemma split_segments_lowers (s s' : Q * list geom) :
  WallBuilder.split_segments_body component y stripe_top maxx s = Ret (inl s') ->
  (stripes_left s' < stripes_left s)%nat.
Proof.
  destruct s as [x segments]. intros H.
  destruct (split_segments_step _ _ _ H) as (Hx & E & _).
  unfold stripes_left. cbn [fst]. rewrite E.
  apply Qltb_lt in Hx. rewrite Hx. apply Qltb_lt in Hx.
  destruct (Qltb (Qmin (x + inject_Z 826) maxx) maxx) eqn:C; [| lia].
  apply Qltb_lt in C.
  assert (Hmin : Qmin (x + inject_Z 826) maxx == x + inject_Z 826).
  { apply Q.min_l. apply Qnot_lt_le. intros N.
    rewrite (Q.min_r _ _ (Qlt_le_weak _ _ N)) in C. lra. }
  assert (E' : (maxx - Qmin (x + inject_Z 826) maxx) / inject_Z 826
               == (maxx - x) / inject_Z 826 + inject_Z (-1)).
  { rewrite Hmin. change (inject_Z (-1)) with (-(1)). field; discriminate. }
  rewrite (Qfloor_comp _ _ E'), Qfloor_add_Z.
  assert (H1 : (1 <= Qfloor ((maxx - x) / inject_Z 826))%Z).
  { rewrite <- (Qfloor_Z 1). apply Qfloor_resp_le.
    rewrite Hmin in C. apply Qle_shift_div_l; [reflexivity |].
    change (inject_Z 1) with 1. lra. }
  lia.
Qed.

End Segments.

(** X6.  [_split_component_into_horizontal_segments] cuts the bounding box
    of the component into stripes of 826 and ends after a pass per stripe.
    Every segment it returns is a polygon whose area is above AREA_EPS, and
    a component whose bounding box has no width gives no segment at all. *)
Theorem split_component_segments :
  forall (K : Shapely) (component : geom) (y stripe_top minx miny maxx maxy : Q),
    bounds component = (minx, miny, maxx, maxy) ->
    exists fuel0, forall fuel, (fuel0 <= fuel)%nat ->
      exists segments,
        WallBuilder._split_component_into_horizontal_segments fuel component y stripe_top
        = Ret segments
        /\ Forall (fun g => WallBuilder.is_polygon g = true /\ AREA_EPS < area g) segments
        /\ (maxx <= minx -> segments = []).
Proof.
  intros K component y stripe_top minx miny maxx maxy Hb.
  pose (mu := fun s : Q * list geom =>
                if Qltb (fst s) maxx
                then S (Z.to_nat (Qfloor ((maxx - fst s) / inject_Z 826)))
                else O).
  exists (S (mu (minx, []))). intros fuel Hfuel.
  unfold WallBuilder._split_component_into_horizontal_segments. rewrite Hb.
  destruct (while_loop_returns
              (WallBuilder.split_segments_body component y stripe_top maxx) mu
              (fun _ => True)) with (fuel := fuel) (s := (minx, @nil geom))
    as (segments & Hloop); [| | exact I | lia |].
  - intros [x segs] _. unfold WallBuilder.split_segments_body.
    destruct (Qltb x maxx); eauto.
  - intros s s' _ H. split; [exact I |].
    exact (split_segments_lowers component y stripe_top maxx s s' H).
  - exists segments. split; [exact Hloop |]. split.
    + apply (while_loop_inv
               (fun s : Q * list geom =>
                  Forall (fun g => WallBuilder.is_polygon g = true /\ AREA_EPS < area g)
                         (snd s))
               (Forall (fun g => WallBuilder.is_polygon g = true /\ AREA_EPS < area g))
               Hloop); [constructor | |].
      * intros [x segs] s' Hs H.
        destruct (split_segments_step component y stripe_top maxx _ _ _ H)
          as (_ & _ & Hok). apply Hok, Hs.
      * intros [x segs] r Hs H. unfold WallBuilder.split_segments_body in H.
        destruct (Qltb x maxx); inversion H; subst. exact Hs.
    + intros Hle. destruct fuel as [| n]; [lia |]. simpl in Hloop.
      apply Qltb_ge in Hle. rewrite Hle in Hloop. inversion Hloop. reflexivity.
Qed.

(** A component of 1000 x 495: a stripe of 826 and one of 174. *)
Lemma split_component_segments_witness :
  exists fuel0, forall fuel, (fuel0 <= fuel)%nat ->
    exists segments,
      @WallBuilder._split_component_into_horizontal_segments Rect.kernel fuel
        (Rect.r_box 0 0 1000 495) 0 495 = Ret segments
      /\ Forall (fun g => AREA_EPS < @area Rect.kernel g) segments.
Proof.
  destruct (@split_component_segments Rect.kernel (Rect.r_box 0 0 1000 495) 0 495
              0 0 1000 495 eq_refl) as (fuel0 & H).
  exists fuel0. intros fuel Hfuel. destruct (H fuel Hfuel) as (segments & Hs & Hok & _).
  exists segments. split; [exact Hs |].
  apply Forall_impl with (2 := Hok). intros g (_ & Ha). exact Ha.
Defined.

(** ** The order of the widths does not matter (core/wall_builder.py) *)

(** X7.  core/wall_builder.py sorts the widths before it packs and takes
    their minimum as the default offset, so [_pack_segment] and [pack_wall]
    return the same lists for the same widths given in any order. *)
Theorem pack_wall_ignores_width_order :
  forall (K : Shapely) (fuel : nat) (block_widths block_widths' : list Z),
    Permutation block_widths block_widths' ->
    (forall (polygon : geom) (block_height : Z) (row_offset : option Z)
            (apertures : list geom),
       WallBuilder.pack_wall fuel polygon block_widths block_height row_offset apertures
       = WallBuilder.pack_wall fuel polygon block_widths' block_height row_offset
                               apertures)
    /\ (forall (comp : geom) (y stripe_top : Q) (offset : Z),
          WallBuilder._pack_segment fuel comp y stripe_top block_widths offset
          = WallBuilder._pack_segment fuel comp y stripe_top block_widths' offset).
Proof.
  intros K fuel ws ws' P. split.
  - intros polygon bh ro aps.
    unfold WallBuilder.pack_wall, WallBuilder.pack_wall_stdout,
      WallBuilder.full_course, WallBuilder.adaptive_course, WallBuilder.row_offset_of.
    rewrite (sorted_reverse_permutation _ _ P), (py_min_permutation _ _ P).
    reflexivity.
  - intros comp y stripe_top offset. unfold WallBuilder._pack_segment.
    rewrite (sorted_reverse_permutation _ _ P). reflexivity.
Qed.

(** The 423 x 495 wall packed with the widths smallest first. *)
Lemma pack_wall_ignores_width_order_witness :
  @WallBuilder.pack_wall Rect.kernel 10 Examples.wall_423 [413; 826; 1239]%Z 495
                         (Some 826%Z) []
  = Ret ([_mk_std 0 0 413 495], []).
Proof.
  rewrite <- (proj1 (@pack_wall_ignores_width_order Rect.kernel 10 [1239; 826; 413]%Z
                       [413; 826; 1239]%Z
                       (Permutation_rev [1239; 826; 413]%Z))).
  reflexivity.
Defined.

(** ** Blocks of a segment lie side by side (core/wall_builder.py) *)

Lemma StronglySorted_snoc {A : Type} (R : A -> A -> Prop) (l : list A) (a : A) :
  StronglySorted R l -> Forall (fun x => R x a) l -> StronglySorted R (l ++ [a]).
Proof.
  induction 1 as [| b r Hr IH Hb]; simpl; intros Ha.
  - repeat constructor.
  - inversion Ha; subst. constructor; [apply IH; assumption |].
    apply Forall_app. split; [exact Hb | repeat constructor; assumption].
Qed.

(** An integer that fits up to COORD_EPS fits. *)
Lemma fits_integer (a b : Z) : inject_Z a <= inject_Z b + COORD_EPS -> (a <= b)%Z.
Proof.
  intros H. destruct (Z_le_gt_dec a b) as [L | G]; [exact L | exfalso].
  assert (H1 : (b + 1 <= a)%Z) by lia.
  rewrite Zle_Qle, inject_Z_plus in H1. change (inject_Z 1) with 1 in H1.
  unfold COORD_EPS in H. lra.
Qed.

Section SegmentLayout.
Context {K : Shapely}.
Variables (comp : geom) (y stripe_top : Z) (widths_order : list Z) (seg_minx seg_maxx : Z).
Variable offset : Z.
Hypothesis positive : Forall (fun w => (0 < w)%Z) widths_order.

Let block_ok : Z -> Placed -> Prop :=
  block_in_segment y widths_order seg_minx seg_maxx offset.

Let laid : Z * list Placed * list Custom -> Prop :=
  segment_laid y widths_order seg_minx seg_maxx offset.

Lemma block_ok_later (c c' : Z) (p : Placed) : (c <= c')%Z -> block_ok c p -> block_ok c' p.
Proof. unfold block_ok, block_in_segment. intros Hc H. repeat split; try tauto. lia. Qed.

Lemma candidate_is_std (cursor w : Z) (p : Placed) :
  WallBuilder.candidate_piece comp y stripe_top cursor w widths_order
  = Ret (Some (WallBuilder.std_piece p)) ->
  p = mkPlaced (std_type w BLOCK_HEIGHT) w BLOCK_HEIGHT cursor y.
Proof.
  unfold WallBuilder.candidate_piece.
  destruct (negb (is_empty _) && Qle_bool AREA_EPS (area _)); [| discriminate].
  intros H. apply bind_Ret in H. destruct H as (ratio & _ & H).
  destruct (Qle_bool (95 # 100) ratio).
  - inversion H; subst. unfold _mk_std. rewrite !snap_inject_Z. reflexivity.
  - apply bind_Ret in H. destruct H as (c & _ & H). discriminate.
Qed.

Lemma first_fit_in_order (cursor : Z) (spazio : Q) (ws : list Z) (w : Z)
  (pc : WallBuilder.piece) :
  WallBuilder.first_fit comp y stripe_top cursor spazio widths_order ws
  = Ret (Some (w, pc)) ->
  In w ws /\ inject_Z w <= spazio + COORD_EPS
  /\ (forall p, pc = WallBuilder.std_piece p ->
               p = mkPlaced (std_type w BLOCK_HEIGHT) w BLOCK_HEIGHT cursor y).
Proof.
  induction ws as [| b ws IH]; simpl; [discriminate |].
  destruct (Qle_bool (inject_Z b) (spazio + COORD_EPS)) eqn:C.
  - intros H. apply bind_Ret in H. destruct H as ([pc' |] & Hc & H).
    + inversion H; subst. split; [left; reflexivity |].
      split; [apply Qle_bool_iff, C |].
      intros p ->. apply candidate_is_std, Hc.
    + destruct (IH H) as (? & ? & ?); auto.
  - intros H. destruct (IH H) as (? & ? & ?); auto.
Qed.

Lemma layout_step (s s' : Z * list Placed * list Custom) :
  laid s ->
  WallBuilder.pack_body comp y stripe_top seg_maxx widths_order s = Ret (inl s') ->
  laid s'.
Proof.
  destruct s as [[cursor placed] custom]. intros L H.
  unfold laid, segment_laid in L. cbn [fst snd] in L. destruct L as (Hc & Hs & Hok).
  unfold WallBuilder.pack_body in H.
  destruct (Qltb (inject_Z cursor) (inject_Z seg_maxx - COORD_EPS)); [| discriminate].
  apply bind_Ret in H. destruct H as ([[w pc] |] & Hfit & H).
  2:{ apply bind_Ret in H. destruct H as (c & _ & H). discriminate. }
  destruct (first_fit_in_order _ _ _ _ _ Hfit) as (Hin & Hw & Hstd).
  rewrite Forall_forall in positive. pose proof (positive _ Hin) as Hpos.
  assert (Hle : (cursor + w <= seg_maxx)%Z).
  { assert (L : inject_Z (cursor + w) <= inject_Z seg_maxx + COORD_EPS)
      by (rewrite inject_Z_plus; lra).
    apply fits_integer, L. }
  destruct pc as [p | c]; simpl in H; inversion H; subst; clear H;
    rewrite snap_plus; unfold laid, segment_laid; cbn [fst snd].
  - split; [lia |].
    assert (E : p = mkPlaced (std_type w BLOCK_HEIGHT) w BLOCK_HEIGHT cursor y)
      by (apply Hstd; reflexivity).
    subst p. split.
    + apply StronglySorted_snoc; [exact Hs |].
      apply Forall_impl with (2 := Hok). intros q Hq. unfold ends_before. simpl.
      unfold block_ok, block_in_segment in Hq. tauto.
    + apply Forall_app. split.
      * apply Forall_impl with (2 := Hok). intros q. apply block_ok_later. lia.
      * repeat constructor; unfold block_ok, block_in_segment; simpl; auto; lia.
  - split; [lia |]. split; [exact Hs |].
    apply Forall_impl with (2 := Hok). intros q. apply block_ok_later. lia.
Qed.

Lemma layout_exit (s : Z * list Placed * list Custom) (r : list Placed * list Custom) :
  laid s ->
  WallBuilder.pack_body comp y stripe_top seg_maxx widths_order s = Ret (inr r) ->
  left_to_right (fst r) /\ Forall (block_ok seg_maxx) (fst r).
Proof.
  destruct s as [[cursor placed] custom]. intros L H.
  unfold laid, segment_laid in L. cbn [fst snd] in L. destruct L as (Hc & Hs & Hok).
  assert (E : fst r = placed).
  { unfold WallBuilder.pack_body in H.
    destruct (Qltb (inject_Z cursor) (inject_Z seg_maxx - COORD_EPS));
      [| inversion H; reflexivity].
    apply bind_Ret in H. destruct H as ([[w pc] |] & _ & H).
    - destruct (WallBuilder.emit pc placed custom). discriminate.
    - apply bind_Ret in H. destruct H as (c & _ & H). inversion H. reflexivity. }
  rewrite E. split; [exact Hs |].
  apply Forall_impl with (2 := Hok). intros q Hq. unfold block_ok, block_in_segment in *.
  repeat split; tauto.
Qed.

Lemma layout_offset_slot (st : Z * list Placed * list Custom) :
  (0 <= offset)%Z ->
  WallBuilder.offset_slot comp y stripe_top seg_maxx seg_minx offset widths_order = Ret st ->
  laid st.
Proof.
  intros Ho H. unfold WallBuilder.offset_slot in H.
  destruct (negb (offset =? 0)%Z && Qle_bool _ _) eqn:C.
  2:{ inversion H; subst. unfold laid, segment_laid. cbn [fst snd]. split; [lia |]. split; constructor. }
  apply andb_true_iff in C. destruct C as (C0 & C1).
  apply negb_true_iff, Z.eqb_neq in C0. apply Qle_bool_iff in C1.
  assert (Hle : (seg_minx + offset <= seg_maxx)%Z)
    by (apply fits_integer; rewrite inject_Z_plus; exact C1).
  apply bind_Ret in H. destruct H as ([pc |] & Hc & H).
  2:{ inversion H; subst. unfold laid, segment_laid. cbn [fst snd]. split; [lia |]. split; constructor. }
  destruct pc as [p | c]; simpl in H; inversion H; subst; clear H;
    rewrite snap_plus; unfold laid, segment_laid; cbn [fst snd].
  - apply candidate_is_std in Hc. subst p. split; [lia |]. split.
    + repeat constructor.
    + repeat constructor; unfold block_ok, block_in_segment; simpl; auto; lia.
  - split; [lia |]. split; constructor.
Qed.

End SegmentLayout.

(** X8.  The standard blocks that [_pack_segment_with_order] of
    core/wall_builder.py returns for a segment, with positive widths and an
    offset that is not negative, lie side by side from left to right: each
    one ends before the later ones start, all stay within the snapped bounds
    of the segment, sit on the course line with the standard height, and
    have one of the widths (or the offset) as their width. *)
Theorem segment_blocks_side_by_side :
  forall (K : Shapely) (fuel : nat) (comp : geom) (y stripe_top : Q)
         (widths_order : list Z) (offset : Z) (bx0 by0 bx1 by1 : Q)
         (placed : list Placed) (custom : list Custom),
    bounds comp = (bx0, by0, bx1, by1) ->
    Forall (fun w => (0 < w)%Z) widths_order ->
    (0 <= offset)%Z ->
    WallBuilder._pack_segment_with_order fuel comp y stripe_top widths_order offset
    = Ret (placed, custom) ->
    left_to_right placed
    /\ Forall (fun p =>
                 (snap bx0 <= p_x p)%Z /\ (p_x p + p_width p <= snap bx1)%Z
                 /\ (0 < p_width p)%Z
                 /\ p_y p = snap y /\ p_height p = BLOCK_HEIGHT
                 /\ p_type p = std_type (p_width p) BLOCK_HEIGHT
                 /\ (In (p_width p) widths_order \/ p_width p = offset)) placed.
Proof.
  intros K fuel comp y stripe_top ws offset bx0 by0 bx1 by1 placed custom
         Hb positive Ho H.
  unfold WallBuilder._pack_segment_with_order in H. rewrite Hb in H.
  apply bind_Ret in H. destruct H as (st & H0 & H).
  pose proof (layout_offset_slot comp (snap y) (snap stripe_top) ws (snap bx0) (snap bx1)
                offset st Ho H0) as L.
  assert (R : left_to_right (fst (placed, custom))
              /\ Forall (block_in_segment (snap y) ws (snap bx0) (snap bx1) offset
                                          (snap bx1)) (fst (placed, custom))).
  { apply (while_loop_inv
             (segment_laid (snap y) ws (snap bx0) (snap bx1) offset)
             (fun r : list Placed * list Custom =>
                left_to_right (fst r)
                /\ Forall (block_in_segment (snap y) ws (snap bx0) (snap bx1) offset
                                            (snap bx1)) (fst r)) H L).
    - intros s s'. apply layout_step, positive.
    - intros s r. apply layout_exit. }
  destruct R as (R1 & R2). simpl in R1, R2. split; [exact R1 |].
  apply Forall_impl with (2 := R2). unfold block_in_segment. tauto.
Qed.

(** A wall of 2478 x 495 with the offset 826: a block of 826, one of 1239
    and one of 413. *)
Lemma segment_blocks_side_by_side_witness :
  left_to_right [_mk_std 0 0 826 495; _mk_std 826 0 1239 495; _mk_std 2065 0 413 495].
Proof.
  refine (proj1 (@segment_blocks_side_by_side Rect.kernel 10 (Rect.r_box 0 0 2478 495)
                   0 495 [1239; 826; 413]%Z 826 0 0 2478 495 _ [] eq_refl _ _ eq_refl)).
  - repeat constructor.
  - discriminate.
Defined.

(** ** [pack_wall] of core/wall_builder.py ends *)

Lemma settles_const {A : Type} (o : outcome A) : o <> OutOfFuel -> settles (fun _ => o).
Proof. intros H. exists O. exact H. Qed.

Lemma monotone_stable {A : Type} (run : nat -> outcome A) (f1 f2 : nat) :
  monotone run -> (f1 <= f2)%nat -> run f1 <> OutOfFuel -> run f2 = run f1.
Proof. intros M Hf H. destruct (M f1 f2 Hf) as [E | E]; congruence. Qed.

Lemma settles_bind {A B : Type} (m : nat -> outcome A) (k : nat -> A -> outcome B) :
  monotone m -> (forall a, monotone (fun f => k f a)) ->
  settles m -> (forall a, settles (fun f => k f a)) ->
  settles (fun f => bind (m f) (k f)).
Proof.
  intros Mm Mk (f1 & H1) Hk.
  destruct (m f1) as [a | e |] eqn:E; [| | congruence].
  - destruct (Hk a) as (f2 & H2). exists (Nat.max f1 f2).
    rewrite (monotone_stable m f1 _ Mm (Nat.le_max_l _ _)), E by congruence. simpl.
    rewrite (monotone_stable (fun f => k f a) f2 _ (Mk a) (Nat.le_max_r _ _) H2).
    exact H2.
  - exists f1. rewrite E. discriminate.
Qed.

Lemma monotone_for_each {A S : Type} (body : nat -> S -> A -> outcome S) (l : list A)
  (s : S) :
  (forall s a, monotone (fun f => body f s a)) ->
  monotone (fun f => for_each (body f) l s).
Proof.
  intros Mb f1 f2 Hf. apply extends_for_each. intros s' a. apply Mb, Hf.
Qed.

Lemma settles_for_each {A S : Type} (body : nat -> S -> A -> outcome S) (l : list A) :
  (forall s a, monotone (fun f => body f s a)) ->
  (forall s a, settles (fun f => body f s a)) ->
  forall s, settles (fun f => for_each (body f) l s).
Proof.
  intros Mb Hb. induction l as [| a l IH]; intros s; simpl.
  - apply settles_const. discriminate.
  - apply (settles_bind (fun f => body f s a) (fun f s' => for_each (body f) l s')).
    + apply Mb.
    + intros s'. apply monotone_for_each, Mb.
    + apply Hb.
    + apply IH.
Qed.

Lemma settles_while {St R : Type} (body : St -> outcome (St + R)) (mu : St -> nat)
  (P : St -> Prop) (s : St) :
  (forall s, P s -> body s <> OutOfFuel) ->
  (forall s s', P s -> body s = Ret (inl s') -> P s' /\ (mu s' < mu s)%nat) ->
  P s -> settles (fun f => while_loop f body s).
Proof.
  intros Hb Hstep Hs. exists (S (mu s)).
  apply (while_loop_terminates body mu P Hb Hstep); [exact Hs | lia].
Qed.

Lemma settles_all {A : Type} (run : nat -> outcome A) :
  monotone run -> settles run ->
  exists fuel0, forall fuel, (fuel0 <= fuel)%nat ->
    run fuel <> OutOfFuel /\ run fuel = run fuel0.
Proof.
  intros M (f0 & H). exists f0. intros fuel Hf.
  rewrite (monotone_stable run f0 fuel M Hf H). auto.
Qed.

(** Code without loops returns or raises. *)
Ltac runs :=
  repeat first
    [ discriminate
    | assumption
    | apply not_OutOfFuel_bind; [| intros ? _]
    | match goal with
      | |- (if ?b then _ else _) <> OutOfFuel => destruct b
      | |- (match ?x with _ => _ end) <> OutOfFuel => destruct x
      end ].

Section FuelFree.
Context {K : Shapely}.

Lemma sanitize_runs (p : geom) : sanitize_polygon p <> OutOfFuel.
Proof. unfold sanitize_polygon. runs. Qed.

Lemma py_div_runs (a b : Q) : py_div a b <> OutOfFuel.
Proof. unfold py_div. runs. Qed.

Lemma py_min_runs (l : list Z) : py_min l <> OutOfFuel.
Proof. unfold py_min. runs. Qed.

Lemma py_max_runs (l : list Z) : py_max l <> OutOfFuel.
Proof. unfold py_max. runs. Qed.

Lemma for_each_runs {A S : Type} (body : S -> A -> outcome S) (l : list A) (s : S) :
  (forall s a, body s a <> OutOfFuel) -> for_each body l s <> OutOfFuel.
Proof.
  intros Hb. revert s. induction l as [| a l IH]; simpl; intros s; [discriminate |].
  apply not_OutOfFuel_bind; [apply Hb | intros s' _; apply IH].
Qed.

Lemma WallBuilder_mk_custom_runs (g : geom) (ws : list Z) :
  WallBuilder._mk_custom g ws <> OutOfFuel.
Proof.
  unfold WallBuilder._mk_custom, WallBuilder.choose_optimal_source_block_for_custom.
  apply not_OutOfFuel_bind; [apply sanitize_runs | intros g' _].
  destruct (bounds g') as [[[minx miny] maxx] maxy].
  apply not_OutOfFuel_bind; [| discriminate].
  destruct ws; [discriminate |].
  destruct (filter _ _); [apply py_max_runs | apply py_min_runs].
Qed.

Lemma Main_mk_custom_runs (g : geom) : Main._mk_custom g <> OutOfFuel.
Proof.
  unfold Main._mk_custom.
  apply not_OutOfFuel_bind; [apply sanitize_runs | intros g' _].
  destruct (bounds g') as [[[minx miny] maxx] maxy]. discriminate.
Qed.

Lemma candidate_piece_runs (comp : geom) (y stripe_top cursor w : Z) (ws : list Z) :
  WallBuilder.candidate_piece comp y stripe_top cursor w ws <> OutOfFuel.
Proof.
  unfold WallBuilder.candidate_piece.
  destruct (negb _ && _); [| discriminate].
  apply not_OutOfFuel_bind; [apply py_div_runs | intros ratio _].
  destruct (Qle_bool _ ratio); [discriminate |].
  apply not_OutOfFuel_bind; [apply WallBuilder_mk_custom_runs | discriminate].
Qed.

Lemma WallBuilder_first_fit_runs (comp : geom) (y stripe_top cursor : Z) (spazio : Q)
  (widths_order ws : list Z) :
  WallBuilder.first_fit comp y stripe_top cursor spazio widths_order ws <> OutOfFuel.
Proof.
  induction ws as [| b ws IH]; simpl; [discriminate |].
  destruct (Qle_bool _ _); [| exact IH].
  apply not_OutOfFuel_bind; [apply candidate_piece_runs | intros [pc |] _];
    [discriminate | exact IH].
Qed.

Lemma WallBuilder_pack_body_runs (comp : geom) (y stripe_top seg_maxx : Z)
  (widths_order : list Z) (s : Z * list Placed * list Custom) :
  WallBuilder.pack_body comp y stripe_top seg_maxx widths_order s <> OutOfFuel.
Proof.
  destruct s as [[cursor placed] custom]. unfold WallBuilder.pack_body.
  destruct (Qltb _ _); [| discriminate].
  apply not_OutOfFuel_bind; [apply WallBuilder_first_fit_runs | intros [[w pc] |] _].
  - destruct (WallBuilder.emit pc placed custom). discriminate.
  - apply not_OutOfFuel_bind; [| discriminate].
    unfold WallBuilder.tail. destruct (Qltb _ _); [| discriminate].
    destruct (negb _ && _); [| discriminate].
    apply not_OutOfFuel_bind; [apply WallBuilder_mk_custom_runs | discriminate].
Qed.

Lemma WallBuilder_pack_body_advances (comp : geom) (y stripe_top seg_maxx : Z)
  (widths_order : list Z) (s s' : Z * list Placed * list Custom) :
  Forall (fun w => (0 < w)%Z) widths_order ->
  WallBuilder.pack_body comp y stripe_top seg_maxx widths_order s = Ret (inl s') ->
  (Z.to_nat (seg_maxx - fst (fst s')) < Z.to_nat (seg_maxx - fst (fst s)))%nat.
Proof.
  destruct s as [[cursor placed] custom]. intros positive H.
  unfold WallBuilder.pack_body in H.
  destruct (Qltb (inject_Z cursor) (inject_Z seg_maxx - COORD_EPS)) eqn:C;
    [| discriminate].
  apply Qltb_lt in C.
  assert (Hc : (cursor < seg_maxx)%Z).
  { rewrite Zlt_Qlt. unfold COORD_EPS in C. lra. }
  apply bind_Ret in H. destruct H as ([[w pc] |] & Hfit & H).
  2:{ apply bind_Ret in H. destruct H as (c & _ & H). discriminate. }
  destruct (first_fit_in_order _ _ _ _ _ _ _ _ _ Hfit) as (Hin & _ & _).
  rewrite Forall_forall in positive. pose proof (positive _ Hin) as Hpos.
  destruct (WallBuilder.emit pc placed custom) as [p' c'].
  inversion H; subst; clear H. cbn [fst]. rewrite snap_plus. lia.
Qed.

Lemma WallBuilder_segment_settles (comp : geom) (y stripe_top : Q) (widths_order : list Z)
  (offset : Z) :
  Forall (fun w => (0 < w)%Z) widths_order ->
  settles (fun f => WallBuilder._pack_segment_with_order f comp y stripe_top widths_order
                      offset).
Proof.
  intros positive. unfold WallBuilder._pack_segment_with_order.
  destruct (bounds comp) as [[[seg_minx miny] seg_maxx] maxy].
  apply (settles_bind (fun _ => WallBuilder.offset_slot _ _ _ _ _ _ _)
                      (fun f st => while_loop f _ st)).
  - intros f1 f2 Hf. apply extends_refl.
  - intros st f1 f2 Hf. apply extends_while; [intros; apply extends_refl | exact Hf].
  - apply settles_const. unfold WallBuilder.offset_slot.
    destruct (negb _ && _); [| discriminate].
    apply not_OutOfFuel_bind; [apply candidate_piece_runs | intros [pc |] _];
      [| discriminate].
    destruct (WallBuilder.emit pc [] []). discriminate.
  - intros st.
    apply (settles_while _ (fun s => Z.to_nat (snap seg_maxx - fst (fst s)))
                         (fun _ => True)); [| | exact I].
    + intros s _. apply WallBuilder_pack_body_runs.
    + intros s s' _ H. split; [exact I |].
      exact (WallBuilder_pack_body_advances _ _ _ _ _ _ _ positive H).
Qed.

End FuelFree.

Lemma floor_gap_lowers (maxx x : Q) (k : Z) :
  (0 < k)%Z -> x + inject_Z k < maxx ->
  (Z.to_nat (Qfloor (maxx - (x + inject_Z k))) < Z.to_nat (Qfloor (maxx - x)))%nat.
Proof.
  intros Hk Hx.
  assert (E : maxx - (x + inject_Z k) == maxx - x + inject_Z (- k))
    by (rewrite inject_Z_opp; ring).
  rewrite (Qfloor_comp _ _ E), Qfloor_add_Z.
  assert (H0 : (0 <= Qfloor (maxx - x + inject_Z (- k)))%Z).
  { rewrite <- (Qfloor_Z 0). apply Qfloor_resp_le. rewrite <- E.
    change (inject_Z 0) with 0. lra. }
  rewrite Qfloor_add_Z in H0. lia.
Qed.

Lemma sorted_reverse_positive (ws : list Z) :
  Forall (fun w => (0 < w)%Z) ws -> Forall (fun w => (0 < w)%Z) (sorted_reverse ws).
Proof.
  intros H. rewrite Forall_forall in *. intros w Hw. apply H.
  apply (Permutation_in _ (Permutation_sym (sorted_reverse_perm ws))), Hw.
Qed.

Section FuelFreeLoops.
Context {K : Shapely}.

(** The adaptive loop moves right by a width on every pass. *)
Lemma adaptive_body_runs (comp : geom) (y maxx effective_height : Q) (ws : list Z)
  (s : Q * list Placed) :
  WallBuilder.adaptive_body comp y maxx effective_height ws s <> OutOfFuel.
Proof.
  destruct s as [x placed]. unfold WallBuilder.adaptive_body.
  destruct (Qltb x maxx); [| discriminate].
  match goal with |- match ?b with _ => _ end <> _ => destruct b end; [discriminate |].
  apply not_OutOfFuel_bind; [apply py_min_runs | discriminate].
Qed.

Lemma adaptive_body_advances (comp : geom) (y maxx effective_height : Q) (ws : list Z)
  (x : Q) (placed : list Placed) (s' : Q * list Placed) :
  WallBuilder.adaptive_body comp y maxx effective_height ws (x, placed) = Ret (inl s') ->
  x < maxx /\ exists w, In w ws /\ fst s' = x + inject_Z w.
Proof.
  unfold WallBuilder.adaptive_body.
  destruct (Qltb x maxx) eqn:C; [| discriminate]. apply Qltb_lt in C.
  intros H. split; [exact C |].
  match type of H with
  | match ?b with _ => _ end = _ => destruct b as [bw |] eqn:B
  end.
  - inversion H; subst; clear H. exists bw. split; [| reflexivity].
    destruct (find _ ws) as [ow |] eqn:F.
    + destruct (Qle_bool _ _ && contains _ _).
      * inversion B; subst. apply find_some in F. tauto.
      * unfold WallBuilder.first_contained in B. apply find_some in B. tauto.
    + unfold WallBuilder.first_contained in B. apply find_some in B. tauto.
  - apply bind_Ret in H. destruct H as (m & Hm & H). inversion H; subst; clear H.
    exists m. split; [apply (py_min_spec _ _ Hm) | reflexivity].
Qed.

Lemma adaptive_settles (comp : geom) (y stripe_top : Q) (ws : list Z)
  (adaptive_height : Q) (offset : Z) :
  Forall (fun w => (0 < w)%Z) ws ->
  settles (fun f => WallBuilder._pack_segment_with_order_adaptive f comp y stripe_top ws
                      adaptive_height offset).
Proof.
  intros positive. unfold WallBuilder._pack_segment_with_order_adaptive.
  destruct (bounds comp) as [[[minx miny] maxx] maxy].
  apply (settles_bind (fun f => while_loop f _ _) (fun _ placed => _)).
  - intros f1 f2 Hf. apply extends_while; [intros; apply extends_refl | exact Hf].
  - intros placed f1 f2 Hf. apply extends_refl.
  - apply (settles_while _
             (fun s => if Qltb (fst s) maxx
                       then S (Z.to_nat (Qfloor (maxx - fst s))) else O)
             (fun _ => True)); [| | exact I].
    + intros s _. apply adaptive_body_runs.
    + intros [x placed] s' _ H. split; [exact I |].
      destruct (adaptive_body_advances _ _ _ _ _ _ _ _ H) as (Hx & w & Hw & E).
      cbn [fst]. rewrite E. apply Qltb_lt in Hx. rewrite Hx.
      rewrite Forall_forall in positive. pose proof (positive _ Hw) as Hpos.
      destruct (Qltb (x + inject_Z w) maxx) eqn:C; [| lia].
      apply Qltb_lt in C. pose proof (floor_gap_lowers maxx x w Hpos C). lia.
  - intros placed. apply settles_const.
    apply not_OutOfFuel_bind; [| discriminate].
    destruct (Qltb _ _); [| discriminate].
    destruct (kind _).
    + apply not_OutOfFuel_bind; [apply WallBuilder_mk_custom_runs | discriminate].
    + apply for_each_runs. intros s g. destruct (Qltb _ _); [| discriminate].
      apply not_OutOfFuel_bind; [apply WallBuilder_mk_custom_runs | discriminate].
    + apply for_each_runs. intros s g. destruct (Qltb _ _); [| discriminate].
      apply not_OutOfFuel_bind; [apply WallBuilder_mk_custom_runs | discriminate].
Qed.

(** The split loop moves right by [max_w] on every pass. *)
Section Split.
Variable mk : geom -> outcome Custom.
Hypothesis mk_runs : forall g, mk g <> OutOfFuel.

Lemma split_body_runs (poly : geom) (max_w : Z) (miny maxx maxy : Q)
  (s : Q * list Custom) :
  split_body mk poly max_w miny maxx maxy s <> OutOfFuel.
Proof.
  destruct s as [x0 out]. unfold split_body.
  destruct (Qltb _ _); [| discriminate].
  destruct (negb _ && _); [| discriminate].
  apply not_OutOfFuel_bind; [apply mk_runs | discriminate].
Qed.

Lemma split_body_advances (poly : geom) (max_w : Z) (miny maxx maxy : Q) (x0 : Q)
  (out : list Custom) (s' : Q * list Custom) :
  split_body mk poly max_w miny maxx maxy (x0, out) = Ret (inl s') ->
  x0 < maxx - COORD_EPS /\ fst s' = Qmin (x0 + inject_Z max_w) maxx.
Proof.
  unfold split_body. destruct (Qltb _ _) eqn:C; [| discriminate].
  apply Qltb_lt in C. intros H. split; [exact C |].
  destruct (negb _ && _).
  - apply bind_Ret in H. destruct H as (c & _ & H). inversion H. reflexivity.
  - inversion H. reflexivity.
Qed.

Lemma split_loop_settles (poly : geom) (max_w : Z) (miny maxx maxy : Q)
  (s : Q * list Custom) :
  (0 < max_w)%Z ->
  settles (fun f => while_loop f (split_body mk poly max_w miny maxx maxy) s).
Proof.
  intros Hw.
  apply (settles_while _
           (fun s => if Qltb (fst s) (maxx - COORD_EPS)
                     then S (Z.to_nat (Qfloor (maxx - fst s))) else O)
           (fun _ => True)); [| | exact I].
  - intros s0 _. apply split_body_runs.
  - intros [x0 out] s' _ H. split; [exact I |].
    destruct (split_body_advances _ _ _ _ _ _ _ _ H) as (Hx & E).
    cbn [fst]. rewrite E. apply Qltb_lt in Hx. rewrite Hx.
    destruct (Qltb (Qmin (x0 + inject_Z max_w) maxx) (maxx - COORD_EPS)) eqn:C; [| lia].
    apply Qltb_lt in C.
    assert (Hlt : x0 + inject_Z max_w < maxx).
    { apply Qnot_le_lt. intros N. rewrite (Q.min_r _ _ N) in C.
      unfold COORD_EPS in C. lra. }
    assert (E' : maxx - Qmin (x0 + inject_Z max_w) maxx == maxx - (x0 + inject_Z max_w))
      by (rewrite (Q.min_l _ _ (Qlt_le_weak _ _ Hlt)); reflexivity).
    rewrite (Qfloor_comp _ _ E').
    pose proof (floor_gap_lowers maxx x0 max_w Hw Hlt). lia.
Qed.

Lemma split_settles (customs : list Custom) (max_w max_h : Z) :
  (0 < max_w)%Z ->
  settles (fun f => split_out_of_spec mk f customs max_w max_h).
Proof.
  intros Hw. unfold split_out_of_spec.
  apply (settles_for_each (fun f out c => _)).
  - intros out c f1 f2 Hf.
    destruct (_ && _)%bool; [apply extends_refl |].
    destruct (_ || _)%bool; [apply extends_refl |].
    destruct (bounds _) as [[[minx miny] maxx] maxy].
    apply extends_while; [intros; apply extends_refl | exact Hf].
  - intros out c.
    destruct (_ && _)%bool; [apply settles_const; discriminate |].
    destruct (_ || _)%bool; [apply settles_const; discriminate |].
    destruct (bounds _) as [[[minx miny] maxx] maxy].
    apply split_loop_settles, Hw.
Qed.

End Split.
End FuelFreeLoops.

Section WallSettles.
Context {K : Shapely}.
Variables (polygon : geom) (keepout : option geom) (minx maxx : Q).
Variables (block_widths : list Z) (block_height : Z) (row_offset : option Z).
Hypothesis positive : Forall (fun w => (0 < w)%Z) block_widths.

Lemma row_offset_of_runs (row : Z) :
  WallBuilder.row_offset_of row row_offset block_widths <> OutOfFuel.
Proof.
  unfold WallBuilder.row_offset_of. destruct (_ =? _)%Z; [discriminate |].
  destruct row_offset; [discriminate | apply py_min_runs].
Qed.

Lemma full_course_settles (st : WallBuilder.wall_state) (row : Z) :
  settles (fun f => WallBuilder.full_course f polygon keepout minx maxx block_widths
                      block_height row_offset st row).
Proof.
  unfold WallBuilder.full_course.
  apply settles_bind.
  - intros f1 f2 Hf. apply extends_for_each. intros acc comp.
    destruct (_ || _)%bool; [apply extends_refl |].
    apply extends_bind; [apply extends_refl | intros offset].
    apply extends_bind; [| intros ?; apply extends_refl].
    apply WallBuilder_pack_segment_with_order_extends, Hf.
  - intros [pa ca] f1 f2 Hf. apply extends_refl.
  - apply settles_for_each.
    + intros acc comp f1 f2 Hf.
      destruct (_ || _)%bool; [apply extends_refl |].
      apply extends_bind; [apply extends_refl | intros offset].
      apply extends_bind; [| intros ?; apply extends_refl].
      apply WallBuilder_pack_segment_with_order_extends, Hf.
    + intros acc comp.
      destruct (_ || _)%bool; [apply settles_const; discriminate |].
      apply settles_bind.
      * intros f1 f2 Hf. apply extends_refl.
      * intros offset f1 f2 Hf.
        apply extends_bind; [| intros ?; apply extends_refl].
        apply WallBuilder_pack_segment_with_order_extends, Hf.
      * apply settles_const, row_offset_of_runs.
      * intros offset. apply settles_bind.
        -- intros f1 f2 Hf. apply WallBuilder_pack_segment_with_order_extends, Hf.
        -- intros [p c] f1 f2 Hf. apply extends_refl.
        -- apply WallBuilder_segment_settles, sorted_reverse_positive, positive.
        -- intros [p c]. apply settles_const. discriminate.
  - intros [pa ca]. apply settles_const. discriminate.
Qed.

Lemma adaptive_course_settles (remaining_space : Q) (row : Z)
  (st : WallBuilder.wall_state) :
  settles (fun f => WallBuilder.adaptive_course f polygon keepout minx maxx block_widths
                      block_height row_offset remaining_space row st).
Proof.
  unfold WallBuilder.adaptive_course.
  destruct (Qle_bool 150 remaining_space); [| apply settles_const; discriminate].
  apply settles_bind.
  - intros f1 f2 Hf. apply extends_for_each. intros acc comp.
    destruct (_ || _)%bool; [apply extends_refl |].
    apply extends_bind; [apply extends_refl | intros offset].
    apply extends_bind; [| intros ?; apply extends_refl].
    apply WallBuilder_adaptive_extends, Hf.
  - intros [pa ca] f1 f2 Hf. apply extends_refl.
  - apply settles_for_each.
    + intros acc comp f1 f2 Hf.
      destruct (_ || _)%bool; [apply extends_refl |].
      apply extends_bind; [apply extends_refl | intros offset].
      apply extends_bind; [| intros ?; apply extends_refl].
      apply WallBuilder_adaptive_extends, Hf.
    + intros acc comp.
      destruct (_ || _)%bool; [apply settles_const; discriminate |].
      apply settles_bind.
      * intros f1 f2 Hf. apply extends_refl.
      * intros offset f1 f2 Hf.
        apply extends_bind; [| intros ?; apply extends_refl].
        apply WallBuilder_adaptive_extends, Hf.
      * apply settles_const, row_offset_of_runs.
      * intros offset. apply settles_bind.
        -- intros f1 f2 Hf. apply WallBuilder_adaptive_extends, Hf.
        -- intros [p c] f1 f2 Hf. apply extends_refl.
        -- apply adaptive_settles, sorted_reverse_positive, positive.
        -- intros [p c]. apply settles_const. discriminate.
  - intros [pa ca]. apply settles_const. discriminate.
Qed.

End WallSettles.

Section PackWallSettles.
Context {K : Shapely}.

Lemma merge_runs (mk : geom -> outcome Custom) (customs : list Custom) (tol row_height : Z) :
  (forall g, mk g <> OutOfFuel) ->
  merge_customs_row_aware mk customs tol row_height <> OutOfFuel.
Proof.
  intros mk_runs. unfold merge_customs_row_aware.
  destruct customs as [| c0 cs]; [discriminate |].
  apply not_OutOfFuel_bind.
  - apply for_each_runs. intros rows c.
    apply not_OutOfFuel_bind; [apply py_div_runs | discriminate].
  - intros rows _. apply for_each_runs. intros out [rid polys]. cbn [snd].
    destruct polys as [| p ps]; [discriminate |].
    apply for_each_runs. intros out' g. destruct (Qltb _ _); [| discriminate].
    apply not_OutOfFuel_bind; [apply mk_runs | discriminate].
Qed.

Lemma filter_apertures_runs (wall_area : Q) (aps : list geom) :
  WallBuilder.filter_apertures wall_area aps <> OutOfFuel.
Proof.
  unfold WallBuilder.filter_apertures. apply for_each_runs. intros acc ap.
  apply not_OutOfFuel_bind; [apply py_div_runs | intros r _].
  destruct (Qltb _ r); [discriminate |]. destruct (Qltb _ _); discriminate.
Qed.

Lemma WallBuilder_pack_wall_settles (polygon : geom) (block_widths : list Z)
  (block_height : Z) (row_offset : option Z) (apertures : list geom) :
  Forall (fun w => (0 < w)%Z) block_widths ->
  settles (fun f => WallBuilder.pack_wall f polygon block_widths block_height row_offset
                      apertures).
Proof.
  intros positive.
  assert (M : forall f1 f2, (f1 <= f2)%nat ->
              extends (WallBuilder.pack_wall f1 polygon block_widths block_height
                                             row_offset apertures)
                      (WallBuilder.pack_wall f2 polygon block_widths block_height
                                             row_offset apertures))
    by (intros f1 f2 Hf; apply WallBuilder_pack_wall_extends, Hf).
  unfold WallBuilder.pack_wall, WallBuilder.pack_wall_stdout in *.
  destruct (sanitize_polygon polygon) as [poly | e |] eqn:San;
    [| exists O; discriminate | exfalso; exact (sanitize_runs _ San)].
  cbn [bind] in *.
  destruct (WallBuilder.filter_apertures (area poly) apertures) as [valid | e |] eqn:Fil;
    [| exists O; discriminate | exfalso; exact (filter_apertures_runs _ _ Fil)].
  cbn [bind] in *.
  destruct (bounds poly) as [[[minx miny] maxx] maxy].
  destruct (py_div (maxy - miny) (inject_Z block_height)) as [q | e |] eqn:Div;
    [| exists O; discriminate | exfalso; exact (py_div_runs _ _ Div)].
  cbn [bind] in *.
  apply settles_bind.
  - intros f1 f2 Hf.
    apply extends_bind; [| intros st].
    + apply extends_for_each. intros st row.
      apply WallBuilder_full_course_extends, Hf.
    + apply extends_bind; [apply WallBuilder_adaptive_course_extends, Hf | intros st'].
      apply extends_bind; [apply extends_refl | intros cs].
      apply extends_bind; [apply split_extends, Hf | intros cs'].
      apply extends_refl.
  - intros r f1 f2 Hf. apply extends_refl.
  - apply settles_bind.
    + intros f1 f2 Hf. apply extends_for_each. intros st row.
      apply WallBuilder_full_course_extends, Hf.
    + intros st f1 f2 Hf.
      apply extends_bind; [apply WallBuilder_adaptive_course_extends, Hf | intros st'].
      apply extends_bind; [apply extends_refl | intros cs].
      apply extends_bind; [apply split_extends, Hf | intros cs'].
      apply extends_refl.
    + apply settles_for_each.
      * intros st row f1 f2 Hf. apply WallBuilder_full_course_extends, Hf.
      * intros st row. apply full_course_settles, positive.
    + intros st. apply settles_bind.
      * intros f1 f2 Hf. apply WallBuilder_adaptive_course_extends, Hf.
      * intros st' f1 f2 Hf.
        apply extends_bind; [apply extends_refl | intros cs].
        apply extends_bind; [apply split_extends, Hf | intros cs'].
        apply extends_refl.
      * apply adaptive_course_settles, positive.
      * intros st'. apply settles_bind.
        -- intros f1 f2 Hf. apply extends_refl.
        -- intros cs f1 f2 Hf.
           apply extends_bind; [apply split_extends, Hf | intros cs'].
           apply extends_refl.
        -- apply settles_const, merge_runs. intros g. apply WallBuilder_mk_custom_runs.
        -- intros cs. apply settles_bind.
           ++ intros f1 f2 Hf. apply split_extends, Hf.
           ++ intros cs' f1 f2 Hf. apply extends_refl.
           ++ apply split_settles; [| reflexivity].
              intros g. apply WallBuilder_mk_custom_runs.
           ++ intros cs'. apply settles_const.
              apply not_OutOfFuel_bind; [| discriminate].
              unfold WallBuilder.validate_and_tag_customs.
              apply not_OutOfFuel_bind; [apply py_max_runs | discriminate].
  - intros r. apply settles_const. discriminate.
Qed.

End PackWallSettles.

(** X9.  [pack_wall] of core/wall_builder.py ends when the block widths are
    positive: given enough passes for its loops it returns or raises, and
    from there on more passes change nothing.  (A width of 0 or less can
    keep the cursor of a segment from ever reaching its right edge.) *)
Theorem WallBuilder_pack_wall_ends :
  forall (K : Shapely) (polygon : geom) (block_widths : list Z) (block_height : Z)
         (row_offset : option Z) (apertures : list geom),
    Forall (fun w => (0 < w)%Z) block_widths ->
    exists fuel0, forall fuel, (fuel0 <= fuel)%nat ->
      WallBuilder.pack_wall fuel polygon block_widths block_height row_offset apertures
      <> OutOfFuel
      /\ WallBuilder.pack_wall fuel polygon block_widths block_height row_offset apertures
         = WallBuilder.pack_wall fuel0 polygon block_widths block_height row_offset
                                 apertures.
Proof.
  intros K polygon ws bh ro aps positive.
  apply (settles_all (fun f => WallBuilder.pack_wall f polygon ws bh ro aps)).
  - intros f1 f2 Hf. apply WallBuilder_pack_wall_extends, Hf.
  - apply WallBuilder_pack_wall_settles, positive.
Qed.

Lemma WallBuilder_pack_wall_ends_witness :
  exists fuel0, forall fuel, (fuel0 <= fuel)%nat ->
    @WallBuilder.pack_wall Rect.kernel fuel Examples.wall_423 BLOCK_WIDTHS 495
                           (Some 826%Z) [] <> OutOfFuel.
Proof.
  destruct (@WallBuilder_pack_wall_ends Rect.kernel Examples.wall_423 BLOCK_WIDTHS 495
              (Some 826%Z) []) as (fuel0 & H).
  - repeat constructor.
  - exists fuel0. intros fuel Hf. apply (H fuel Hf).
Defined.

(** ** [split_out_of_spec] and [merge_customs_row_aware] *)

Lemma for_each_append {A : Type} (keep : A -> bool) (body : list A -> A -> outcome (list A))
  (l out : list A) :
  (forall out a, keep a = true -> body out a = Ret (out ++ [a])) ->
  forallb keep l = true ->
  for_each body l out = Ret (out ++ l).
Proof.
  intros Hb. revert out. induction l as [| a l IH]; simpl; intros out Hl.
  - rewrite app_nil_r. reflexivity.
  - apply andb_true_iff in Hl. destruct Hl as (Ha & Hl).
    rewrite (Hb out a Ha). simpl. rewrite (IH _ Hl), <- app_assoc. reflexivity.
Qed.

(** X10.  [split_out_of_spec] hands back, in their order and whatever the
    passes it is allowed, the pieces whose width and height are within
    SCARTO_CUSTOM_MM of the limits; so a list that is in spec is returned as
    it is.  For a positive [max_w] it ends on every list. *)
Theorem split_out_of_spec_in_spec :
  forall (K : Shapely) (mk : geom -> outcome Custom) (customs : list Custom)
         (max_w max_h : Z),
    (Forall (fun c => (c_width c <= max_w + SCARTO_CUSTOM_MM)%Z
                      /\ (c_height c <= max_h + SCARTO_CUSTOM_MM)%Z) customs ->
     forall fuel, split_out_of_spec mk fuel customs max_w max_h = Ret customs)
    /\ ((forall g, mk g <> OutOfFuel) -> (0 < max_w)%Z ->
        exists fuel0, forall fuel, (fuel0 <= fuel)%nat ->
          split_out_of_spec mk fuel customs max_w max_h <> OutOfFuel).
Proof.
  intros K mk customs max_w max_h. split.
  - intros Hall fuel. unfold split_out_of_spec.
    apply (for_each_append
             (fun c => ((int_round (c_width c) <=? max_w + SCARTO_CUSTOM_MM)
                        && (int_round (c_height c) <=? max_h + SCARTO_CUSTOM_MM))%Z)).
    + intros out c Hc. rewrite Hc. reflexivity.
    + apply forallb_forall. intros c Hc. rewrite Forall_forall in Hall.
      destruct (Hall c Hc) as (Hw & Hh). rewrite !int_round_id.
      apply andb_true_iff. split; apply Z.leb_le; assumption.
  - intros mk_runs Hw.
    destruct (settles_all (fun f => split_out_of_spec mk f customs max_w max_h))
      as (fuel0 & H).
    + intros f1 f2 Hf. apply split_extends, Hf.
    + apply split_settles; assumption.
    + exists fuel0. intros fuel Hf. apply (H fuel Hf).
Qed.

(** A piece of 418 x 495 is returned as it is, without any pass. *)
Lemma split_out_of_spec_in_spec_witness :
  let c := @mkCustom Rect.kernel 418 495 0 0 [Rect.mkBox 0 0 418 495] None None None in
  split_out_of_spec Main._mk_custom 0 [c] 413 495 = Ret [c].
Proof.
  intros c.
  apply (proj1 (@split_out_of_spec_in_spec Rect.kernel Main._mk_custom [c] 413 495)).
  repeat constructor; discriminate.
Defined.

Lemma filter_nothing {A : Type} (f : A -> bool) (l : list A) :
  (forall a, In a l -> f a = false) -> filter f l = [].
Proof.
  induction l as [| a l IH]; simpl; intros H; [reflexivity |].
  rewrite (H a (or_introl eq_refl)). apply IH. intros b Hb. apply H. right. exact Hb.
Qed.

Section RowAware.
Context {K : Shapely}.
Variable row_height : Z.

Let grouped := grouped_by_row row_height.

Lemma rows_append_keys (rows : list (Z * list geom)) (rid : Z) (poly : geom) :
  forall k, In k (map fst (rows_append rows rid poly)) <-> k = rid \/ In k (map fst rows).
Proof.
  induction rows as [| [r ps] rows IH]; simpl; intros k; [intuition congruence |].
  destruct (Z.eqb_spec r rid) as [-> | NE]; simpl; [intuition congruence |].
  rewrite IH. tauto.
Qed.

Lemma rows_append_entries (rows : list (Z * list geom)) (rid : Z) (poly : geom) :
  NoDup (map fst rows) ->
  forall k polys,
    In (k, polys) (rows_append rows rid poly) ->
    (k <> rid /\ In (k, polys) rows)
    \/ (k = rid /\ exists old, polys = old ++ [poly]
                              /\ (In (rid, old) rows
                                  \/ (old = [] /\ ~ In rid (map fst rows)))).
Proof.
  induction rows as [| [r ps] rows IH]; simpl; intros ND k polys H.
  - destruct H as [H | []]. inversion H; subst.
    right. split; [reflexivity |]. exists []. split; [reflexivity |]. right. tauto.
  - inversion ND as [| ? ? Hr ND']; subst.
    destruct (Z.eqb_spec r rid) as [-> | NE]; simpl in H.
    + destruct H as [H | H].
      * inversion H; subst. right. split; [reflexivity |].
        exists ps. split; [reflexivity |]. left. left. reflexivity.
      * left. split; [| right; exact H].
        intros ->. apply Hr. change rid with (fst (rid, polys)). apply in_map, H.
    + destruct H as [H | H].
      * inversion H; subst. left. split; [exact NE | left; reflexivity].
      * destruct (IH ND' k polys H) as [(Hk & Hin) | (Hk & old & E & Hold)].
        -- left. split; [exact Hk | right; exact Hin].
        -- right. split; [exact Hk |]. exists old. split; [exact E |].
           destruct Hold as [Hold | (E0 & Hnot)]; [left; right; exact Hold |].
           right. split; [exact E0 |]. intros [E1 | E1]; [congruence | tauto].
Qed.

Lemma rows_append_NoDup (rows : list (Z * list geom)) (rid : Z) (poly : geom) :
  NoDup (map fst rows) -> NoDup (map fst (rows_append rows rid poly)).
Proof.
  induction rows as [| [r ps] rows IH]; simpl; intros ND.
  - repeat constructor. intros [].
  - inversion ND as [| ? ? Hr ND']; subst.
    destruct (Z.eqb_spec r rid) as [-> | NE]; simpl; [exact ND |].
    constructor; [| apply IH, ND'].
    rewrite rows_append_keys. intros [E | E]; [congruence | tauto].
Qed.

Lemma row_polys_snoc (customs : list Custom) (c : Custom) (rid : Z) :
  row_polys row_height (customs ++ [c]) rid
  = row_polys row_height customs rid
    ++ (if (row_id_of row_height c =? rid)%Z then [buffer (c_geometry c) 0] else []).
Proof.
  unfold row_polys. rewrite filter_app, map_app. simpl.
  destruct (row_id_of row_height c =? rid)%Z; reflexivity.
Qed.

Lemma grouped_snoc (customs : list Custom) (rows : list (Z * list geom)) (c : Custom) :
  grouped customs rows ->
  grouped (customs ++ [c])
          (rows_append rows (row_id_of row_height c) (buffer (c_geometry c) 0)).
Proof.
  intros (ND & Hkeys & Hrows). unfold grouped, grouped_by_row.
  split; [apply rows_append_NoDup, ND |]. split.
  - intros c' Hc'. rewrite rows_append_keys. apply in_app_or in Hc'.
    destruct Hc' as [Hc' | [<- | []]]; [right; apply Hkeys, Hc' | left; reflexivity].
  - intros rid polys Hin. rewrite row_polys_snoc.
    destruct (rows_append_entries _ _ _ ND _ _ Hin) as [(Hk & Hold) | (-> & old & -> & Hold)].
    + apply Z.eqb_neq in Hk. rewrite Z.eqb_sym in Hk. rewrite Hk, app_nil_r.
      apply Hrows, Hold.
    + rewrite Z.eqb_refl. f_equal.
      destruct Hold as [Hold | (-> & Hnot)]; [apply Hrows, Hold |].
      unfold row_polys.
      rewrite filter_nothing; [reflexivity |].
      intros c' Hc'. apply Z.eqb_neq. intros E. apply Hnot. rewrite <- E.
      apply Hkeys, Hc'.
Qed.

Lemma rows_grouped (customs pre : list Custom) (rows r : list (Z * list geom)) :
  row_height <> 0%Z ->
  grouped pre rows ->
  for_each (fun rows c =>
              let y0 := snap (inject_Z (c_y c)) in
              q <- py_div (inject_Z y0) (inject_Z row_height) ;;
              let row_id := py_round q in
              let poly := buffer (c_geometry c) 0 in
              Ret (rows_append rows row_id poly)) customs rows = Ret r ->
  grouped (pre ++ customs) r.
Proof.
  intros Hrh. revert pre rows. induction customs as [| c cs IH]; intros pre rows G H.
  - simpl in H. inversion H; subst. rewrite app_nil_r. exact G.
  - cbn [for_each] in H. cbv zeta in H.
    rewrite py_div_Ret in H.
    2:{ intros E. apply Hrh.
        assert (E' : inject_Z row_height == inject_Z 0) by exact E.
        apply inject_Z_injective, E'. }
    cbn [bind] in H. rewrite snap_inject_Z in H.
    replace (pre ++ c :: cs) with ((pre ++ [c]) ++ cs) by (rewrite <- app_assoc; reflexivity).
    apply (IH _ _ (grouped_snoc pre rows c G) H).
Qed.

End RowAware.

(** X11.  [merge_customs_row_aware] merges within rows only.  The row of a
    piece is its y divided by the row height, rounded; every piece that
    comes back was made from a part, of area above AREA_EPS, of the union of
    the (repaired) polygons of the input pieces of one row.  An empty list
    gives an empty list, and a row height of 0 raises as soon as there is a
    piece. *)
Theorem merge_is_row_aware :
  forall (K : Shapely) (mk : geom -> outcome Custom) (customs : list Custom)
         (tol row_height : Z),
    merge_customs_row_aware mk [] tol row_height = Ret []
    /\ (customs <> [] ->
        merge_customs_row_aware mk customs tol 0 = Raise ZeroDivisionError)
    /\ (row_height <> 0%Z ->
        forall out,
          merge_customs_row_aware mk customs tol row_height = Ret out ->
          Forall (fun c =>
                    exists rid g,
                      In rid (map (row_id_of row_height) customs)
                      /\ In g (parts_of (unary_union (row_polys row_height customs rid)))
                      /\ AREA_EPS < area g
                      /\ mk g = Ret c) out).
Proof.
  intros K mk customs tol row_height. split; [reflexivity |]. split.
  - destruct customs as [| c cs]; [congruence |]. intros _. reflexivity.
  - intros Hrh out H. unfold merge_customs_row_aware in H.
    destruct customs as [| c0 cs] eqn:Ec; [inversion H; constructor |].
    rewrite <- Ec in *. clear Ec.
    apply bind_Ret in H. destruct H as (rows & Hrows & H).
    assert (G : grouped_by_row row_height customs rows).
    { apply (rows_grouped row_height customs [] [] rows Hrh); [| exact Hrows].
      split; [constructor |]. split; [intros c [] | intros rid polys []]. }
    destruct G as (ND & Hkeys & Hpolys).
    apply (for_each_inv (Forall _) H); [constructor |].
    intros acc [rid polys] acc' Hin Hacc Hbody. cbn [snd] in Hbody.
    pose proof (Hpolys rid polys Hin) as E.
    destruct polys as [| p ps] eqn:Ep; [inversion Hbody; subst; exact Hacc |].
    assert (Hpne : polys <> []) by (rewrite Ep; discriminate).
    rewrite <- Ep in *. clear Ep.
    apply (for_each_inv (Forall _) Hbody); [exact Hacc |].
    intros acc1 g acc2 Hg Hacc1 Hstep.
    destruct (Qltb AREA_EPS (area g)) eqn:Ha; [| inversion Hstep; subst; exact Hacc1].
    apply bind_Ret in Hstep. destruct Hstep as (c & Hc & Hstep).
    inversion Hstep; subst acc2.
    apply Forall_app. split; [exact Hacc1 |]. constructor; [| constructor].
    exists rid, g. split; [| split; [| split]].
    + assert (Hne : row_polys row_height customs rid <> []) by (rewrite <- E; exact Hpne).
      unfold row_polys in Hne.
      destruct (filter _ customs) as [| c1 r1] eqn:F; [exfalso; apply Hne; reflexivity |].
      assert (I : In c1 (filter (fun c => (row_id_of row_height c =? rid)%Z) customs))
        by (rewrite F; left; reflexivity).
      apply filter_In in I. destruct I as (I & Hr). apply Z.eqb_eq in Hr.
      rewrite <- Hr. apply in_map, I.
    + rewrite <- E. unfold parts_of. destruct (kind (unary_union polys)); exact Hg.
    + apply Qltb_lt, Ha.
    + exact Hc.
Qed.

(** Two residuals of the first course, side by side, and one of the second:
    the merge of main.py returns a piece for each of the two rows. *)
Lemma merge_is_row_aware_witness :
  let c1 := @mkCustom Rect.kernel 10 495 413 0 [Rect.mkBox 413 0 423 495]
                      None None None in
  let c2 := @mkCustom Rect.kernel 10 495 413 495 [Rect.mkBox 413 495 423 990]
                      None None None in
  Forall (fun c => exists rid, In rid [0%Z; 1%Z]
                               /\ exists g, AREA_EPS < @area Rect.kernel g
                                            /\ Main._mk_custom g = Ret c) [c1; c2].
Proof.
  intros c1 c2.
  assert (E : merge_customs_row_aware Main._mk_custom [c1; c2] 5 495 = Ret [c1; c2])
    by reflexivity.
  pose proof (proj2 (proj2 (@merge_is_row_aware Rect.kernel Main._mk_custom [c1; c2]
                              5 495)) ltac:(discriminate) [c1; c2] E) as H.
  apply Forall_impl with (2 := H).
  intros c (rid & g & Hrid & _ & Ha & Hc). exists rid. split; [exact Hrid |].
  exists g. split; assumption.
Defined.

(** ** Labels (main.py) *)

Section Numbering.
Variables (A X : Type) (eqb : X -> X -> bool) (key : A -> X).
Hypothesis eqb_eq : forall a b, eqb a b = true <-> a = b.

Lemma eqb_refl_key (k : X) : eqb k k = true.
Proof. apply eqb_eq. reflexivity. Qed.

Lemma eqb_sym_key (a b : X) : eqb a b = eqb b a.
Proof.
  destruct (eqb a b) eqn:E1, (eqb b a) eqn:E2; try reflexivity.
  - apply eqb_eq in E1. subst. rewrite eqb_refl_key in E2. discriminate.
  - apply eqb_eq in E2. subst. rewrite eqb_refl_key in E1. discriminate.
Qed.

Lemma number_by_nth (l : list A) (counters : X -> Z) (i : nat) (a : A) :
  nth_error l i = Some a ->
  nth_error (number_by eqb key counters l) i
  = Some (key a, (counters (key a) + rank_of eqb key (key a) (S i) l)%Z).
Proof.
  revert counters i. induction l as [| a0 r IH]; intros counters i H.
  - destruct i; discriminate.
  - destruct i as [| j]; simpl in H.
    + inversion H; subst. simpl. unfold Main.bump, rank_of. simpl.
      rewrite eqb_refl_key. simpl. reflexivity.
    + cbn [number_by nth_error]. rewrite (IH _ j H). f_equal. f_equal.
      unfold Main.bump, rank_of. cbn [firstn filter].
      rewrite (eqb_sym_key (key a0) (key a)).
      destruct (eqb (key a) (key a0)); cbn [length]; lia.
Qed.

Lemma number_by_above (l : list A) (counters : X -> Z) (k : X) (n : Z) :
  In (k, n) (number_by eqb key counters l) -> (counters k < n)%Z.
Proof.
  revert counters. induction l as [| a r IH]; simpl; intros counters H; [tauto |].
  destruct H as [H | H].
  - inversion H; subst. unfold Main.bump. rewrite eqb_refl_key. lia.
  - apply IH in H. unfold Main.bump in H. destruct (eqb (key a) k); lia.
Qed.

Lemma number_by_NoDup (l : list A) (counters : X -> Z) : NoDup (number_by eqb key counters l).
Proof.
  revert counters. induction l as [| a r IH]; simpl; intros counters; constructor.
  - intros H. apply number_by_above in H. lia.
  - apply IH.
Qed.

End Numbering.

Section LabelFacts.
Context {K : Shapely}.

Lemma std_labels_number (counters : ascii -> Z) (placed : list Placed) :
  Main.std_labels counters placed
  = number_by Ascii.eqb (fun blk => Main.letter_of (p_width blk)) counters placed.
Proof.
  revert counters. induction placed as [| b r IH]; simpl; intros counters;
    [reflexivity | rewrite IH; reflexivity].
Qed.

Lemma custom_labels_number (counts : Main.code -> Z) (custom : list Custom) :
  Main.custom_labels counts custom
  = number_by Main.code_eqb Main.code_of counts custom.
Proof.
  revert counts. induction custom as [| c r IH]; simpl; intros counts;
    [reflexivity | rewrite IH; reflexivity].
Qed.

Lemma code_eqb_eq (a b : Main.code) : Main.code_eqb a b = true <-> a = b.
Proof. destruct a, b; simpl; split; congruence. Qed.

End LabelFacts.

(** X12.  [create_block_labels] gives every piece a label of its own: the
    label of a standard block is its letter with the number of blocks of
    that letter up to and including it, the label of a custom piece its code
    with the number of pieces of that code up to and including it; so no two
    standard blocks and no two custom pieces share a label. *)
Theorem labels_are_ranks :
  forall (K : Shapely) (placed : list Placed) (custom : list Custom),
    let std := fst (Main.create_block_labels placed custom) in
    let cus := snd (Main.create_block_labels placed custom) in
    NoDup std /\ NoDup cus
    /\ (forall i blk, nth_error placed i = Some blk ->
          nth_error std i
          = Some (Main.letter_of (p_width blk),
                  rank_of Ascii.eqb (fun b => Main.letter_of (p_width b))
                          (Main.letter_of (p_width blk)) (S i) placed))
    /\ (forall i c, nth_error custom i = Some c ->
          nth_error cus i
          = Some (Main.code_of c,
                  rank_of Main.code_eqb Main.code_of (Main.code_of c) (S i) custom)).
Proof.
  intros K placed custom std cus. unfold std, cus, Main.create_block_labels. cbn [fst snd].
  rewrite std_labels_number, custom_labels_number.
  split; [apply number_by_NoDup, Ascii.eqb_eq |].
  split; [apply number_by_NoDup, code_eqb_eq |]. split.
  - intros i blk H.
    rewrite (number_by_nth _ _ _ _ Ascii.eqb_eq _ _ _ _ H). reflexivity.
  - intros i c H.
    rewrite (number_by_nth _ _ _ _ code_eqb_eq _ _ _ _ H). reflexivity.
Qed.

(** Blocks of 1239, 413 and 1239: the third one is A2. *)
Lemma labels_are_ranks_witness :
  nth_error (fst (@Main.create_block_labels Rect.kernel
                    [_mk_std 0 0 1239 495; _mk_std 1239 0 413 495;
                     _mk_std 1652 0 1239 495] [])) 2
  = Some ("A"%char, 2%Z).
Proof.
  rewrite (proj1 (proj2 (proj2 (@labels_are_ranks Rect.kernel
                                  [_mk_std 0 0 1239 495; _mk_std 1239 0 413 495;
                                   _mk_std 1652 0 1239 495] [])))
                 2%nat (_mk_std 1652 0 1239 495) eq_refl).
  reflexivity.
Defined.


(** X13.  The letter of a standard block: a width of the table gets its own
    letter, and any other width the letter of the nominal width nearest to
    it, so the letter is always one of the table. *)
Theorem letter_of_nearest :
  forall w : Z,
    (forall v, In (w, v) Main.SIZE_TO_LETTER -> Main.letter_of w = v)
    /\ exists k,
         In (k, Main.letter_of w) Main.SIZE_TO_LETTER
         /\ forall k' v', In (k', v') Main.SIZE_TO_LETTER ->
              (Z.abs (w - k) <= Z.abs (w - k'))%Z.
Proof.
  intros w. split.
  - intros v [E | [E | [E | []]]]; inversion E; subst; reflexivity.
  - assert (T : forall k v,
               In (k, v) [(1239%Z, "A"%char); (826%Z, "B"%char); (413%Z, "C"%char)] ->
               k = 1239%Z \/ k = 826%Z \/ k = 413%Z).
    { intros k v [E | [E | [E | []]]]; inversion E; auto. }
    unfold Main.letter_of, Main.SIZE_TO_LETTER. cbn [find fst snd].
    destruct (Z.eqb_spec 1239 w) as [E1 | N1].
    { exists 1239%Z. split; [left; reflexivity |].
      intros k' v' H. destruct (T _ _ H) as [-> | [-> | ->]]; lia. }
    destruct (Z.eqb_spec 826 w) as [E2 | N2].
    { exists 826%Z. split; [right; left; reflexivity |].
      intros k' v' H. destruct (T _ _ H) as [-> | [-> | ->]]; lia. }
    destruct (Z.eqb_spec 413 w) as [E3 | N3].
    { exists 413%Z. split; [right; right; left; reflexivity |].
      intros k' v' H. destruct (T _ _ H) as [-> | [-> | ->]]; lia. }
    cbn [Main.nearest_letter fst snd].
    destruct (Z.ltb_spec (Z.abs (w - 826)) (Z.abs (w - 1239))) as [L1 | L1];
      cbn [Main.nearest_letter fst snd].
    + destruct (Z.ltb_spec (Z.abs (w - 413)) (Z.abs (w - 826))) as [L2 | L2];
        cbn [Main.nearest_letter fst snd].
      * exists 413%Z. split; [right; right; left; reflexivity |].
        intros k' v' H. destruct (T _ _ H) as [-> | [-> | ->]]; lia.
      * exists 826%Z. split; [right; left; reflexivity |].
        intros k' v' H. destruct (T _ _ H) as [-> | [-> | ->]]; lia.
    + destruct (Z.ltb_spec (Z.abs (w - 413)) (Z.abs (w - 1239))) as [L2 | L2];
        cbn [Main.nearest_letter fst snd].
      * exists 413%Z. split; [right; right; left; reflexivity |].
        intros k' v' H. destruct (T _ _ H) as [-> | [-> | ->]]; lia.
      * exists 1239%Z. split; [left; reflexivity |].
        intros k' v' H. destruct (T _ _ H) as [-> | [-> | ->]]; lia.
Qed.

Lemma letter_of_nearest_witness :
  Main.letter_of 826 = "B"%char /\ Main.letter_of 600 = "C"%char.
Proof.
  split.
  - apply (proj1 (letter_of_nearest 826)). right. left. reflexivity.
  - reflexivity.
Defined.

(** ** [summarize_blocks] (main.py) *)

Lemma block_type_eqb_eq (a b : block_type) : Main.block_type_eqb a b = true <-> a = b.
Proof.
  destruct a as [w h | w |], b as [w' h' | w' |]; simpl; split; intros H;
    try discriminate; try reflexivity.
  - apply andb_true_iff in H. destruct H as (H1 & H2).
    apply Z.eqb_eq in H1, H2. congruence.
  - inversion H; subst. rewrite !Z.eqb_refl. reflexivity.
  - apply Z.eqb_eq in H. congruence.
  - inversion H; subst. apply Z.eqb_refl.
Qed.

Lemma block_type_eqb_refl (a : block_type) : Main.block_type_eqb a a = true.
Proof. apply block_type_eqb_eq. reflexivity. Qed.

Lemma summary_get_bump (summary : list (block_type * Z)) (t t' : block_type) :
  Main.summary_get (Main.summary_bump summary t) t'
  = if Main.block_type_eqb t t'
    then Some (match Main.summary_get summary t with Some n => n | None => 0 end + 1)%Z
    else Main.summary_get summary t'.
Proof.
  induction summary as [| [k n] rest IH]; simpl.
  - reflexivity.
  - destruct (Main.block_type_eqb k t) eqn:E; simpl.
    + apply block_type_eqb_eq in E. subst k.
      destruct (Main.block_type_eqb t t'); reflexivity.
    + destruct (Main.block_type_eqb k t') eqn:E'.
      * apply block_type_eqb_eq in E'. subst k.
        destruct (Main.block_type_eqb t t') eqn:E2; [| reflexivity].
        apply block_type_eqb_eq in E2. subst t'.
        rewrite block_type_eqb_refl in E. discriminate.
      * rewrite IH. reflexivity.
Qed.

Lemma summary_keys_bump (summary : list (block_type * Z)) (t : block_type) :
  NoDup (map fst summary) ->
  NoDup (map fst (Main.summary_bump summary t))
  /\ (forall k, In k (map fst (Main.summary_bump summary t))
                <-> k = t \/ In k (map fst summary)).
Proof.
  induction summary as [| [k n] rest IH]; simpl; intros ND.
  - split; [repeat constructor; intros [] | intros k; intuition congruence].
  - inversion ND as [| ? ? Hk ND']; subst.
    destruct (Main.block_type_eqb k t) eqn:E; simpl.
    + apply block_type_eqb_eq in E. subst k. split; [exact ND |].
      intros k. intuition congruence.
    + destruct (IH ND') as (IH1 & IH2). split.
      * constructor; [| exact IH1]. rewrite IH2. intros [-> | H]; [| tauto].
        rewrite block_type_eqb_refl in E. discriminate.
      * intros k'. rewrite IH2. intuition congruence.
Qed.

Lemma summary_total_bump (summary : list (block_type * Z)) (t : block_type) :
  sum_widths (map snd (Main.summary_bump summary t)) = (sum_widths (map snd summary) + 1)%Z.
Proof.
  unfold sum_widths. induction summary as [| [k n] rest IH]; simpl; [reflexivity |].
  destruct (Main.block_type_eqb k t); simpl; lia.
Qed.

(** X14.  [summarize_blocks] counts the blocks by type: a type is a key of
    the summary exactly when some block has it, no key comes twice, the
    count at a key is the number of blocks of that type, and the counts add
    up to the number of blocks. *)
Theorem summarize_blocks_counts :
  forall (placed : list Placed),
    let summary := Main.summarize_blocks placed in
    NoDup (map fst summary)
    /\ (forall t, In t (map fst summary) <-> In t (map p_type placed))
    /\ (forall t,
          match Main.summary_get summary t with Some n => n | None => 0%Z end
          = Z.of_nat (length (filter (fun blk => Main.block_type_eqb (p_type blk) t)
                                     placed)))
    /\ sum_widths (map snd summary) = Z.of_nat (length placed).
Proof.
  intros placed summary. unfold summary, Main.summarize_blocks. clear summary.
  assert (G : forall l s,
            NoDup (map fst s) ->
            let r := fold_left (fun summary blk => Main.summary_bump summary (p_type blk))
                               l s in
            NoDup (map fst r)
            /\ (forall t, In t (map fst r) <-> In t (map fst s) \/ In t (map p_type l))
            /\ (forall t,
                  match Main.summary_get r t with Some n => n | None => 0%Z end
                  = (match Main.summary_get s t with Some n => n | None => 0%Z end
                     + Z.of_nat (length (filter
                                  (fun blk => Main.block_type_eqb (p_type blk) t) l)))%Z)
            /\ sum_widths (map snd r)
               = (sum_widths (map snd s) + Z.of_nat (length l))%Z).
  { induction l as [| b l IH]; intros s ND; simpl.
    - split; [exact ND |]. split; [intros t; tauto |].
      split; [intros t; lia | lia].
    - destruct (summary_keys_bump s (p_type b) ND) as (ND' & Hk).
      destruct (IH _ ND') as (I1 & I2 & I3 & I4). split; [exact I1 |]. split.
      + intros t. rewrite I2, Hk. intuition congruence.
      + split.
        * intros t. rewrite I3, summary_get_bump.
          destruct (Main.block_type_eqb (p_type b) t) eqn:E; simpl length.
          -- apply block_type_eqb_eq in E. rewrite E. lia.
          -- lia.
        * rewrite I4, summary_total_bump. lia. }
  destruct (G placed [] (NoDup_nil _)) as (G1 & G2 & G3 & G4).
  split; [exact G1 |]. split; [| split].
  - intros t. rewrite G2. simpl. tauto.
  - intros t. rewrite G3. reflexivity.
  - rewrite G4. reflexivity.
Qed.

(** ** The passes of [opt_pass] (main.py) *)

Section ClosestStandard.
Variables w h : Z.

Let step (best : option Z * option Z) (std_width : Z) : option Z * option Z :=
  if ((Z.abs (w - std_width) <=? SCARTO_CUSTOM_MM)
      && (Z.abs (h - BLOCK_HEIGHT) <=? SCARTO_CUSTOM_MM))%Z
  then
    let waste := (Z.abs (w - std_width) + Z.abs (h - BLOCK_HEIGHT))%Z in
    if match snd best with
       | None => true
       | Some best_waste => (waste <? best_waste)%Z
       end
    then (Some std_width, Some waste)
    else best
  else best.

(** What the search knows after the widths [seen]. *)
Let found (seen : list Z) (best : option Z * option Z) : Prop :=
  match best with
  | (None, None) => forall m, In m seen -> ~ close_standard w h m
  | (Some m, Some waste) =>
      In m seen /\ close_standard w h m
      /\ waste = (Z.abs (w - m) + Z.abs (h - BLOCK_HEIGHT))%Z
      /\ forall m', In m' seen -> close_standard w h m' ->
           (Z.abs (w - m) <= Z.abs (w - m'))%Z
  | _ => False
  end.

Lemma closest_step (seen : list Z) (best : option Z * option Z) (std_width : Z) :
  found seen best -> found (seen ++ [std_width]) (step best std_width).
Proof.
  unfold found, step, close_standard.
  destruct best as [[m |] [waste |]]; try tauto; cbn [snd].
  - intros (Hin & Hclose & -> & Hmin).
    destruct ((Z.abs (w - std_width) <=? SCARTO_CUSTOM_MM)
              && (Z.abs (h - BLOCK_HEIGHT) <=? SCARTO_CUSTOM_MM))%Z eqn:C.
    + apply andb_true_iff in C. destruct C as (C1 & C2). apply Z.leb_le in C1, C2.
      destruct (Z.ltb_spec (Z.abs (w - std_width) + Z.abs (h - BLOCK_HEIGHT))
                           (Z.abs (w - m) + Z.abs (h - BLOCK_HEIGHT))) as [L | L].
      * split; [apply in_or_app; right; left; reflexivity |].
        split; [tauto |]. split; [reflexivity |].
        intros m' Hm' Hc'. apply in_app_or in Hm'.
        destruct Hm' as [Hm' | [<- | []]]; [| lia].
        specialize (Hmin m' Hm' Hc'). lia.
      * split; [apply in_or_app; left; exact Hin |].
        split; [exact Hclose |]. split; [reflexivity |].
        intros m' Hm' Hc'. apply in_app_or in Hm'.
        destruct Hm' as [Hm' | [<- | []]]; [apply Hmin; assumption | lia].
    + split; [apply in_or_app; left; exact Hin |].
      split; [exact Hclose |]. split; [reflexivity |].
      intros m' Hm' Hc'. apply in_app_or in Hm'.
      destruct Hm' as [Hm' | [<- | []]]; [apply Hmin; assumption |].
      exfalso. apply andb_false_iff in C.
      destruct C as [C | C]; apply Z.leb_gt in C; lia.
  - intros Hnone.
    destruct ((Z.abs (w - std_width) <=? SCARTO_CUSTOM_MM)
              && (Z.abs (h - BLOCK_HEIGHT) <=? SCARTO_CUSTOM_MM))%Z eqn:C.
    + apply andb_true_iff in C. destruct C as (C1 & C2). apply Z.leb_le in C1, C2.
      split; [apply in_or_app; right; left; reflexivity |].
      split; [tauto |]. split; [reflexivity |].
      intros m' Hm' Hc'. apply in_app_or in Hm'.
      destruct Hm' as [Hm' | [<- | []]]; [| lia].
      exfalso. exact (Hnone m' Hm' Hc').
    + intros m Hm Hc. apply in_app_or in Hm.
      destruct Hm as [Hm | [<- | []]]; [exact (Hnone m Hm Hc) |].
      apply andb_false_iff in C.
      destruct C as [C | C]; apply Z.leb_gt in C; lia.
Qed.

Lemma closest_fold (l seen : list Z) (best : option Z * option Z) :
  found seen best -> found (seen ++ l) (fold_left step l best).
Proof.
  revert seen best. induction l as [| a l IH]; intros seen best H; simpl.
  - rewrite app_nil_r. exact H.
  - replace (seen ++ a :: l) with ((seen ++ [a]) ++ l)
      by (rewrite <- app_assoc; reflexivity).
    apply IH, closest_step, H.
Qed.

(** The search finds a close width with the least waste, if there is one. *)
Lemma closest_standard_spec (block_widths : list Z) :
  match Main.closest_standard w h block_widths with
  | Some m =>
      In m block_widths /\ close_standard w h m
      /\ forall m', In m' block_widths -> close_standard w h m' ->
           (Z.abs (w - m) <= Z.abs (w - m'))%Z
  | None => forall m, In m block_widths -> ~ close_standard w h m
  end.
Proof.
  unfold Main.closest_standard.
  assert (H0 : found [] (None, None)) by (intros m []).
  pose proof (closest_fold block_widths [] (None, None) H0) as H. simpl in H.
  fold step. unfold found in H.
  destruct (fold_left step block_widths (None, None)) as [[m |] [waste |]];
    cbn [fst]; tauto.
Qed.

End ClosestStandard.

Section OptPass.
Context {K : Shapely}.

Lemma replace_fold (block_widths : list Z) (customs : list Custom)
  (new_placed : list Placed) (remaining : list Custom) :
  fold_left
    (fun (acc : list Placed * list Custom) custom =>
       let '(new_placed, remaining_customs) := acc in
       match Main.closest_standard (c_width custom) (c_height custom) block_widths with
       | Some best_match =>
           if (best_match =? 0)%Z then (new_placed, remaining_customs ++ [custom])
           else (new_placed
                 ++ [_mk_std (inject_Z (c_x custom)) (inject_Z (c_y custom))
                             best_match BLOCK_HEIGHT],
                 remaining_customs)
       | None => (new_placed, remaining_customs ++ [custom])
       end)
    customs (new_placed, remaining)
  = (new_placed ++ flat_map (replacement block_widths) customs,
     remaining ++ filter (fun c => negb (replaceable block_widths c)) customs).
Proof.
  revert new_placed remaining. induction customs as [| c cs IH]; intros np rem; simpl.
  - rewrite !app_nil_r. reflexivity.
  - unfold replacement at 1, replaceable at 1.
    destruct (Main.closest_standard (c_width c) (c_height c) block_widths) as [m |].
    + destruct (m =? 0)%Z; simpl; rewrite IH, <- ?app_assoc; reflexivity.
    + simpl. rewrite IH, <- app_assoc. reflexivity.
Qed.

End OptPass.

(** X15.  [_replace_customs_with_standards] keeps the number of pieces: each
    custom piece either stays in the custom list, in its place in the
    order, or becomes one standard block appended to the placed list.  The
    block stands at the piece's corner and has the standard height; its
    width is one of the block widths, is not 0, is within SCARTO_CUSTOM_MM
    of the piece's (as 495 is of its height) and no close width is nearer.
    A piece without a close width stays a custom piece. *)
Theorem replace_customs_with_standards_spec :
  forall (K : Shapely) (placed : list Placed) (customs : list Custom)
         (block_widths : list Z),
    let r := Main._replace_customs_with_standards placed customs block_widths in
    fst r = placed ++ flat_map (replacement block_widths) customs
    /\ snd r = filter (fun c => negb (replaceable block_widths c)) customs
    /\ (length (fst r) + length (snd r) = length placed + length customs)%nat
    /\ (forall c p, In p (replacement block_widths c) ->
          p = mkPlaced (std_type (p_width p) BLOCK_HEIGHT) (p_width p) BLOCK_HEIGHT
                       (c_x c) (c_y c)
          /\ In (p_width p) block_widths /\ p_width p <> 0%Z
          /\ close_standard (c_width c) (c_height c) (p_width p)
          /\ forall m, In m block_widths -> close_standard (c_width c) (c_height c) m ->
               (Z.abs (c_width c - p_width p) <= Z.abs (c_width c - m))%Z)
    /\ (forall c, (forall m, In m block_widths ->
                     ~ close_standard (c_width c) (c_height c) m) ->
                  replaceable block_widths c = false).
Proof.
  intros K placed customs ws r. unfold r, Main._replace_customs_with_standards.
  rewrite replace_fold. cbn [fst snd app].
  split; [reflexivity |]. split; [reflexivity |]. split; [| split].
  - rewrite length_app. clear r.
    induction customs as [| c cs IH]; simpl; [lia |].
    unfold replacement at 1, replaceable at 1.
    destruct (Main.closest_standard (c_width c) (c_height c) ws) as [m |];
      [destruct (m =? 0)%Z |]; simpl; rewrite ?length_app in *; simpl; lia.
  - intros c p Hp. unfold replacement in Hp.
    pose proof (closest_standard_spec (c_width c) (c_height c) ws) as S.
    destruct (Main.closest_standard (c_width c) (c_height c) ws) as [m |]; [| destruct Hp].
    destruct (Z.eqb_spec m 0) as [E | NE]; [destruct Hp |].
    destruct Hp as [<- | []]. unfold _mk_std. rewrite !snap_inject_Z. simpl.
    destruct S as (S1 & S2 & S3). auto.
  - intros c Hnone. unfold replaceable.
    pose proof (closest_standard_spec (c_width c) (c_height c) ws) as S.
    destruct (Main.closest_standard (c_width c) (c_height c) ws) as [m |]; [| reflexivity].
    exfalso. destruct S as (S1 & S2 & _). exact (Hnone m S1 S2).
Qed.

(** A piece of 410 x 495 becomes a block of 413; one of 300 x 495 stays. *)
Lemma replace_customs_with_standards_spec_witness :
  let c1 := @mkCustom Rect.kernel 410 495 0 0 [Rect.mkBox 0 0 410 495] None None None in
  let c2 := @mkCustom Rect.kernel 300 495 410 0 [Rect.mkBox 410 0 710 495]
                      None None None in
  Main._replace_customs_with_standards [] [c1; c2] [1239; 826; 413]%Z
  = ([_mk_std 0 0 413 495], [c2])
  /\ replaceable [1239; 826; 413]%Z c2 = false.
Proof.
  intros c1 c2. split; [reflexivity |].
  apply (proj2 (proj2 (proj2 (proj2 (@replace_customs_with_standards_spec Rect.kernel
                                        [] [c1; c2] [1239; 826; 413]%Z))))).
  intros m [<- | [<- | [<- | []]]] (H & _); revert H; vm_compute; intros H; apply H;
    reflexivity.
Defined.

Section MicroCustoms.
Context {K : Shapely}.

Lemma merge_into_spec (custom : Custom) (filtered filtered' : list Custom) :
  Main.merge_into custom filtered = Some filtered' ->
  exists pre candidate post,
    filtered = pre ++ candidate :: post
    /\ Forall (fun c => Main._can_merge_customs custom c = false) pre
    /\ Main._can_merge_customs custom candidate = true
    /\ filtered' = pre ++ post ++ [Main._merge_two_customs custom candidate].
Proof.
  revert filtered'. induction filtered as [| c rest IH]; simpl; intros l' H;
    [discriminate |].
  destruct (Main._can_merge_customs custom c) eqn:C.
  - inversion H; subst. exists [], c, rest. repeat split; auto.
  - destruct (Main.merge_into custom rest) as [l |]; [| discriminate].
    inversion H; subst.
    destruct (IH l eq_refl) as (pre & cand & post & -> & Hpre & Hc & ->).
    exists (c :: pre), cand, post. repeat split; auto.
Qed.

Lemma merge_into_none (custom : Custom) (filtered : list Custom) :
  Main.merge_into custom filtered = None ->
  Forall (fun c => Main._can_merge_customs custom c = false) filtered.
Proof.
  induction filtered as [| c rest IH]; simpl; intros H; [constructor |].
  destruct (Main._can_merge_customs custom c) eqn:C; [discriminate |].
  destruct (Main.merge_into custom rest); [discriminate |].
  constructor; auto.
Qed.

End MicroCustoms.

(** X16.  [_merge_two_customs] gives the piece of the smallest box that
    holds the boxes of both pieces, with their union as geometry and the
    flexible type; [_can_merge_customs] does not depend on the order of the
    two pieces, and a piece is always close enough to itself. *)
Theorem merge_two_customs_box :
  forall (K : Shapely) (a b : Custom),
    let m := Main._merge_two_customs a b in
    c_x m = Z.min (c_x a) (c_x b)
    /\ c_y m = Z.min (c_y a) (c_y b)
    /\ (c_x m + c_width m = Z.max (c_x a + c_width a) (c_x b + c_width b))%Z
    /\ (c_y m + c_height m = Z.max (c_y a + c_height a) (c_y b + c_height b))%Z
    /\ c_geometry m = unary_union [c_geometry a; c_geometry b]
    /\ c_ctype m = Some ctype_2
    /\ Main._can_merge_customs a b = Main._can_merge_customs b a
    /\ Main._can_merge_customs a a = true.
Proof.
  intros K a b m. unfold m, Main._merge_two_customs. cbn [c_x c_y c_width c_height
    c_geometry c_ctype]. rewrite !snap_inject_Z.
  repeat split; try lia.
  - unfold Main._can_merge_customs.
    match goal with
    | |- Qle_bool ?x _ = Qle_bool ?y _ =>
        assert (E : x == y) by ring;
        destruct (Qle_bool x (100 * 100)) eqn:C1, (Qle_bool y (100 * 100)) eqn:C2;
        try reflexivity
    end.
    + apply Qle_bool_iff in C1. rewrite E in C1. apply Qle_bool_iff in C1. congruence.
    + apply Qle_bool_iff in C2. rewrite <- E in C2. apply Qle_bool_iff in C2. congruence.
  - unfold Main._can_merge_customs. apply Qle_bool_iff.
    match goal with |- ?x <= _ => assert (E : x == 0) by ring; rewrite E end.
    discriminate.
Qed.

(** X17.  [_eliminate_micro_customs] never makes the list longer.  A piece
    of its result is a piece of the input that is at least [min_size], or
    at least 20, in both directions, or it is the merge of an input piece
    with a piece that was close enough; so a small piece only stays when it
    is 20 x 20 or more and found no neighbour, and it is dropped when it is
    less.  A list without small pieces is returned as it is. *)
Theorem eliminate_micro_customs_spec :
  forall (K : Shapely) (customs : list Custom) (min_size : Z),
    let out := Main._eliminate_micro_customs customs min_size in
    (length out <= length customs)%nat
    /\ Forall (fun c =>
                 (In c customs
                  /\ ((min_size <= c_width c /\ min_size <= c_height c)
                      \/ (20 <= c_width c /\ 20 <= c_height c))%Z)
                 \/ (exists a b, In a customs /\ Main._can_merge_customs a b = true
                                 /\ c = Main._merge_two_customs a b)) out
    /\ (Forall (fun c => (min_size <= c_width c)%Z /\ (min_size <= c_height c)%Z) customs ->
        out = customs).
Proof.
  intros K customs min_size out. unfold out, Main._eliminate_micro_customs. clear out.
  set (step := fun (filtered : list Custom) (custom : Custom) =>
                 if ((c_width custom <? min_size) || (c_height custom <? min_size))%Z
                 then match Main.merge_into custom filtered with
                      | Some filtered' => filtered'
                      | None =>
                          if ((20 <=? c_width custom) && (20 <=? c_height custom))%Z
                          then filtered ++ [custom] else filtered
                      end
                 else filtered ++ [custom]).
  set (ok := fun (seen : list Custom) (c : Custom) =>
               (In c seen
                /\ ((min_size <= c_width c /\ min_size <= c_height c)
                    \/ (20 <= c_width c /\ 20 <= c_height c))%Z)
               \/ (exists a b, In a seen /\ Main._can_merge_customs a b = true
                               /\ c = Main._merge_two_customs a b)).
  assert (ok_more : forall seen x c, ok seen c -> ok (seen ++ [x]) c).
  { intros seen x c [(H1 & H2) | (a & b & H1 & H2)].
    - left. split; [apply in_or_app; left; exact H1 | exact H2].
    - right. exists a, b. split; [apply in_or_app; left; exact H1 | exact H2]. }
  assert (G : forall l seen filtered,
            (length filtered <= length seen)%nat -> Forall (ok seen) filtered ->
            (length (fold_left step l filtered) <= length (seen ++ l))%nat
            /\ Forall (ok (seen ++ l)) (fold_left step l filtered)).
  { induction l as [| c l IH]; intros seen filtered Hlen Hok; simpl.
    - rewrite app_nil_r. auto.
    - replace (seen ++ c :: l) with ((seen ++ [c]) ++ l)
        by (rewrite <- app_assoc; reflexivity).
      assert (Hok' : Forall (ok (seen ++ [c])) filtered)
        by (apply Forall_impl with (2 := Hok); intros x; apply ok_more).
      assert (Hc : In c (seen ++ [c])) by (apply in_or_app; right; left; reflexivity).
      apply IH; unfold step.
      + rewrite length_app. simpl.
        destruct ((c_width c <? min_size) || (c_height c <? min_size))%Z;
          [| rewrite length_app; simpl; lia].
        destruct (Main.merge_into c filtered) as [f' |] eqn:M.
        * destruct (merge_into_spec _ _ _ M) as (pre & cand & post & -> & _ & _ & ->).
          repeat (rewrite length_app in * || cbn [length] in * ). lia.
        * destruct ((20 <=? c_width c) && (20 <=? c_height c))%Z;
            [rewrite length_app; simpl |]; lia.
      + destruct ((c_width c <? min_size) || (c_height c <? min_size))%Z eqn:Small.
        * destruct (Main.merge_into c filtered) as [f' |] eqn:M.
          -- destruct (merge_into_spec _ _ _ M) as (pre & cand & post & -> & _ & Hm & ->).
             apply Forall_app in Hok'. destruct Hok' as (H1 & H2).
             inversion H2; subst.
             apply Forall_app. split; [exact H1 |].
             apply Forall_app. split; [assumption |].
             constructor; [| constructor]. right. exists c, cand. auto.
          -- destruct ((20 <=? c_width c) && (20 <=? c_height c))%Z eqn:Big;
               [| exact Hok'].
             apply andb_true_iff in Big. destruct Big as (B1 & B2).
             apply Z.leb_le in B1, B2.
             apply Forall_app. split; [exact Hok' |].
             constructor; [| constructor]. left. split; [exact Hc | right; lia].
        * apply orb_false_iff in Small. destruct Small as (S1 & S2).
          apply Z.ltb_ge in S1, S2.
          apply Forall_app. split; [exact Hok' |].
          constructor; [| constructor]. left. split; [exact Hc | left; lia]. }
  destruct (G customs [] [] (le_n _) (Forall_nil _)) as (G1 & G2). simpl in G1, G2.
  split; [exact G1 |]. split; [exact G2 |].
  intros Hall.
  assert (A : forall l filtered,
            Forall (fun c => (min_size <= c_width c)%Z /\ (min_size <= c_height c)%Z) l ->
            fold_left step l filtered = filtered ++ l).
  { induction l as [| c l IH]; intros filtered Hl; simpl.
    - rewrite app_nil_r. reflexivity.
    - inversion Hl as [| ? ? (Hw & Hh) Hl']; subst.
      unfold step at 2.
      assert (S1 : (c_width c <? min_size)%Z = false) by (apply Z.ltb_ge; exact Hw).
      assert (S2 : (c_height c <? min_size)%Z = false) by (apply Z.ltb_ge; exact Hh).
      rewrite S1, S2. simpl. rewrite (IH _ Hl'), <- app_assoc. reflexivity. }
  apply (A customs [] Hall).
Qed.

(** A sliver of 10 x 495 next to nothing is dropped; a piece of 300 x 495
    stays. *)
Lemma eliminate_micro_customs_spec_witness :
  let c1 := @mkCustom Rect.kernel 10 495 0 0 [Rect.mkBox 0 0 10 495] None None None in
  let c2 := @mkCustom Rect.kernel 300 495 1000 0 [Rect.mkBox 1000 0 1300 495]
                      None None None in
  Main._eliminate_micro_customs [c1; c2] 50 = [c2]
  /\ Main._eliminate_micro_customs [c2] 50 = [c2].
Proof.
  intros c1 c2. split; [reflexivity |].
  apply (proj2 (proj2 (@eliminate_micro_customs_spec Rect.kernel [c2] 50))).
  repeat constructor; discriminate.
Defined.

(** ** The cutting layout (main.py) *)

Lemma insert_by_perm {A : Type} (lt : A -> A -> bool) (a : A) (l : list A) :
  Permutation (a :: l) (Main.insert_by lt a l).
Proof.
  induction l as [| b r IH]; simpl; [apply Permutation_refl |].
  destruct (lt b a); [| apply Permutation_refl].
  apply perm_trans with (b :: a :: r); [apply perm_swap | apply perm_skip, IH].
Qed.

Lemma sorted_by_perm {A : Type} (lt : A -> A -> bool) (l : list A) :
  Permutation l (Main.sorted_by lt l).
Proof.
  induction l as [| a l IH]; simpl; [apply perm_nil |].
  apply perm_trans with (a :: Main.sorted_by lt l);
    [apply perm_skip, IH | apply insert_by_perm].
Qed.

(** Sorting by a key: with an order [lt] that is asymmetric and whose
    complement is transitive, no later element is smaller than an earlier
    one. *)
Lemma sorted_by_sorted {A : Type} (lt : A -> A -> bool) (l : list A) :
  (forall a b, lt a b = true -> lt b a = false) ->
  (forall a b c, lt b a = false -> lt c b = false -> lt c a = false) ->
  StronglySorted (fun a b => lt b a = false) (Main.sorted_by lt l).
Proof.
  intros asym trans. induction l as [| a l IH]; simpl; [constructor |].
  revert IH. generalize (Main.sorted_by lt l). clear l.
  induction l as [| b r IHr]; intros S; simpl.
  - repeat constructor.
  - inversion S as [| ? ? Sr Hb]; subst.
    destruct (lt b a) eqn:C.
    + constructor; [apply IHr, Sr |].
      rewrite Forall_forall in Hb |- *. intros x Hx.
      apply (Permutation_in _ (Permutation_sym (insert_by_perm lt a r))) in Hx.
      destruct Hx as [<- | Hx]; [apply asym, C | apply Hb, Hx].
    + constructor; [exact S |].
      constructor; [exact C |].
      rewrite Forall_forall in Hb |- *. intros x Hx.
      apply (trans a b x C), Hb, Hx.
Qed.

Lemma height_chain_snoc (heights : list Z) (pre : list nat) (last idx : nat) :
  height_chain heights (pre ++ [last]) ->
  (Z.abs (nth idx heights 0 - nth last heights 0) <= 50)%Z ->
  height_chain heights ((pre ++ [last]) ++ [idx]).
Proof.
  induction pre as [| a pre IH]; simpl; intros H Hc.
  - tauto.
  - destruct pre as [| b pre]; simpl in *.
    + tauto.
    + destruct H as (H1 & H2). split; [exact H1 |]. apply IH; assumption.
Qed.

Lemma cutting_row_step_ok (heights : list Z) (seen : list nat)
  (st : list (list nat) * list nat * option Z) (idx : nat) :
  rows_so_far heights seen st ->
  rows_so_far heights (seen ++ [idx]) (Main.cutting_row_step heights st idx).
Proof.
  destruct st as [[rows cur] crh]. unfold rows_so_far, Main.cutting_row_step.
  intros (Hcat & Hne & Hch & Hcur & Hlast).
  destruct crh as [h |].
  - destruct Hlast as (pre & last & -> & Hh).
    destruct (Z.leb_spec (Z.abs (nth idx heights 0 - h)) 50)%Z as [C | C].
    + split; [rewrite <- Hcat, <- !app_assoc; reflexivity |].
      split; [exact Hne |]. split; [exact Hch |].
      split; [apply height_chain_snoc; [exact Hcur | rewrite Hh; exact C] |].
      exists (pre ++ [last]), idx. auto.
    + destruct (pre ++ [last]) as [| x xs] eqn:E;
        [destruct pre; discriminate |]. rewrite <- E in *.
      split; [rewrite concat_app; simpl; rewrite app_nil_r, <- Hcat; reflexivity |].
      split; [apply Forall_app; split; [exact Hne |];
              repeat constructor; rewrite E; discriminate |].
      split; [apply Forall_app; split; [exact Hch | repeat constructor; exact Hcur] |].
      split; [exact I |]. exists [], idx. auto.
  - subst cur. rewrite app_nil_r in Hcat.
    split; [rewrite <- Hcat; reflexivity |].
    split; [exact Hne |]. split; [exact Hch |]. split; [exact I |].
    exists [], idx. auto.
Qed.

Lemma cutting_rows_fold (heights : list Z) (l seen : list nat)
  (st : list (list nat) * list nat * option Z) :
  rows_so_far heights seen st ->
  rows_so_far heights (seen ++ l) (fold_left (Main.cutting_row_step heights) l st).
Proof.
  revert seen st. induction l as [| idx l IH]; intros seen st H; simpl.
  - rewrite app_nil_r. exact H.
  - replace (seen ++ idx :: l) with ((seen ++ [idx]) ++ l)
      by (rewrite <- app_assoc; reflexivity).
    apply IH, cutting_row_step_ok, H.
Qed.

Lemma taller_first_asym (heights widths : list Z) (a b : nat) :
  Main.taller_first heights widths a b = true ->
  Main.taller_first heights widths b a = false.
Proof.
  unfold Main.taller_first.
  destruct (Z.eqb_spec (- nth a heights 0) (- nth b heights 0))%Z as [E | NE];
    destruct (Z.eqb_spec (- nth b heights 0) (- nth a heights 0))%Z as [E' | NE'];
    try lia; intros H; apply Z.ltb_lt in H; apply Z.ltb_ge; lia.
Qed.

Lemma taller_first_trans (heights widths : list Z) (a b c : nat) :
  Main.taller_first heights widths b a = false ->
  Main.taller_first heights widths c b = false ->
  Main.taller_first heights widths c a = false.
Proof.
  unfold Main.taller_first.
  destruct (Z.eqb_spec (- nth b heights 0) (- nth a heights 0))%Z;
    destruct (Z.eqb_spec (- nth c heights 0) (- nth b heights 0))%Z;
    destruct (Z.eqb_spec (- nth c heights 0) (- nth a heights 0))%Z;
    rewrite ?Z.ltb_ge; lia.
Qed.

Lemma cutting_rows_concat {K : Shapely} (customs : list Custom) :
  let rows := Main._optimize_cutting_layout customs in
  let heights := map c_height customs in
  concat rows = Main.sorted_by (Main.taller_first heights (map c_width customs))
                               (seq 0 (length customs))
  /\ Forall (fun r => r <> []) rows
  /\ Forall (height_chain heights) rows.
Proof.
  cbv zeta. unfold Main._optimize_cutting_layout.
  destruct customs as [| c0 cs].
  { simpl. repeat split; constructor. }
  cbv beta iota zeta. remember (c0 :: cs) as customs eqn:Ec. clear Ec c0 cs.
  set (heights := map c_height customs).
  set (widths := map c_width customs).
  set (sorted_indices := Main.sorted_by (Main.taller_first heights widths)
                                        (seq 0 (length customs))).
  assert (H0 : rows_so_far heights [] ([], [], None)).
  { unfold rows_so_far. simpl. repeat split; constructor. }
  pose proof (cutting_rows_fold heights sorted_indices [] _ H0) as H. simpl in H.
  destruct (fold_left (Main.cutting_row_step heights) sorted_indices ([], [], None))
    as [[rows cur] crh].
  destruct H as (Hcat & Hne & Hch & Hcur & _).
  split; [| split].
  - destruct cur; [rewrite app_nil_r in Hcat; exact Hcat |].
    rewrite concat_app. simpl. rewrite app_nil_r. exact Hcat.
  - destruct cur; [exact Hne |].
    apply Forall_app. split; [exact Hne | repeat constructor; discriminate].
  - destruct cur; [exact Hch |].
    apply Forall_app. split; [exact Hch | repeat constructor; exact Hcur].
Qed.

(** X18.  [_optimize_cutting_layout] puts every piece in exactly one row:
    the rows, one after the other, are the indices of the pieces sorted by
    decreasing height; no row is empty, and neighbours in a row differ by at
    most 50 in height. *)
Theorem cutting_layout_rows :
  forall (K : Shapely) (customs : list Custom),
    let rows := Main._optimize_cutting_layout customs in
    let heights := map c_height customs in
    Permutation (concat rows) (seq 0 (length customs))
    /\ StronglySorted (fun i j => (nth j heights 0 <= nth i heights 0)%Z) (concat rows)
    /\ Forall (fun r => r <> []) rows
    /\ Forall (height_chain heights) rows.
Proof.
  intros K customs. cbv zeta.
  destruct (cutting_rows_concat customs) as (Hrows & Hne & Hch).
  rewrite Hrows. split; [| split; [| split]]; [| | exact Hne | exact Hch].
  - apply Permutation_sym, sorted_by_perm.
  - set (heights := map c_height customs).
    set (widths := map c_width customs).
    pose proof (sorted_by_sorted (Main.taller_first heights widths)
                  (seq 0 (length customs))
                  (taller_first_asym heights widths)
                  (taller_first_trans heights widths)) as S.
    revert S. generalize (Main.sorted_by (Main.taller_first heights widths)
                                         (seq 0 (length customs))).
    induction 1 as [| a l Sl IH Ha]; constructor; [exact IH |].
    apply Forall_impl with (2 := Ha). intros b Hb. unfold Main.taller_first in Hb.
    destruct (Z.eqb_spec (- nth b heights 0) (- nth a heights 0))%Z; [lia |].
    apply Z.ltb_ge in Hb. lia.
Qed.

(** X19.  The height of the cutting schema: 1000 without custom pieces, else
    at least 1500 and at most 700 for each piece plus 800, since there are
    no more rows than pieces. *)
Theorem cutting_height_bounds :
  forall (K : Shapely) (customs : list Custom),
    (customs = [] -> Main._calculate_cutting_height customs = 1000%Z)
    /\ (customs <> [] ->
        (1500 <= Main._calculate_cutting_height customs
         <= 700 * Z.of_nat (length customs) + 800)%Z
        /\ (1 <= length (Main._optimize_cutting_layout customs) <= length customs)%nat).
Proof.
  intros K customs. split; [intros ->; reflexivity |].
  intros Hne.
  destruct (cutting_rows_concat customs) as (Hcat & Hrows & _).
  assert (P : Permutation (concat (Main._optimize_cutting_layout customs))
                          (seq 0 (length customs)))
    by (rewrite Hcat; apply Permutation_sym, sorted_by_perm).
  clear Hcat.
  assert (L : (length (Main._optimize_cutting_layout customs) <= length customs)%nat).
  { apply Permutation_length in P. rewrite length_seq in P. rewrite <- P.
    revert Hrows. generalize (Main._optimize_cutting_layout customs).
    induction 1 as [| r rows Hr _ IH]; simpl; [lia |].
    rewrite length_app. destruct r; [congruence | simpl; lia]. }
  assert (L1 : (1 <= length (Main._optimize_cutting_layout customs))%nat).
  { apply Permutation_length in P. rewrite length_seq in P.
    destruct (Main._optimize_cutting_layout customs); simpl in *; [| lia].
    destruct customs; [congruence | discriminate]. }
  split; [| lia].
  unfold Main._calculate_cutting_height.
  destruct customs as [| c0 cs] eqn:Ec; [congruence |]. rewrite <- Ec in *.
  assert (1 <= length customs)%nat by (rewrite Ec; simpl; lia). lia.
Qed.

(** Pieces 300, 495 and 480 high: the two tall ones share a row. *)
Lemma cutting_height_bounds_witness :
  let mk := fun h x => @mkCustom Rect.kernel 100 h x 0 [Rect.mkBox (inject_Z x) 0
                                  (inject_Z x + 100) (inject_Z h)] None None None in
  Main._optimize_cutting_layout [mk 300%Z 0%Z; mk 495%Z 100%Z; mk 480%Z 200%Z]
  = [[1; 2]; [0]]%nat
  /\ (1500 <= Main._calculate_cutting_height
                [mk 300%Z 0%Z; mk 495%Z 100%Z; mk 480%Z 200%Z])%Z.
Proof.
  intros mk. split; [reflexivity |].
  apply (proj2 (@cutting_height_bounds Rect.kernel
                  [mk 300%Z 0%Z; mk 495%Z 100%Z; mk 480%Z 200%Z])).
  discriminate.
Defined.

(** ** The layout manager of the DXF export (main.py) *)

Lemma lookup_store_same (name : String.string) (z : Layout.zone)
  (zs : list (String.string * Layout.zone)) :
  Layout.lookup name (Layout.store name z zs) = Some z.
Proof.
  induction zs as [| [n z0] rest IH]; simpl.
  - rewrite String.eqb_refl. reflexivity.
  - destruct (String.eqb n name) eqn:E; simpl; rewrite E; [reflexivity | exact IH].
Qed.

Lemma lookup_store_other (name n : String.string) (z : Layout.zone)
  (zs : list (String.string * Layout.zone)) :
  n <> name -> Layout.lookup n (Layout.store name z zs) = Layout.lookup n zs.
Proof.
  intros Hn. induction zs as [| [n0 z0] rest IH]; simpl.
  - destruct (String.eqb_spec name n); [congruence | reflexivity].
  - destruct (String.eqb_spec n0 name) as [-> | NE]; simpl.
    + destruct (String.eqb_spec name n); [congruence | reflexivity].
    + destruct (String.eqb n0 n); [reflexivity | exact IH].
Qed.

Lemma lookup_In (name : String.string) (z : Layout.zone)
  (zs : list (String.string * Layout.zone)) :
  Layout.lookup name zs = Some z -> exists n, In (n, z) zs.
Proof.
  induction zs as [| [n0 z0] rest IH]; simpl; [discriminate |].
  destruct (String.eqb n0 name).
  - intros H; inversion H; subst. exists n0. left. reflexivity.
  - intros H. destruct (IH H) as (n & Hn). exists n. right. exact Hn.
Qed.

Lemma fold_Qmin_le (r : list Q) (a : Q) :
  fold_left Qmin r a <= a /\ Forall (fun x => fold_left Qmin r a <= x) r.
Proof.
  revert a. induction r as [| b r IH]; simpl; intros a.
  - split; [apply Qle_refl | constructor].
  - destruct (IH (Qmin a b)) as (H1 & H2). split.
    + apply Qle_trans with (Qmin a b); [exact H1 | apply Q.le_min_l].
    + constructor; [apply Qle_trans with (Qmin a b); [exact H1 | apply Q.le_min_r] |].
      exact H2.
Qed.

Lemma py_min_Q_le (l : list Q) (m : Q) :
  Layout.py_min_Q l = Ret m -> Forall (fun x => m <= x) l.
Proof.
  destruct l as [| a r]; simpl; intros H; [discriminate |].
  inversion H; subst. destruct (fold_Qmin_le r a) as (H1 & H2).
  constructor; assumption.
Qed.

Lemma zone_within_update (total : Q * Q * Q * Q) (z z' : Layout.zone) :
  zone_within total z' -> zone_within (Layout._update_total_bounds total z) z'.
Proof.
  destruct total as [[[minx miny] maxx] maxy]. unfold zone_within. simpl.
  intros (H1 & H2 & H3 & H4).
  pose proof (Q.le_min_l minx (Layout.z_x z)).
  pose proof (Q.le_min_l miny (Layout.z_y z - Layout.z_height z)).
  pose proof (Q.le_max_l maxx (Layout.z_x z + Layout.z_width z)).
  pose proof (Q.le_max_l maxy (Layout.z_y z)).
  repeat split; lra.
Qed.

Lemma zone_within_new (total : Q * Q * Q * Q) (z : Layout.zone) :
  zone_within (Layout._update_total_bounds total z) z.
Proof.
  destruct total as [[[minx miny] maxx] maxy]. unfold zone_within. simpl.
  repeat split;
    [apply Q.le_min_r | apply Q.le_max_r | apply Q.le_min_r | apply Q.le_max_r].
Qed.

(** X20.  The bounds of the layout manager hold all it was given: a new
    manager has the origin within its bounds, and [add_zone] keeps the
    origin and every zone of the dict within the total bounds, stores the
    zone it returns under its name and leaves the other names alone; so the
    total width and height are never negative. *)
Theorem add_zone_keeps_bounds :
  forall (base_width base_height : Q),
    bounds_hold (Layout.init base_width base_height)
    /\ forall (m m' : Layout.manager) (name : String.string) (width height : Q)
              (a : Layout.anchor) (ref_zone : option String.string) (margin : Q)
              (z : Layout.zone),
         bounds_hold m ->
         Layout.add_zone m name width height a ref_zone margin = Ret (m', z) ->
         bounds_hold m'
         /\ Layout.lookup name (Layout.zones m') = Some z
         /\ (forall n, n <> name ->
               Layout.lookup n (Layout.zones m') = Layout.lookup n (Layout.zones m))
         /\ Layout.z_width z = width /\ Layout.z_height z = height
         /\ 0 <= Layout.get_total_width m' /\ 0 <= Layout.get_total_height m'.
Proof.
  intros bw bh. split.
  - unfold bounds_hold, Layout.init. simpl.
    split; [repeat split; apply Qle_refl | discriminate].
  - intros m m' name width height a ref_zone margin z Hm H.
    unfold Layout.add_zone in H. apply bind_Ret in H.
    destruct H as ([x y] & _ & H). inversion H; subst; clear H.
    assert (B : bounds_hold
                  (Layout.mkManager
                     (Layout.store name (Layout.mkZone name x y width height a ref_zone)
                                   (Layout.zones m))
                     (Layout.base_width m) (Layout.base_height m)
                     (Layout._update_total_bounds
                        (Layout.total_bounds m)
                        (Layout.mkZone name x y width height a ref_zone)))).
    { unfold bounds_hold in *. cbn [Layout.total_bounds Layout.zones].
      destruct (Layout.total_bounds m) as [[[minx miny] maxx] maxy] eqn:T.
      destruct Hm as ((O1 & O2 & O3 & O4) & Hz).
      cbn [Layout._update_total_bounds Layout.z_x Layout.z_y Layout.z_width
           Layout.z_height].
      split.
      - pose proof (Q.le_min_l minx x). pose proof (Q.le_min_l miny (y - height)).
        pose proof (Q.le_max_l maxx (x + width)). pose proof (Q.le_max_l maxy y).
        repeat split; lra.
      - intros n z' Hl.
        change (zone_within
                  (Layout._update_total_bounds (minx, miny, maxx, maxy)
                     (Layout.mkZone name x y width height a ref_zone)) z').
        destruct (String.eqb_spec n name) as [-> | NE].
        + rewrite lookup_store_same in Hl. inversion Hl; subst.
          apply zone_within_new.
        + rewrite (lookup_store_other _ _ _ _ NE) in Hl.
          apply zone_within_update, (Hz n z' Hl). }
    split; [exact B |]. cbn [Layout.zones].
    split; [apply lookup_store_same |].
    split; [intros n Hn; apply lookup_store_other, Hn |].
    split; [reflexivity |]. split; [reflexivity |].
    unfold bounds_hold in B. unfold Layout.get_total_width, Layout.get_total_height.
    destruct (Layout.total_bounds _) as [[[minx miny] maxx] maxy].
    destruct B as ((O1 & O2 & O3 & O4) & _). split; lra.
Qed.

Lemma add_zone_keeps_bounds_witness :
  let z := Layout.mkZone "main"%string 0 0 5000 3000 Layout.topleft None in
  let m := Layout.mkManager [("main"%string, z)] 5000 3000
                            (Layout._update_total_bounds (0, 0, 0, 0) z) in
  Layout.add_zone (Layout.init 5000 3000) "main"%string 5000 3000 Layout.topleft None 500
  = Ret (m, z)
  /\ bounds_hold m /\ Layout.get_total_width m == 5000.
Proof.
  intros z m. split; [reflexivity |]. split.
  - refine (proj1 (proj2 (add_zone_keeps_bounds 5000 3000)
                         (Layout.init 5000 3000) m "main"%string 5000 3000
                         Layout.topleft None 500 z
                         (proj1 (add_zone_keeps_bounds 5000 3000)) eq_refl)).
  - reflexivity.
Defined.

(** X21.  Where [add_zone] puts a zone that refers to a zone [ref] of the
    dict.  "right_of": at the height of [ref], [margin] to the right of its
    right edge, so the two are apart when the margin is not negative.
    "below" and "below_right": the top of the new zone is its own height
    plus [margin] under the top of [ref], so it is under the bottom of
    [ref] exactly when [ref] is at most that high.  "bottom": its top is
    the height plus [margin] under the lowest bottom of all zones.  With no
    zone at all "bottom" raises, and a reference that is not in the dict
    sends the three other anchors to the origin. *)
Theorem anchor_positions :
  forall (m m' : Layout.manager) (name r : String.string) (width height margin : Q)
         (z : Layout.zone),
    (forall ref,
       Layout.lookup r (Layout.zones m) = Some ref ->
       (Layout.add_zone m name width height Layout.right_of (Some r) margin = Ret (m', z) ->
        Layout.z_x z = Layout.z_x ref + Layout.z_width ref + margin
        /\ Layout.z_y z = Layout.z_y ref
        /\ (0 <= margin -> zones_apart ref z))
       /\ (Layout.add_zone m name width height Layout.below (Some r) margin = Ret (m', z) ->
           Layout.z_x z = Layout.z_x ref
           /\ Layout.z_y z = Layout.z_y ref - height - margin
           /\ (Layout.z_y z <= Layout.z_y ref - Layout.z_height ref
               <-> Layout.z_height ref <= height + margin))
       /\ (Layout.add_zone m name width height Layout.below_right (Some r) margin
           = Ret (m', z) ->
           Layout.z_x z = Layout.z_x ref + Layout.z_width ref - width
           /\ Layout.z_y z = Layout.z_y ref - height - margin
           /\ (Layout.z_y z <= Layout.z_y ref - Layout.z_height ref
               <-> Layout.z_height ref <= height + margin)))
    /\ (Layout.add_zone m name width height Layout.bottom (Some r) margin = Ret (m', z) ->
        Layout.z_x z = 0
        /\ forall n e, Layout.lookup n (Layout.zones m) = Some e ->
             Layout.z_y z <= Layout.z_y e - Layout.z_height e - margin - height
             /\ (0 <= margin + height -> zones_apart e z))
    /\ (Layout.zones m = [] ->
        Layout.add_zone m name width height Layout.bottom (Some r) margin
        = Raise EmptySequence)
    /\ (Layout.lookup r (Layout.zones m) = None ->
        forall a, a = Layout.right_of \/ a = Layout.below \/ a = Layout.below_right ->
          Layout.add_zone m name width height a (Some r) margin = Ret (m', z) ->
          Layout.z_x z = 0 /\ Layout.z_y z = 0).
Proof.
  intros m m' name r width height margin z. split; [| split; [| split]].
  - intros ref Hl.
    unfold Layout.add_zone, Layout.position. rewrite Hl. cbn [bind].
    split; [| split]; intros H; inversion H; subst; clear H;
      cbn [Layout.z_x Layout.z_y Layout.z_width Layout.z_height].
    + split; [reflexivity |]. split; [reflexivity |].
      intros Hm. unfold zones_apart. cbn [Layout.z_x Layout.z_y Layout.z_width Layout.z_height].
      left. lra.
    + split; [reflexivity |]. split; [reflexivity |]. split; intros; lra.
    + split; [reflexivity |]. split; [reflexivity |]. split; intros; lra.
  - unfold Layout.add_zone, Layout.position. intros H.
    apply bind_Ret in H. destruct H as ([x y] & Hp & H).
    inversion H; subst; clear H. cbn [Layout.z_x Layout.z_y Layout.z_width Layout.z_height].
    apply bind_Ret in Hp. destruct Hp as (lowest & Hmin & Hp).
    inversion Hp; subst; clear Hp. split; [reflexivity |].
    intros n e He. apply py_min_Q_le in Hmin. rewrite Forall_forall in Hmin.
    destruct (lookup_In _ _ _ He) as (n' & Hin).
    assert (L : lowest <= Layout.z_y e - Layout.z_height e).
    { apply Hmin. apply (in_map (fun nz => Layout.z_y (snd nz) - Layout.z_height (snd nz))
                                _ _ Hin). }
    split; [lra |]. intros Hm. unfold zones_apart.
    cbn [Layout.z_x Layout.z_y Layout.z_width Layout.z_height]. right. right. right. lra.
  - intros E. unfold Layout.add_zone, Layout.position. rewrite E.
    destruct (match Some r with Some r0 => Layout.lookup r0 [] | None => None end);
      reflexivity.
  - intros Hl a Ha. unfold Layout.add_zone, Layout.position. rewrite Hl.
    destruct Ha as [-> | [-> | ->]]; cbn [bind]; intros H; inversion H; subst;
      split; reflexivity.
Qed.

(** Tables of 1300 under a wall of 3000 with a margin of 1200: the top of
    the tables is at -2500, above the bottom of the wall at -3000. *)
Lemma anchor_positions_witness :
  let main_zone := Layout.mkZone "main"%string 0 0 5000 3000 Layout.topleft None in
  let m := Layout.mkManager [("main"%string, main_zone)] 5000 3000
                            (0, - (3000), 5000, 0) in
  let tables := Layout.mkZone "tables"%string 0 (0 - 1300 - 1200) 5000 1300 Layout.below
                              (Some "main"%string) in
  let m' := Layout.mkManager [("main"%string, main_zone); ("tables"%string, tables)]
                             5000 3000
                             (Layout._update_total_bounds (0, - (3000), 5000, 0) tables) in
  ~ Layout.z_y tables <= Layout.z_y main_zone - Layout.z_height main_zone.
Proof.
  intros main_zone m tables m'.
  pose proof (proj1 (proj2 (proj1 (anchor_positions m m' "tables"%string "main"%string
                                     5000 1300 1200 tables)
                                  main_zone eq_refl)) eq_refl) as (_ & _ & H).
  intros N. apply H in N. revert N. vm_compute. intros N. apply N. reflexivity.
Defined.

(** Facts about the minima that occur in a goal. *)
Ltac min_facts :=
  repeat match goal with
         | |- context [Qmin ?a ?b] =>
             let q := fresh "q" in
             pose proof (Q.le_min_l a b); pose proof (Q.le_min_r a b);
             set (q := Qmin a b) in *; clearbody q
         | H : context [Qmin ?a ?b] |- _ =>
             let q := fresh "q" in
             pose proof (Q.le_min_l a b); pose proof (Q.le_min_r a b);
             set (q := Qmin a b) in *; clearbody q
         end.

(** X22.  The five zones of [export_to_dxf] are always laid out.  The
    cutting schema stands right of the wall, 1500 apart; the legend lies
    under the four other zones.  The tables hang from the top of the wall,
    their own height plus 1200 down: they are under the wall exactly when
    the wall is at most that high; and the cartridge is under the tables
    exactly when the tables are at most 2300 high. *)
Theorem export_zones_layout :
  forall (wall_width wall_height cutting_height tables_height : Q),
    exists m main_zone cutting tables cartridge legend,
      Layout.export_zones wall_width wall_height cutting_height tables_height
      = Ret (m, (main_zone, cutting, tables, cartridge, legend))
      /\ Layout.z_x cutting = Layout.z_x main_zone + Layout.z_width main_zone + 1500
      /\ zones_apart main_zone cutting
      /\ (zones_apart main_zone legend /\ zones_apart cutting legend
          /\ zones_apart tables legend /\ zones_apart cartridge legend)
      /\ (Layout.z_y tables <= Layout.z_y main_zone - Layout.z_height main_zone
          <-> wall_height <= tables_height + 1200)
      /\ (Layout.z_y cartridge <= Layout.z_y tables - Layout.z_height tables
          <-> tables_height <= 2300).
Proof.
  intros W H ch th.
  unfold Layout.export_zones, Layout.add_zone, Layout.position, Layout.init.
  with_strategy opaque [Qplus Qminus Qmult Qmin Qmax Qopp Qdiv] cbn.
  do 6 eexists. split; [reflexivity |].
  unfold zones_apart.
  with_strategy opaque [Qplus Qminus Qmult Qmin Qmax Qopp Qdiv] cbn.
  split; [reflexivity |]. split; [left; lra |]. split; [| split].
  - repeat split; right; right; right; min_facts; lra.
  - split; intros; lra.
  - split; intros; lra.
Qed.

(** ** Tagging and metrics (main.py) *)

Section MainTagging.
Context {K : Shapely}.

(** The tag main.py gives a piece of [w] x [h]. *)
Let tag_of (c : Custom) : ctype_tag :=
  if ((413 + SCARTO_CUSTOM_MM <=? int_round (c_width c))
      || (495 + SCARTO_CUSTOM_MM <? int_round (c_height c)))%Z
  then out_of_spec
  else if ((Z.abs (int_round (c_height c) - 495) <=? SCARTO_CUSTOM_MM)
           && (int_round (c_width c) <? 413 + SCARTO_CUSTOM_MM))%Z
  then ctype_1 else ctype_2.

Lemma Main_tag_map (custom : list Custom) :
  Main.validate_and_tag_customs custom = map (fun c => set_ctype c (tag_of c)) custom.
Proof.
  unfold Main.validate_and_tag_customs. apply map_ext. intros c. unfold tag_of.
  destruct (_ || _)%bool; [reflexivity |]. destruct (_ && _)%bool; reflexivity.
Qed.

Lemma Main_tag_cases (c : Custom) :
  (tag_of c = out_of_spec <-> (418 <= c_width c \/ 500 < c_height c)%Z)
  /\ (tag_of c = ctype_1
      <-> (c_width c < 418 /\ Z.abs (c_height c - 495) <= 5)%Z)
  /\ (tag_of c = ctype_2 <-> (c_width c < 418 /\ c_height c < 490)%Z).
Proof.
  unfold tag_of, SCARTO_CUSTOM_MM. rewrite !int_round_id.
  destruct (Z.leb_spec (413 + 5) (c_width c)), (Z.ltb_spec (495 + 5) (c_height c)),
    (Z.leb_spec (Z.abs (c_height c - 495)) 5), (Z.ltb_spec (c_width c) (413 + 5));
    simpl; repeat split; intros; try discriminate; try reflexivity; lia.
Qed.

Lemma Main_tag_idempotent (c : Custom) (t : ctype_tag) :
  tag_of (set_ctype c t) = tag_of c.
Proof. reflexivity. Qed.

End MainTagging.

(** X23.  [validate_and_tag_customs] of main.py tags every piece, in place
    and in order, and changes nothing but the tag: "out_of_spec" exactly for
    a width of 418 or more or a height above 500, 1 exactly for a width
    under 418 with a height within 5 of 495, and 2 exactly for a width under
    418 with a height under 490.  Tagging twice is tagging once. *)
Theorem Main_classification :
  forall (K : Shapely) (custom : list Custom),
    let out := Main.validate_and_tag_customs custom in
    length out = length custom
    /\ (forall i c, nth_error custom i = Some c ->
          exists t,
            nth_error out i = Some (set_ctype c t)
            /\ (t = out_of_spec <-> (418 <= c_width c \/ 500 < c_height c)%Z)
            /\ (t = ctype_1 <-> (c_width c < 418 /\ Z.abs (c_height c - 495) <= 5)%Z)
            /\ (t = ctype_2 <-> (c_width c < 418 /\ c_height c < 490)%Z))
    /\ Main.validate_and_tag_customs out = out.
Proof.
  intros K custom out. unfold out. rewrite !Main_tag_map.
  split; [apply length_map |]. split.
  - intros i c H. eexists. split.
    + rewrite nth_error_map, H. reflexivity.
    + apply Main_tag_cases.
  - rewrite map_map. apply map_ext. intros c. reflexivity.
Qed.

(** A piece of 418 x 495 is out of spec for main.py. *)
Lemma Main_classification_witness :
  let c := @mkCustom Rect.kernel 418 495 0 0 [Rect.mkBox 0 0 418 495] None None None in
  exists t, nth_error (Main.validate_and_tag_customs [c]) 0 = Some (set_ctype c t)
            /\ t = out_of_spec.
Proof.
  intros c.
  destruct (proj1 (proj2 (@Main_classification Rect.kernel [c])) 0%nat c eq_refl)
    as (t & Ht & Hout & _).
  exists t. split; [exact Ht |]. apply Hout. left. discriminate.
Defined.

(** X24.  [calculate_metrics]: without any block all the figures are 0 and
    there is no coverage figure; else the efficiency, the share of standard
    blocks, lies between 0 and 1 and is 1 exactly when there is no custom
    piece, and there is a coverage figure.  The complexity counts pieces
    tagged 2, so it is at most the number of custom pieces, and the waste
    ratio is 0 for a wall area that is not positive. *)
Theorem calculate_metrics_bounds :
  forall (K : Shapely) (placed : list Placed) (customs : list Custom) (wall_area : Q),
    let m := Main.calculate_metrics placed customs wall_area in
    (placed = [] -> customs = [] -> m = Main.mkMetrics 0 0 0 None)
    /\ 0 <= Main.m_efficiency m <= 1
    /\ (placed <> [] \/ customs <> [] ->
        (Main.m_efficiency m == 1 <-> customs = [])
        /\ Main.m_total_area_coverage m <> None)
    /\ (Main.m_complexity m <= length customs)%nat
    /\ (wall_area <= 0 -> Main.m_waste_ratio m == 0).
Proof.
  intros K placed customs wall_area m. unfold m, Main.calculate_metrics. clear m.
  split; [intros -> ->; reflexivity |].
  destruct (Nat.eqb_spec (length placed + length customs) 0) as [E | NE];
    cbn [Main.m_efficiency Main.m_total_area_coverage Main.m_complexity
         Main.m_waste_ratio].
  - split; [split; [apply Qle_refl | discriminate] |]. split.
    + intros [H | H]; exfalso; apply H; [destruct placed | destruct customs];
        try reflexivity; simpl in E; lia.
    + split; [lia | intros _; reflexivity].
  - assert (Hpos : 0 < inject_Z (Z.of_nat (length placed + length customs))).
    { change 0 with (inject_Z 0). rewrite <- Zlt_Qlt. lia. }
    assert (Hp : 0 <= inject_Z (Z.of_nat (length placed))).
    { change 0 with (inject_Z 0). rewrite <- Zle_Qle. lia. }
    assert (Hle : inject_Z (Z.of_nat (length placed))
                  <= inject_Z (Z.of_nat (length placed + length customs))).
    { rewrite <- Zle_Qle. lia. }
    split; [split |].
    + apply Qle_shift_div_l; [exact Hpos | lra].
    + apply Qle_shift_div_r; [exact Hpos | lra].
    + split; [| split].
      * intros _. split; [| discriminate]. split.
        -- intros H1.
           assert (E1 : inject_Z (Z.of_nat (length placed))
                        == inject_Z (Z.of_nat (length placed + length customs))).
           { rewrite <- (Qmult_1_l (inject_Z (Z.of_nat (length placed + length customs)))).
             rewrite <- H1. field. lra. }
           apply (proj1 (inject_Z_injective _ _)) in E1.
           destruct customs; [reflexivity | exfalso; cbn [length] in E1; lia].
        -- intros ->. simpl length. rewrite Nat.add_0_r. field. 
           rewrite Nat.add_0_r in Hpos. lra.
      * apply Nat.le_trans with (length customs); [apply filter_length_le | lia].
      * intros Hw. apply Qltb_ge in Hw. rewrite Hw. reflexivity.
Qed.

Lemma calculate_metrics_bounds_witness :
  Main.m_efficiency (@Main.calculate_metrics Rect.kernel [_mk_std 0 0 413 495] []
                       (413 * 495)) == 1.
Proof.
  assert (Hne : [_mk_std 0 0 413 495] <> [] \/ @nil (@Custom Rect.kernel) <> [])
    by (left; discriminate).
  exact (proj2 (proj1 (proj1 (proj2 (proj2 (@calculate_metrics_bounds Rect.kernel
                                              [_mk_std 0 0 413 495] [] (413 * 495))))
                             Hne)) eq_refl).
Defined.

(** ** [_try_fill] (main.py) *)

Section TryFill.
Context {K : Shapely}.
Variables (comp : geom) (y stripe_top : Z) (seg_maxx : Q).

Lemma Main_first_fit_runs (cursor : Z) (placed : list Placed) (custom : list Custom)
  (widths : list Z) :
  Main.first_fit comp y stripe_top seg_maxx cursor placed custom widths <> OutOfFuel.
Proof.
  induction widths as [| bw rest IH]; simpl; [discriminate |].
  destruct (Qle_bool _ _); [| exact IH].
  destruct (_ || _)%bool; [exact IH |].
  destruct (isclose _ _); [discriminate |].
  apply not_OutOfFuel_bind; [apply Main_mk_custom_runs | discriminate].
Qed.

(** What the first width that fits does to the cursor and the lists. *)
Lemma Main_first_fit_spec (cursor : Z) (placed : list Placed) (custom : list Custom)
  (widths : list Z) (cursor' : Z) (placed' : list Placed) (custom' : list Custom) :
  Main.first_fit comp y stripe_top seg_maxx cursor placed custom widths
  = Ret (Some (cursor', placed', custom')) ->
  exists bw,
    In bw widths /\ cursor' = (cursor + bw)%Z
    /\ inject_Z cursor + inject_Z bw <= seg_maxx + COORD_EPS
    /\ ((placed' = placed ++ [mkPlaced (std_type bw BLOCK_HEIGHT) bw BLOCK_HEIGHT cursor y]
         /\ custom' = custom)
        \/ (placed' = placed /\ exists c, custom' = custom ++ [c])).
Proof.
  induction widths as [| bw rest IH]; simpl; [discriminate |].
  destruct (Qle_bool (inject_Z cursor + inject_Z bw) (seg_maxx + COORD_EPS)) eqn:C.
  2:{ intros H. destruct (IH H) as (b & Hb & R). exists b. split; [right; exact Hb | exact R]. }
  apply Qle_bool_iff in C.
  destruct (_ || _)%bool.
  { intros H. destruct (IH H) as (b & Hb & R). exists b. split; [right; exact Hb | exact R]. }
  destruct (isclose _ _).
  - intros H. inversion H; subst; clear H. exists bw.
    split; [left; reflexivity |]. split; [apply snap_plus |]. split; [exact C |].
    left. unfold _mk_std. rewrite !snap_inject_Z. auto.
  - intros H. apply bind_Ret in H. destruct H as (c & _ & H).
    inversion H; subst; clear H. exists bw.
    split; [left; reflexivity |]. split; [apply snap_plus |]. split; [exact C |].
    right. split; [reflexivity | exists c; reflexivity].
Qed.

Variable widths : list Z.
Hypothesis positive : Forall (fun w => (0 < w)%Z) widths.
Variable start : Z.

Let filled : Z * list Placed * list Custom -> Prop :=
  fill_laid y seg_maxx widths start.

Lemma try_fill_step (s s' : Z * list Placed * list Custom) :
  filled s ->
  Main.try_fill_body comp y stripe_top seg_maxx widths s = Ret (inl s') ->
  filled s' /\ (fst (fst s) < fst (fst s'))%Z
  /\ inject_Z (fst (fst s)) < seg_maxx - COORD_EPS.
Proof.
  destruct s as [[cursor placed] custom]. unfold filled, fill_laid. cbn [fst snd].
  intros (Hc & Hs & Hok) H. unfold Main.try_fill_body in H.
  destruct (Qltb (inject_Z cursor) (seg_maxx - COORD_EPS)) eqn:C; [| discriminate].
  apply Qltb_lt in C.
  apply bind_Ret in H. destruct H as ([[[c' p'] cu'] |] & Hfit & H).
  2:{ apply bind_Ret in H. destruct H as (x & _ & H). discriminate. }
  inversion H; subst; clear H. cbn [fst snd].
  destruct (Main_first_fit_spec _ _ _ _ _ _ _ Hfit) as (bw & Hin & -> & Hle & Hcase).
  rewrite Forall_forall in positive. pose proof (positive _ Hin) as Hpos.
  split; [| split; [lia | exact C]].
  split; [lia |].
  destruct Hcase as [(-> & ->) | (-> & c & ->)].
  - split.
    + apply StronglySorted_snoc; [exact Hs |].
      apply Forall_impl with (2 := Hok). intros q Hq. unfold ends_before. simpl. tauto.
    + apply Forall_app. split.
      * apply Forall_impl with (2 := Hok). intros q Hq. repeat split; try tauto. lia.
      * constructor; [| constructor]. simpl.
        rewrite inject_Z_plus. repeat split; auto; lia.
  - split; [exact Hs |].
    apply Forall_impl with (2 := Hok). intros q Hq. repeat split; try tauto. lia.
Qed.

Lemma try_fill_exit (s : Z * list Placed * list Custom) (r : list Placed * list Custom) :
  Main.try_fill_body comp y stripe_top seg_maxx widths s = Ret (inr r) ->
  fst r = snd (fst s).
Proof.
  destruct s as [[cursor placed] custom]. unfold Main.try_fill_body.
  destruct (Qltb _ _); [| intros H; inversion H; reflexivity].
  intros H. apply bind_Ret in H. destruct H as ([[[c' p'] cu'] |] & _ & H);
    [discriminate |].
  apply bind_Ret in H. destruct H as (x & _ & H). inversion H. reflexivity.
Qed.

Lemma try_fill_body_runs (s : Z * list Placed * list Custom) :
  Main.try_fill_body comp y stripe_top seg_maxx widths s <> OutOfFuel.
Proof.
  destruct s as [[cursor placed] custom]. unfold Main.try_fill_body.
  destruct (Qltb _ _); [| discriminate].
  apply not_OutOfFuel_bind; [apply Main_first_fit_runs | intros [[[c' p'] cu'] |] _];
    [discriminate |].
  apply not_OutOfFuel_bind; [| discriminate].
  unfold Main.append_remaining. destruct (negb _ && _); [| discriminate].
  apply not_OutOfFuel_bind; [apply Main_mk_custom_runs | discriminate].
Qed.

End TryFill.

(** X25.  [_try_fill] of main.py with positive widths ends, and the standard
    blocks it returns lie side by side from the snapped start to the right:
    each ends before the later ones start and within the right edge of the
    component (up to COORD_EPS), sits on the course line with the standard
    height and has one of the widths. *)
Theorem try_fill_blocks :
  forall (K : Shapely) (comp : geom) (y stripe_top : Q) (widths : list Z) (start_x : Q)
         (bx0 by0 bx1 by1 : Q),
    bounds comp = (bx0, by0, bx1, by1) ->
    Forall (fun w => (0 < w)%Z) widths ->
    exists fuel0, forall fuel, (fuel0 <= fuel)%nat ->
      Main._try_fill fuel comp y stripe_top widths start_x <> OutOfFuel
      /\ forall placed custom,
           Main._try_fill fuel comp y stripe_top widths start_x = Ret (placed, custom) ->
           left_to_right placed
           /\ Forall (fun p => (snap start_x <= p_x p)%Z
                               /\ inject_Z (p_x p + p_width p) <= bx1 + COORD_EPS
                               /\ In (p_width p) widths /\ p_y p = snap y
                               /\ p_height p = BLOCK_HEIGHT
                               /\ p_type p = std_type (p_width p) BLOCK_HEIGHT) placed.
Proof.
  intros K comp y stripe_top widths start_x bx0 by0 bx1 by1 Hb positive.
  set (mu := fun s : Z * list Placed * list Custom =>
               if Qltb (inject_Z (fst (fst s))) (bx1 - COORD_EPS)
               then S (Z.to_nat (Qfloor (bx1 - inject_Z (fst (fst s))))) else O).
  set (P := fill_laid (snap y) bx1 widths (snap start_x)).
  assert (P0 : P (snap start_x, [], [])).
  { unfold P, fill_laid. cbn [fst snd]. split; [lia |]. split; constructor. }
  assert (Step : forall s s',
            P s ->
            Main.try_fill_body comp (snap y) (snap stripe_top) bx1 widths s = Ret (inl s') ->
            P s' /\ (mu s' < mu s)%nat).
  { intros s s' Hs H.
    destruct (try_fill_step comp (snap y) (snap stripe_top) bx1 widths positive
                (snap start_x) s s' Hs H) as (Hs' & Hlt & Hc).
    split; [exact Hs' |]. unfold mu.
    apply Qltb_lt in Hc. rewrite Hc. apply Qltb_lt in Hc.
    destruct (Qltb (inject_Z (fst (fst s'))) (bx1 - COORD_EPS)) eqn:C; [| lia].
    apply Qltb_lt in C.
    assert (E : inject_Z (fst (fst s'))
                == inject_Z (fst (fst s)) + inject_Z (fst (fst s') - fst (fst s))).
    { rewrite <- inject_Z_plus. apply inject_Z_injective. lia. }
    assert (C' : inject_Z (fst (fst s)) + inject_Z (fst (fst s') - fst (fst s)) < bx1)
      by (rewrite <- E; unfold COORD_EPS in C; lra).
    pose proof (floor_gap_lowers bx1 (inject_Z (fst (fst s)))
                  (fst (fst s') - fst (fst s)) ltac:(lia) C') as L.
    assert (E2 : bx1 - inject_Z (fst (fst s'))
                 == bx1 - (inject_Z (fst (fst s))
                           + inject_Z (fst (fst s') - fst (fst s))))
      by (rewrite <- E; reflexivity).
    rewrite (Qfloor_comp _ _ E2). lia. }
  exists (S (mu (snap start_x, [], []))). intros fuel Hfuel.
  unfold Main._try_fill. rewrite Hb. split.
  - apply (while_loop_terminates _ mu P); [| exact Step | exact P0 | lia].
    intros s _. apply try_fill_body_runs.
  - intros placed custom H.
    assert (R : left_to_right (fst (placed, custom))
                /\ Forall (fun p => (snap start_x <= p_x p)%Z
                                    /\ inject_Z (p_x p + p_width p) <= bx1 + COORD_EPS
                                    /\ In (p_width p) widths /\ p_y p = snap y
                                    /\ p_height p = BLOCK_HEIGHT
                                    /\ p_type p = std_type (p_width p) BLOCK_HEIGHT)
                          (fst (placed, custom))).
    { apply (while_loop_inv P
               (fun r : list Placed * list Custom =>
                  left_to_right (fst r)
                  /\ Forall (fun p => (snap start_x <= p_x p)%Z
                                      /\ inject_Z (p_x p + p_width p) <= bx1 + COORD_EPS
                                      /\ In (p_width p) widths /\ p_y p = snap y
                                      /\ p_height p = BLOCK_HEIGHT
                                      /\ p_type p = std_type (p_width p) BLOCK_HEIGHT)
                            (fst r)) H P0).
      - intros s s' Hs Hbody. apply (Step s s' Hs Hbody).
      - intros s r (Hc & Hs & Hok) Hexit.
        rewrite (try_fill_exit _ _ _ _ _ _ _ Hexit). split; [exact Hs |].
        apply Forall_impl with (2 := Hok). tauto. }
    exact R.
Qed.

(** The fill of the 423 x 495 wall from 0 with the widths smallest first:
    one block of 413 (and the residual). *)
Lemma try_fill_blocks_witness :
  exists fuel0, forall fuel, (fuel0 <= fuel)%nat ->
    @Main._try_fill Rect.kernel fuel Examples.wall_423 0 495 [413; 826; 1239]%Z 0
    <> OutOfFuel.
Proof.
  destruct (@try_fill_blocks Rect.kernel Examples.wall_423 0 495 [413; 826; 1239]%Z 0
              0 0 423 495 eq_refl) as (fuel0 & H).
  - repeat constructor.
  - exists fuel0. intros fuel Hf. apply (H fuel Hf).
Defined.

(** ** The adaptive course (core/wall_builder.py) *)

Section Adaptive.
Context {K : Shapely}.
Variables (comp : geom) (y maxx effective_height : Q) (widths_order : list Z).

Lemma adaptive_body_block (x : Q) (placed : list Placed) (s' : Q * list Placed) :
  WallBuilder.adaptive_body comp y maxx effective_height widths_order (x, placed)
  = Ret (inl s') ->
  snd s' = placed
  \/ exists p, snd s' = placed ++ [p]
               /\ adaptive_block_ok comp y maxx effective_height widths_order p.
Proof.
  unfold WallBuilder.adaptive_body.
  destruct (Qltb x maxx); [| discriminate].
  set (test := fun width : Z =>
                 Qle_bool (x + inject_Z width) maxx
                 && contains comp (box x y (x + inject_Z width) (y + effective_height))).
  assert (T : forall bw,
            match
              match find (fun width => Qle_bool (inject_Z width - 5) (maxx - x))
                         widths_order with
              | Some ow => if test ow then Some ow else None
              | None => None
              end
            with
            | Some bw0 => Some bw0
            | None => WallBuilder.first_contained comp x y maxx effective_height
                                                  widths_order
            end = Some bw ->
            In bw widths_order /\ test bw = true).
  { intros bw H.
    destruct (find _ widths_order) as [ow |] eqn:F.
    - destruct (test ow) eqn:Tow.
      + inversion H; subst. apply find_some in F. tauto.
      + apply find_some in H. exact H.
    - apply find_some in H. exact H. }
  fold test.
  match goal with
  | |- match ?b with _ => _ end = _ -> _ => destruct b as [bw |] eqn:B
  end.
  - intros H. inversion H; subst; clear H. cbn [snd]. right. eexists.
    split; [reflexivity |].
    destruct (T bw B) as (Hin & Ht). unfold test in Ht.
    apply andb_true_iff in Ht. destruct Ht as (H1 & H2). apply Qle_bool_iff in H1.
    exists x. cbn [p_width p_x p_y p_height p_type]. auto 10.
  - intros H. apply bind_Ret in H. destruct H as (m & _ & H).
    inversion H; subst. left. reflexivity.
Qed.

End Adaptive.

(** X26.  The blocks and pieces of [_pack_segment_with_order_adaptive].
    Every block it returns was tested: at some x the box of the block's
    width and of the effective height, min(adaptive_height, stripe_top - y),
    lay within the right edge and was contained in the component; the block
    records the snapped x, y and height, has one of the widths and the type
    "adaptive_block_{width}".  Every custom piece was made from a polygon of
    area above AREA_EPS. *)
Theorem adaptive_blocks_contained :
  forall (K : Shapely) (fuel : nat) (comp : geom) (y stripe_top : Q)
         (widths_order : list Z) (adaptive_height : Q) (offset : Z)
         (minx miny maxx maxy : Q) (placed : list Placed) (custom : list Custom),
    bounds comp = (minx, miny, maxx, maxy) ->
    WallBuilder._pack_segment_with_order_adaptive fuel comp y stripe_top widths_order
                                                  adaptive_height offset
    = Ret (placed, custom) ->
    Forall (adaptive_block_ok comp y maxx (Qmin adaptive_height (stripe_top - y))
                              widths_order) placed
    /\ Forall (fun c => exists g, AREA_EPS < area g
                                  /\ WallBuilder._mk_custom g [] = Ret c) custom.
Proof.
  intros K fuel comp y stripe_top ws ah offset minx miny maxx maxy placed custom Hb H.
  unfold WallBuilder._pack_segment_with_order_adaptive in H. rewrite Hb in H.
  apply bind_Ret in H. destruct H as (placed0 & Hloop & H).
  apply bind_Ret in H. destruct H as (custom0 & Hcustom & H).
  inversion H; subst placed0 custom0; clear H. split.
  - apply (while_loop_inv
             (fun s : Q * list Placed =>
                Forall (adaptive_block_ok comp y maxx (Qmin ah (stripe_top - y)) ws)
                       (snd s))
             (Forall (adaptive_block_ok comp y maxx (Qmin ah (stripe_top - y)) ws))
             Hloop); [constructor | |].
    + intros [x pl] s' Hs Hbody. cbn [snd] in Hs.
      destruct (adaptive_body_block _ _ _ _ _ _ _ _ Hbody) as [-> | (p & -> & Hp)];
        [exact Hs |].
      apply Forall_app. split; [exact Hs | constructor; [exact Hp | constructor]].
    + intros [x pl] r Hs Hbody. unfold WallBuilder.adaptive_body in Hbody.
      destruct (Qltb x maxx).
      * match type of Hbody with
        | match ?b with _ => _ end = _ => destruct b
        end; [discriminate |].
        apply bind_Ret in Hbody. destruct Hbody as (m & _ & Hbody). discriminate.
      * inversion Hbody; subst. exact Hs.
  - destruct (Qltb AREA_EPS (area _)) eqn:A; [| inversion Hcustom; constructor].
    apply Qltb_lt in A.
    destruct (kind _).
    + apply bind_Ret in Hcustom. destruct Hcustom as (c & Hc & Hcustom).
      inversion Hcustom; subst. constructor; [| constructor]. eauto.
    + apply (for_each_inv (Forall _) Hcustom); [constructor |].
      intros acc g acc' _ Hacc Hstep.
      destruct (Qltb AREA_EPS (area g)) eqn:Ag; [| inversion Hstep; subst; exact Hacc].
      apply bind_Ret in Hstep. destruct Hstep as (c & Hc & Hstep).
      inversion Hstep; subst. apply Forall_app. split; [exact Hacc |].
      constructor; [| constructor]. exists g. split; [apply Qltb_lt, Ag | exact Hc].
    + apply (for_each_inv (Forall _) Hcustom); [constructor |].
      intros acc g acc' _ Hacc Hstep.
      destruct (Qltb AREA_EPS (area g)) eqn:Ag; [| inversion Hstep; subst; exact Hacc].
      apply bind_Ret in Hstep. destruct Hstep as (c & Hc & Hstep).
      inversion Hstep; subst. apply Forall_app. split; [exact Hacc |].
      constructor; [| constructor]. exists g. split; [apply Qltb_lt, Ag | exact Hc].
Qed.

(** A component of 1000 x 200: one adaptive block of 826 and a piece of 174. *)
Lemma adaptive_blocks_contained_witness :
  let comp : @geom Rect.kernel := Rect.r_box 0 0 1000 200 in
  Forall (@adaptive_block_ok Rect.kernel comp 0 1000 (Qmin 200 (200 - 0))
                             [1239; 826; 413]%Z)
         [mkPlaced (adaptive_block_type 826) 826 200 0 0].
Proof.
  intros comp.
  refine (proj1 (@adaptive_blocks_contained Rect.kernel 10 comp 0 200 [1239; 826; 413]%Z
                   200 0 0 0 1000 200 _
                   [@mkCustom Rect.kernel 174 200 826 0 [Rect.mkBox 826 0 1000 200]
                              (Some 174%Z) (Some 0%Z) None]
                   eq_refl eq_refl)).
Defined.

(** ** Blocks sit on the course lines (core/wall_builder.py) *)

Section CourseLines.
Context {K : Shapely}.



Variables (fuel : nat) (polygon : geom) (keepout : option geom) (minx maxx : Q).
Variables (block_widths : list Z) (block_height : Z) (row_offset : option Z).




End CourseLines.


